(** * LegalMind-AI: the hybrid retrieval engine

    A shallow embedding of the retrieval core of the repository
    ([src/retrieval/hybrid_search.py], [src/retrieval/reranker.py],
    [src/retrieval/query_expansion.py], [src/retrieval/retriever.py]) and of
    the parent/child chunker ([src/ingestion/chunking.py]), followed by the
    properties of these functions.  A second part embeds the code around
    them: the storing of the chunks ([src/ingestion/embeddings.py],
    [src/ingestion/__init__.py]), the orchestrator's retrieval nodes
    ([src/agents/orchestrator.py]) and the retrieval metrics
    ([src/evaluation/metrics.py]).

    Conventions of the embedding.
    - Python [float] scores are modelled by exact rationals [Q]; equality of
      scores is [Qeq] ([==]).  Rounding, infinities and NaN are outside the
      model.
    - Python [str] is [string]; a [dict] whose iteration order matters is an
      association list kept in insertion order, a [dict] used as a plain map
      is a [gmap].
    - A Python exception is the [Raise] outcome of the [result] monad; a
      method that updates its object runs in the state-and-exception monad
      [M].
    - The settings and the external collaborators (embedding model, vector
      store, BM25 library, chat model, FlashRank, text splitter, uuid
      generator, clock) are the fields of the record [Env], so every theorem
      holds for all of their behaviours.  Logging is left out. *)

From Stdlib Require Import QArith Qminmax Lqa ZArith Lia Sorted.
From stdpp Require Import base option list strings pretty gmap.

Open Scope list_scope.

(** ** Python preliminaries *)

(** Exceptions: a computation returns a value or raises. *)
Inductive exn : Type :=
| Exception (msg : string).

Inductive result (A : Type) : Type :=
| Ok (a : A)
| Raise (e : exn).
Arguments Ok {A} a.
Arguments Raise {A} e.

#[global] Instance result_ret : MRet result := fun A a => Ok a.

#[global] Instance result_bind : MBind result := fun A B k c =>
  match c with
  | Ok a => k a
  | Raise e => Raise e
  end.

(** Methods of an object with mutable fields: a computation reads and
    updates the object's state [S] and returns a value or raises.  The state
    reached when an exception is raised is kept, as it is in Python. *)
Definition M (S A : Type) : Type := S -> result A * S.

#[global] Instance M_ret {S} : MRet (M S) := fun A a s => (Ok a, s).

#[global] Instance M_bind {S} : MBind (M S) := fun A B k c s =>
  match c s with
  | (Ok a, s') => k a s'
  | (Raise e, s') => (Raise e, s')
  end.

Definition get {S} : M S S := fun s => (Ok s, s).
Definition put {S} (s : S) : M S unit := fun _ => (Ok tt, s).
Definition lift {S A} (r : result A) : M S A := fun s => (r, s).

(** [try: c except Exception as e: h e] *)
Definition try_except {S A} (c : M S A) (h : exn -> M S A) : M S A := fun s =>
  match c s with
  | (Ok a, s') => (Ok a, s')
  | (Raise e, s') => h e s'
  end.

(** A method of the object held in a field, run from the enclosing object. *)
Definition zoom {S T A} (proj : S -> T) (upd : T -> S -> S) (c : M T A) : M S A :=
  fun s => let '(r, t') := c (proj s) in (r, upd t' s).

(** Values stored in metadata dictionaries. *)
Inductive value : Type :=
| VStr (s : string)
| VInt (z : Z).

#[global] Instance value_eq_dec : EqDecision value.
Proof. solve_decision. Defined.

#[global] Instance value_countable : Countable value :=
  inj_countable'
    (fun v => match v with VStr s => inl s | VInt z => inr z end)
    (fun x => match x with inl s => VStr s | inr z => VInt z end)
    (fun v => match v with VStr _ => eq_refl | VInt _ => eq_refl end).

Definition truthy (v : value) : bool :=
  match v with
  | VStr s => negb (String.eqb s "")
  | VInt z => negb (Z.eqb z 0)
  end.

Abbreviation metadata := (gmap string value).

(** [l[i]] raises [IndexError] out of range. *)
Definition index {A} (l : list A) (i : nat) : result A :=
  match l !! i with
  | Some x => Ok x
  | None => Raise (Exception "IndexError")
  end.

(** [l[:n]] for a Python list and an [int] bound: a negative bound counts
    from the end of the list. *)
Definition slice_to {A} (l : list A) (n : Z) : list A :=
  if (0 <=? n)%Z then take (Z.to_nat n) l
  else take (Z.to_nat (Z.of_nat (length l) + n)) l.

(** [x or d] for an optional [int] argument: [None] and [0] are falsy. *)
Definition int_or (x : option Z) (d : Z) : Z :=
  match x with
  | Some z => if (z =? 0)%Z then d else z
  | None => d
  end.

(** [s or d] for an optional string: [None] and the empty string are falsy. *)
Definition str_or (x : option string) (d : string) : string :=
  match x with
  | Some s => if String.eqb s "" then d else s
  | None => d
  end.

(** An insertion-ordered [dict] with string keys: assigning to a present key
    keeps its position, a new key goes to the end. *)
Fixpoint dict_get {V} (d : list (string * V)) (k : string) : option V :=
  match d with
  | [] => None
  | (k', v) :: d' => if String.eqb k k' then Some v else dict_get d' k
  end.

Fixpoint dict_set {V} (d : list (string * V)) (k : string) (v : V) : list (string * V) :=
  match d with
  | [] => [(k, v)]
  | (k', v') :: d' =>
      if String.eqb k k' then (k', v) :: d' else (k', v') :: dict_set d' k v
  end.

(** ** The environment: settings and external collaborators *)

(** [collection.get(include=["documents", "metadatas"])]: parallel lists. *)
Record GetResult : Type := mkGetResult {
  get_ids : list string;
  get_documents : list string;
  get_metadatas : list metadata
}.

(** [collection.query(query_embeddings=[e], ...)]: the entry of the single
    query embedding in each column. *)
Record QueryResult : Type := mkQueryResult {
  q_ids : list string;
  q_documents : list string;
  q_metadatas : list metadata;
  q_distances : list Q
}.

(** FlashRank passages and ranked items. *)
Record Passage : Type := mkPassage {
  p_id : string;
  p_text : string;
  p_meta : metadata
}.

Record RankedItem : Type := mkRankedItem {
  i_id : string;
  i_text : string;
  i_meta : metadata;
  i_score : Q
}.

(** A loaded FlashRank model and a built BM25 index are identified by what
    they were constructed from. *)
Record Ranker : Type := mkRanker { ranker_model_name : string }.
Record BM25Okapi : Type := mkBM25Okapi { bm25_corpus : list (list string) }.

Record Env : Type := mkEnv {
  (* config.settings *)
  OPENAI_CHAT_MODEL : string;
  CHUNK_SIZE : Z;
  CHUNK_OVERLAP : Z;
  RETRIEVAL_TOP_K : Z;
  HYBRID_ALPHA : Q;
  RERANKER_MODEL : string;
  RERANKER_TOP_N : Z;
  (* Python [str] builtins that depend on the Unicode tables *)
  str_chars : string -> list N;            (* the code points of a string *)
  chr_isalpha : N -> bool;                 (* [c.isalpha()] *)
  str_prefix : nat -> string -> string;    (* [s[:n]] *)
  str_strip : string -> string;            (* [s.strip()] *)
  str_lower : string -> string;            (* [s.lower()] *)
  str_split : string -> list string;       (* [s.split()] *)
  (* the embedding model and the Chroma collections *)
  embed_query : string -> result (list Q);
  collection_get : result GetResult;
  collection_peek : Z -> result (list string);
  collection_query : list Q -> Z -> result QueryResult;
  parents_get : value -> result (list string);
  (* rank_bm25 and numpy *)
  get_scores : BM25Okapi -> list string -> list Q;
  argsort : list Q -> list nat;
  (* the chat model: model, system prompt, user prompt, temperature,
     max_tokens; the answer is the message content, possibly [None] *)
  chat_completions_create : string -> string -> string -> Q -> Z -> result (option string);
  (* FlashRank *)
  Ranker_new : string -> result Ranker;
  Ranker_rerank : Ranker -> string -> list Passage -> result (list RankedItem);
  (* langchain's RecursiveCharacterTextSplitter(chunk_size, chunk_overlap,
     separators).split_text and uuid4 (its value at the n-th call) *)
  split_text : Z -> Z -> list string -> string -> list string;
  uuid4 : nat -> string;
  (* [time.perf_counter()] at entry to and at exit from the pipeline *)
  perf_counter_start : Q;
  perf_counter_end : Q
}.

(** ** Search results *)

Record SearchResult : Type := mkSearchResult {
  chunk_id : string;
  text : string;
  score : Q;
  sr_metadata : metadata
}.

(** [list.sort(key=lambda x: x.score, reverse=True)]: a stable sort by
    descending score (elements with equal keys keep their relative order). *)
Fixpoint insert_desc (r : SearchResult) (l : list SearchResult) : list SearchResult :=
  match l with
  | [] => [r]
  | x :: l' =>
      if Qle_bool (score x) (score r) then r :: x :: l'
      else x :: insert_desc r l'
  end.

Definition sort_by_score_desc (l : list SearchResult) : list SearchResult :=
  foldr insert_desc [] l.

(** ** [src/retrieval/hybrid_search.py] *)

Module HybridSearch.

(** The mutable fields of a [HybridSearch] object ([self.alpha] is read from
    the settings once, at construction). *)
Record t : Type := mk {
  alpha : Q;
  _bm25 : option BM25Okapi;
  _corpus_ids : list string;
  _corpus_texts : list string;
  _corpus_meta : list metadata
}.

Definition __init__ (env : Env) : t :=
  {| alpha := HYBRID_ALPHA env; _bm25 := None;
     _corpus_ids := []; _corpus_texts := []; _corpus_meta := [] |}.

Definition _build_bm25_index (env : Env) : M t unit :=
  all_docs ← lift (collection_get env);
  match get_documents all_docs with
  | [] => mret tt
  | _ :: _ =>
      self ← get;
      let tokenized :=
        map (fun doc => str_split env (str_lower env doc)) (get_documents all_docs) in
      put {| alpha := alpha self;
             _bm25 := Some (mkBM25Okapi tokenized);
             _corpus_ids := get_ids all_docs;
             _corpus_texts := get_documents all_docs;
             _corpus_meta := get_metadatas all_docs |}
  end.

(** [arr.min()] and [arr.max()] of a non-empty array (head and tail). *)
Definition arr_min (x : Q) (xs : list Q) : Q := fold_left Qmin xs x.
Definition arr_max (x : Q) (xs : list Q) : Q := fold_left Qmax xs x.

Definition _normalize_scores (scores : list Q) : list Q :=
  match scores with
  | [] => []
  | s0 :: rest =>
      let min_s := arr_min s0 rest in
      let max_s := arr_max s0 rest in
      if Qeq_bool (max_s - min_s) 0 then replicate (length scores) 1%Q
      else map (fun s => ((s - min_s) / (max_s - min_s))%Q) scores
  end.

Definition _bm25_search (env : Env) (query : string) (k : Z) : M t (list SearchResult) :=
  self ← get;
  _ ← (if _bm25 self is None then _build_bm25_index env else mret tt);
  self ← get;
  match _bm25 self with
  | None => mret []
  | Some bm25 =>
      let tokenized_query := str_split env (str_lower env query) in
      let raw_scores := get_scores env bm25 tokenized_query in
      let top_indices := slice_to (rev (argsort env raw_scores)) k in
      scores_for_top ← lift (mapM (index raw_scores) top_indices);
      let norm_scores := _normalize_scores scores_for_top in
      lift (mapM (fun '(idx, norm_score) =>
                    cid ← index (_corpus_ids self) idx;
                    txt ← index (_corpus_texts self) idx;
                    meta ← index (_corpus_meta self) idx;
                    mret (mkSearchResult cid txt norm_score meta))
                 (zip top_indices norm_scores))
  end.

Definition _vector_search (env : Env) (query : string) (k : Z) : M t (list SearchResult) :=
  query_embedding ← lift (embed_query env query);
  results ← lift (collection_query env query_embedding k);
  match q_ids results with
  | [] => mret []
  | _ :: _ =>
      let distances := q_distances results in
      let similarities := map (fun d => (1 - d)%Q) distances in
      let norm_scores := _normalize_scores similarities in
      lift (mapM (fun '(i, cid) =>
                    doc ← index (q_documents results) i;
                    s ← index norm_scores i;
                    meta ← index (q_metadatas results) i;
                    mret (mkSearchResult cid doc s meta))
                 (zip (seq 0 (length (q_ids results))) (q_ids results)))
  end.

(** The values of [score_map]. *)
Record entry : Type := mkEntry {
  e_text : string;
  e_metadata : metadata;
  vector_score : Q;
  bm25_score : Q
}.

(** One iteration of [for r in vector_results]. *)
Definition add_vector (score_map : list (string * entry)) (r : SearchResult) :=
  dict_set score_map (chunk_id r) (mkEntry (text r) (sr_metadata r) (score r) 0%Q).

(** One iteration of [for r in bm25_results]. *)
Definition add_bm25 (score_map : list (string * entry)) (r : SearchResult) :=
  match dict_get score_map (chunk_id r) with
  | Some e =>
      dict_set score_map (chunk_id r)
        (mkEntry (e_text e) (e_metadata e) (vector_score e) (score r))
  | None =>
      dict_set score_map (chunk_id r) (mkEntry (text r) (sr_metadata r) 0%Q (score r))
  end.

Definition build_score_map (vector_results bm25_results : list SearchResult) :=
  fold_left add_bm25 bm25_results (fold_left add_vector vector_results []).

(** One iteration of [for chunk_id, data in score_map.items()]. *)
Definition final_result (a : Q) (kv : string * entry) : SearchResult :=
  let '(cid, data) := kv in
  let final_score := (a * vector_score data + (1 - a) * bm25_score data)%Q in
  mkSearchResult cid (e_text data) final_score (e_metadata data).

(** The body of [search] after the two underlying searches. *)
Definition fuse (a : Q) (vector_results bm25_results : list SearchResult) (k : Z) :=
  let score_map := build_score_map vector_results bm25_results in
  let combined := map (final_result a) score_map in
  let combined := sort_by_score_desc combined in
  slice_to combined k.

Definition search (env : Env) (query : string) (k : option Z) : M t (list SearchResult) :=
  let k := int_or k (RETRIEVAL_TOP_K env) in
  let fetch_k := (k * 3)%Z in
  vector_results ← _vector_search env query fetch_k;
  bm25_results ← _bm25_search env query fetch_k;
  self ← get;
  mret (fuse (alpha self) vector_results bm25_results k).

End HybridSearch.

(** ** [src/retrieval/reranker.py] *)

Module ReRanker.

Record t : Type := mk {
  model_name : string;
  top_n : Z;
  _ranker : option Ranker
}.

Definition __init__ (env : Env) : t :=
  {| model_name := RERANKER_MODEL env; top_n := RERANKER_TOP_N env; _ranker := None |}.

Definition _get_ranker (env : Env) : M t Ranker :=
  self ← get;
  match _ranker self with
  | None =>
      r ← lift (Ranker_new env (model_name self));
      _ ← put {| model_name := model_name self; top_n := top_n self; _ranker := Some r |};
      mret r
  | Some r => mret r
  end.

Definition passage_of (r : SearchResult) : Passage :=
  mkPassage (chunk_id r) (text r) (sr_metadata r).

Definition result_of (item : RankedItem) : SearchResult :=
  mkSearchResult (i_id item) (i_text item) (i_score item) (i_meta item).

Definition rerank (env : Env) (query : string) (results : list SearchResult)
    (top_n_arg : option Z) : M t (list SearchResult) :=
  self ← get;
  let top_n := int_or top_n_arg (top_n self) in
  match results with
  | [] => mret []
  | _ :: _ =>
      try_except
        (ranker ← _get_ranker env;
         let passages := map passage_of results in
         reranked ← lift (Ranker_rerank env ranker query passages);
         let reranked_results := map result_of (slice_to reranked top_n) in
         mret reranked_results)
        (fun e => mret (slice_to results top_n))
  end.

End ReRanker.

(** ** [src/retrieval/query_expansion.py] *)

(** [s.split("\n")] and [s.lstrip(chars)] for ASCII [chars]; both act on the
    bytes of the UTF-8 text exactly as on its characters. *)
Definition newline : Ascii.ascii := Ascii.ascii_of_nat 10.

Fixpoint split_nl (s : string) : list string :=
  match s with
  | EmptyString => [EmptyString]
  | String c s' =>
      if Ascii.eqb c newline then EmptyString :: split_nl s'
      else match split_nl s' with
           | [] => [String c EmptyString]
           | w :: ws => String c w :: ws
           end
  end.

Fixpoint mem_char (c : Ascii.ascii) (chars : string) : bool :=
  match chars with
  | EmptyString => false
  | String c' chars' => Ascii.eqb c c' || mem_char c chars'
  end.

Fixpoint lstrip_chars (s : string) (chars : string) : string :=
  match s with
  | EmptyString => EmptyString
  | String c s' => if mem_char c chars then lstrip_chars s' chars else s
  end.

Module QueryExpander.

Record t : Type := mk { model : string }.

Definition __init__ (env : Env) : t := {| model := OPENAI_CHAT_MODEL env |}.

Definition hyde_prompt : string :=
  "Given the question, write a short hypothetical passage that would answer this question in the context of a legal contract. The passage should sound like it comes from an actual contract clause.".

Definition hyde (env : Env) (self : t) (query : string) : result string :=
  response ← chat_completions_create env (model self) hyde_prompt query (7 # 10) 200;
  let hypothetical := str_or response "" in
  mret hypothetical.

Definition multi_query_prompt : string :=
  "Generate 3 alternative versions of this question that could help retrieve relevant information from a legal contract. Each version should approach the question from a different angle."
  +:+ String newline (String newline "Return only the 3 questions, one per line.").

Definition multi_query (env : Env) (self : t) (query : string) : result (list string) :=
  response ← chat_completions_create env (model self) multi_query_prompt query (7 # 10) 300;
  let text := str_or response "" in
  let queries :=
    map (fun q => lstrip_chars (str_strip env q) "0123456789.-) ")
        (filter (fun q => str_strip env q ≠ "") (split_nl (str_strip env text))) in
  let queries := slice_to queries 3 in
  mret queries.

Definition translate_prompt (target_language : string) : string :=
  "Translate the following text to " +:+ target_language +:+ ". "
  +:+ "Keep legal terminology accurate. "
  +:+ "Return only the translation, nothing else.".

Definition translate_query (env : Env) (self : t) (query target_language : string)
    : result string :=
  response ← chat_completions_create env (model self)
               (translate_prompt target_language) query 0 300;
  let translated := str_or response query in
  mret (str_strip env translated).

Definition expand (env : Env) (self : t) (query : string) (use_hyde use_multi : bool)
    : result (list string) :=
  let queries := [query] in
  queries ← (if use_hyde then h ← hyde env self query; mret (queries ++ [h])
             else mret queries);
  queries ← (if use_multi then qs ← multi_query env self query; mret (queries ++ qs)
             else mret queries);
  mret queries.

End QueryExpander.

(** ** [src/retrieval/retriever.py] *)

Module Retriever.

Record RetrievalResult : Type := mkRetrievalResult {
  results : list SearchResult;
  expanded_queries : list string;
  latency_ms : Q;
  total_candidates : nat;
  parent_context : gmap value string
}.

Record t : Type := mk {
  hybrid_search : HybridSearch.t;
  reranker : option ReRanker.t;
  query_expander : option QueryExpander.t;
  use_query_translation : bool
}.

Definition __init__ (env : Env)
    (use_reranking use_query_expansion use_query_translation : bool) : t :=
  {| hybrid_search := HybridSearch.__init__ env;
     reranker := if use_reranking then Some (ReRanker.__init__ env) else None;
     query_expander :=
       if use_query_expansion || use_query_translation
       then Some (QueryExpander.__init__ env) else None;
     use_query_translation := use_query_translation |}.

Definition set_hybrid_search (hs : HybridSearch.t) (self : t) : t :=
  {| hybrid_search := hs; reranker := reranker self;
     query_expander := query_expander self;
     use_query_translation := use_query_translation self |}.

Definition set_reranker (rr : ReRanker.t) (self : t) : t :=
  {| hybrid_search := hybrid_search self; reranker := Some rr;
     query_expander := query_expander self;
     use_query_translation := use_query_translation self |}.

(** [parents_get env pid] is [parent_collection.get(ids=[pid],
    include=["documents"])["documents"]]. *)
Definition _get_parent_context (env : Env) (results : list SearchResult)
    : gmap value string :=
  let parent_ids : gset value :=
    fold_left
      (fun acc r =>
         match sr_metadata r !! "parent_id" with
         | Some pid => if truthy pid then acc ∪ {[ pid ]} else acc
         | None => acc
         end)
      results ∅ in
  if decide (parent_ids = ∅) then ∅
  else
    fold_left
      (fun parent_context pid =>
         match parents_get env pid with
         | Ok (doc :: _) => <[ pid := doc ]> parent_context
         | Ok [] => parent_context
         | Raise _ => parent_context
         end)
      (elements parent_ids) ∅.

Definition detect_prompt : string :=
  "Detect the language of this text. Reply with only the language name in English (e.g. 'English', 'Slovak', 'Russian').".

Definition count_chars (p : N -> bool) (cs : list N) : nat :=
  length (filter (fun c => p c = true) cs).

(** The body of the [try] block of [_detect_doc_language]. *)
Definition _detect_doc_language_body (env : Env) (self : t) : result (option string) :=
  sample ← collection_peek env 1;
  match sample with
  | [] => mret None
  | doc :: _ =>
      let text := str_prefix env 200 doc in
      let latin :=
        count_chars (fun c => chr_isalpha env c && (c <? 256)%N) (str_chars env text) in
      let total_alpha := count_chars (chr_isalpha env) (str_chars env text) in
      if Nat.eqb total_alpha 0 then mret None
      else
        match query_expander self with
        | None => mret None
        | Some qe =>
            response ← chat_completions_create env (QueryExpander.model qe)
                         detect_prompt text 0 10;
            let lang := str_strip env (str_or response "") in
            mret (Some lang)
        end
  end.

Definition _detect_doc_language (env : Env) (self : t) : option string :=
  match _detect_doc_language_body env self with
  | Ok lang => lang
  | Raise e => None
  end.

Definition _detect_query_language (env : Env) (query : string) : option string :=
  let cyrillic :=
    count_chars (fun c => (1024 <=? c)%N && (c <=? 1279)%N) (str_chars env query) in
  let latin :=
    count_chars (fun c => chr_isalpha env c && (c <? 256)%N) (str_chars env query) in
  if Nat.ltb latin cyrillic then Some "Russian"
  else if Nat.ltb 0 latin then None
  else None.

(** Step 0 of [retrieve]: the query that is searched. *)
Definition translate_step (env : Env) (self : t) (query : string) : result string :=
  match use_query_translation self, query_expander self with
  | true, Some qe =>
      match _detect_query_language env query with
      | Some query_lang =>
          if negb (String.eqb query_lang "") then
            match _detect_doc_language env self with
            | Some doc_lang =>
                if negb (String.eqb doc_lang "")
                   && negb (String.eqb (str_lower env doc_lang) (str_lower env query_lang))
                then QueryExpander.translate_query env qe query doc_lang
                else mret query
            | None => mret query
            end
          else mret query
      | None => mret query
      end
  | _, _ => mret query
  end.

(** Step 1 of [retrieve]: the query variants. *)
Definition expand_step (env : Env) (self : t) (search_query : string)
    (use_hyde use_multi_query : bool) : result (list string) :=
  match query_expander self with
  | Some qe =>
      if use_hyde || use_multi_query
      then QueryExpander.expand env qe search_query use_hyde use_multi_query
      else mret [search_query]
  | None => mret [search_query]
  end.

(** One iteration of the inner loop of step 2. *)
Definition merge_result (all_results : list (string * SearchResult)) (r : SearchResult) :=
  match dict_get all_results (chunk_id r) with
  | None => dict_set all_results (chunk_id r) r
  | Some old =>
      if negb (Qle_bool (score r) (score old))
      then dict_set all_results (chunk_id r) r
      else all_results
  end.

(** Step 2 of [retrieve]: the loop over the query variants. *)
Fixpoint search_all (env : Env) (queries : list string) (k : Z)
    (all_results : list (string * SearchResult))
    : M HybridSearch.t (list (string * SearchResult)) :=
  match queries with
  | [] => mret all_results
  | q :: queries' =>
      rs ← HybridSearch.search env q (Some (k * 2)%Z);
      search_all env queries' k (fold_left merge_result rs all_results)
  end.

(** Step 3 of [retrieve]. *)
Definition rerank_step (env : Env) (query : string) (candidates : list SearchResult)
    (k : Z) : M t (list SearchResult) :=
  self ← get;
  match reranker self, candidates with
  | Some rr, _ :: _ =>
      zoom (fun _ => rr) set_reranker (ReRanker.rerank env query candidates (Some k))
  | _, _ => mret (slice_to candidates k)
  end.

(** Steps 1 to 4 of [retrieve], once step 0 has chosen [search_query] and
    [k] has received its default. *)
Definition retrieve_from (env : Env) (query search_query : string) (k : Z)
    (use_hyde use_multi_query : bool) : M t RetrievalResult :=
  self ← get;
  queries ← lift (expand_step env self search_query use_hyde use_multi_query);
  all_results ← zoom hybrid_search set_hybrid_search (search_all env queries k []);
  let candidates := sort_by_score_desc (map snd all_results) in
  let total_candidates := length candidates in
  results ← rerank_step env query candidates k;
  let parent_context := _get_parent_context env results in
  let latency := ((perf_counter_end env - perf_counter_start env) * 1000)%Q in
  mret {| results := results;
          expanded_queries := queries;
          latency_ms := latency;
          total_candidates := total_candidates;
          parent_context := parent_context |}.

Definition retrieve (env : Env) (query : string) (k : option Z)
    (use_hyde use_multi_query : bool) : M t RetrievalResult :=
  let k := int_or k (RETRIEVAL_TOP_K env) in
  self ← get;
  search_query ← lift (translate_step env self query);
  retrieve_from env query search_query k use_hyde use_multi_query.

End Retriever.

(** ** [src/ingestion/chunking.py] *)

Module Chunking.

Record DocumentPage : Type := mkDocumentPage {
  page_text : string;
  page_number : Z;
  page_metadata : metadata
}.

Record LoadedDocument : Type := mkLoadedDocument {
  pages : list DocumentPage;
  filename : string;
  file_type : string;
  total_pages : Z
}.

Record Chunk : Type := mkChunk {
  c_chunk_id : string;
  c_text : string;
  c_metadata : metadata;
  parent_id : option string
}.

Record ChunkedDocument : Type := mkChunkedDocument {
  parent_chunks : list Chunk;
  child_chunks : list Chunk;
  cd_filename : string
}.

Definition separators : list string :=
  [String newline (String newline ""); String newline ""; ". "; " "; ""].

(** The loop state: the two lists being appended to and the number of
    [uuid4()] calls made so far. *)
Record acc : Type := mkAcc {
  acc_parents : list Chunk;
  acc_children : list Chunk;
  acc_uuids : nat
}.

(** One iteration of [for child_text in child_texts]. *)
Definition add_child (env : Env) (document : LoadedDocument) (page : DocumentPage)
    (pid : string) (a : acc) (child_text : string) : acc :=
  let child :=
    mkChunk (uuid4 env (acc_uuids a)) child_text
      (<[ "filename" := VStr (filename document) ]>
         (<[ "parent_id" := VStr pid ]>
            (<[ "chunk_type" := VStr "child" ]> (page_metadata page))))
      (Some pid) in
  mkAcc (acc_parents a) (acc_children a ++ [child]) (S (acc_uuids a)).

(** One iteration of [for parent_text in parent_texts]. *)
Definition add_parent (env : Env) (document : LoadedDocument) (page : DocumentPage)
    (a : acc) (parent_text : string) : acc :=
  let pid := uuid4 env (acc_uuids a) in
  let parent :=
    mkChunk pid parent_text
      (<[ "filename" := VStr (filename document) ]>
         (<[ "chunk_type" := VStr "parent" ]> (page_metadata page)))
      None in
  let a := mkAcc (acc_parents a ++ [parent]) (acc_children a) (S (acc_uuids a)) in
  let child_texts :=
    split_text env (CHUNK_SIZE env) (CHUNK_OVERLAP env) separators parent_text in
  fold_left (add_child env document page pid) child_texts a.

(** One iteration of [for page in document.pages]. *)
Definition add_page (env : Env) (document : LoadedDocument) (a : acc)
    (page : DocumentPage) : acc :=
  let parent_texts :=
    split_text env (CHUNK_SIZE env * 3) (CHUNK_OVERLAP env * 2) separators
      (page_text page) in
  fold_left (add_parent env document page) parent_texts a.

Definition chunk_document (env : Env) (document : LoadedDocument) : ChunkedDocument :=
  let a := fold_left (add_page env document) (pages document) (mkAcc [] [] 0) in
  mkChunkedDocument (acc_parents a) (acc_children a) (filename document).

End Chunking.

(** ** A concrete environment

    The two-chunk corpus of the end-to-end scenario, with small executable
    stand-ins for the collaborators; the chat model is a parameter so that
    both a working and a failing model can be run. *)

Module Demo.

(** Code points of a UTF-8 string (one- and two-byte sequences). *)
Fixpoint utf8_chars (s : string) : list N :=
  match s with
  | EmptyString => []
  | String c EmptyString => [Ascii.N_of_ascii c]
  | String c (String c' s' as rest) =>
      let b := Ascii.N_of_ascii c in
      let b' := Ascii.N_of_ascii c' in
      if ((192 <=? b) && (b <? 224) && (128 <=? b') && (b' <? 192))%N
      then ((b - 192) * 64 + (b' - 128))%N :: utf8_chars s'
      else b :: utf8_chars rest
  end.

Definition isalpha (c : N) : bool :=
  ((65 <=? c) && (c <=? 90) || (97 <=? c) && (c <=? 122)
   || (1040 <=? c) && (c <=? 1103))%N.

Definition lower_char (c : Ascii.ascii) : Ascii.ascii :=
  let n := Ascii.N_of_ascii c in
  if ((65 <=? n) && (n <=? 90))%N then Ascii.ascii_of_N (n + 32) else c.

Fixpoint lower (s : string) : string :=
  match s with
  | EmptyString => EmptyString
  | String c s' => String (lower_char c) (lower s')
  end.

Definition is_space (c : Ascii.ascii) : bool :=
  let n := Ascii.N_of_ascii c in ((n =? 32) || (9 <=? n) && (n <=? 13))%N.

Fixpoint lstrip (s : string) : string :=
  match s with
  | EmptyString => EmptyString
  | String c s' => if is_space c then lstrip s' else s
  end.

Definition strip (s : string) : string :=
  String.rev (lstrip (String.rev (lstrip s))).

(** Words of [s], with [w] the word being read; [split] drops empty words. *)
Fixpoint words (s : string) (w : string) : list string :=
  match s with
  | EmptyString => [String.rev w]
  | String c s' =>
      if is_space c then String.rev w :: words s' EmptyString
      else words s' (String c w)
  end.

Definition split (s : string) : list string :=
  filter (fun w => w ≠ "") (words s EmptyString).

(** Ascending stable argsort. *)
Fixpoint insert_index (scores : list Q) (i : nat) (l : list nat) : list nat :=
  match l with
  | [] => [i]
  | j :: l' =>
      if Qle_bool (nth i scores 0%Q) (nth j scores 0%Q) then i :: j :: l'
      else j :: insert_index scores i l'
  end.

Definition stable_argsort (scores : list Q) : list nat :=
  foldr (insert_index scores) [] (seq 0 (length scores)).

(** Number of query tokens that occur in the document. *)
Definition overlap (query doc : list string) : Q :=
  inject_Z (Z.of_nat (length (filter (fun w => w ∈ doc) query))).

(** The stored corpus of the scenario, and an empty store. *)
Definition corpus : GetResult :=
  mkGetResult
    ["c1"; "c2"]
    ["Either party may terminate with 30 days notice.";
     "Confidential information includes trade secrets."]
    [ {[ "parent_id" := VStr "P1" ]}; {[ "parent_id" := VStr "P1" ]} ].

Definition no_corpus : GetResult := mkGetResult [] [] [].

Definition env (store : GetResult)
    (chat : string -> string -> string -> Q -> Z -> result (option string))
    (ranker_new : string -> result Ranker) : Env :=
  {| OPENAI_CHAT_MODEL := "gpt-4o-mini";
     CHUNK_SIZE := 512;
     CHUNK_OVERLAP := 50;
     RETRIEVAL_TOP_K := 5;
     HYBRID_ALPHA := 6 # 10;
     RERANKER_MODEL := "rank-T5-flan";
     RERANKER_TOP_N := 3;
     str_chars := utf8_chars;
     chr_isalpha := isalpha;
     str_prefix := fun n s => String.substring 0 n s;
     str_strip := strip;
     str_lower := lower;
     str_split := split;
     embed_query := fun _ => Ok [1%Q; 0%Q];
     collection_get := Ok store;
     collection_peek := fun _ => Ok (take 1 (get_documents store));
     collection_query := fun _ _ =>
       Ok (mkQueryResult (get_ids store) (get_documents store) (get_metadatas store)
             (take (length (get_ids store)) [2 # 10; 8 # 10]));
     parents_get := fun _ =>
       Ok ["Termination. Either party may terminate with 30 days notice."];
     get_scores := fun bm25 query => map (overlap query) (bm25_corpus bm25);
     argsort := stable_argsort;
     chat_completions_create := chat;
     Ranker_new := ranker_new;
     Ranker_rerank := fun _ _ passages =>
       Ok (map (fun p => mkRankedItem (p_id p) (p_text p) (p_meta p) (1 # 2)) passages);
     split_text := fun size _ _ s =>
       if String.eqb s "" then []
       else if (512 <? size)%Z then [s]
       else [String.substring 0 (String.length s / 2) s;
             String.substring (String.length s / 2) (String.length s) s];
     uuid4 := fun n => "uuid-" +:+ pretty n;
     perf_counter_start := 0;
     perf_counter_end := 1 # 100 |}.

(** A chat model that answers, and one that is unavailable. *)
Definition chat_ok (model system user : string) (temperature : Q) (max_tokens : Z)
    : result (option string) := Ok (Some "English").

Definition chat_down (model system user : string) (temperature : Q) (max_tokens : Z)
    : result (option string) := Raise (Exception "APIConnectionError").

(** A chat model that answers the language-detection request and fails on
    every other request. *)
Definition chat_detect_only (model system user : string) (temperature : Q)
    (max_tokens : Z) : result (option string) :=
  if String.eqb system Retriever.detect_prompt then Ok (Some "English")
  else Raise (Exception "APITimeoutError").

Definition ranker_ok (model_name : string) : result Ranker := Ok (mkRanker model_name).

Definition ranker_down (model_name : string) : result Ranker :=
  Raise (Exception "model unavailable").

(** The query [д] (U+0434), as UTF-8. *)
Definition cyrillic_query : string :=
  String (Ascii.ascii_of_nat 208) (String (Ascii.ascii_of_nat 180) EmptyString).

Definition sr (cid : string) (s : Q) : SearchResult := mkSearchResult cid "" s ∅.

End Demo.

(** * Vocabulary of the statements *)

(** What it means for [m] to be the least (greatest) score of a list. *)
Definition is_min (m : Q) (l : list Q) : Prop :=
  Exists (fun x => x == m)%Q l /\ Forall (fun x => m <= x)%Q l.

Definition is_max (m : Q) (l : list Q) : Prop :=
  Exists (fun x => x == m)%Q l /\ Forall (fun x => x <= m)%Q l.

Definition unit_score (s : Q) : Prop := (0 <= s <= 1)%Q.

(** The score of chunk [cid] in a result set, [0] when the set has no result
    with that id.  (Should an id be repeated in the list the last result
    counts, as with a dictionary assignment.) *)
Definition set_score (rs : list SearchResult) (cid : string) : Q :=
  fold_left (fun acc r => if String.eqb (chunk_id r) cid then score r else acc) rs 0%Q.

(** The state of [score_map] after the two loops of [search]. *)
Definition score_map_ok (vs bs : list SearchResult)
    (m : list (string * HybridSearch.entry)) : Prop :=
  NoDup m.*1 /\
  (forall cid, cid ∈ m.*1 <-> cid ∈ chunk_id <$> vs \/ cid ∈ chunk_id <$> bs) /\
  (forall cid e, dict_get m cid = Some e ->
     HybridSearch.vector_score e = set_score vs cid /\
     HybridSearch.bm25_score e = set_score bs cid).

(** [rss] are the result lists that [search] returned for [queries], in
    order, starting from state [hs] and ending in state [hs']. *)
Fixpoint variant_results (env : Env) (queries : list string) (k : Z)
    (hs : HybridSearch.t) (rss : list (list SearchResult)) (hs' : HybridSearch.t) : Prop :=
  match queries, rss with
  | [], [] => hs' = hs
  | q :: queries', rs :: rss' =>
      exists hs1, HybridSearch.search env q (Some (k * 2)%Z) hs = (Ok rs, hs1) /\
                  variant_results env queries' k hs1 rss' hs'
  | _, _ => False
  end.

(** The state of [all_results] after the results [rs] have been merged. *)
Definition merged_ok (rs : list SearchResult) (m : list (string * SearchResult)) : Prop :=
  (forall cid r, dict_get m cid = Some r ->
     chunk_id r = cid /\ r ∈ rs /\
     forall r', r' ∈ rs -> chunk_id r' = cid -> (score r' <= score r)%Q) /\
  (forall r', r' ∈ rs -> is_Some (dict_get m (chunk_id r'))).

(** The model [rerank] works with: the cached one, or a newly loaded one. *)
Definition loaded_ranker (env : Env) (rr : ReRanker.t) : result Ranker :=
  match ReRanker._ranker rr with
  | Some ranker => Ok ranker
  | None => Ranker_new env (ReRanker.model_name rr)
  end.

(** The relevance model raises when [rerank] uses it: loading the model
    raises, or the loaded model raises on the request. *)
Definition model_raises (env : Env) (self : ReRanker.t) (query : string)
    (results : list SearchResult) : Prop :=
  match loaded_ranker env self with
  | Raise _ => True
  | Ok ranker =>
      exists e,
        Ranker_rerank env ranker query (map ReRanker.passage_of results) = Raise e
  end.

(** Every child accumulated so far points at an accumulated parent, and no
    accumulated parent has a parent of its own. *)
Definition linked (a : Chunking.acc) : Prop :=
  (forall c, c ∈ Chunking.acc_children a ->
     exists p, p ∈ Chunking.acc_parents a /\
               Chunking.parent_id c = Some (Chunking.c_chunk_id p)) /\
  (forall p, p ∈ Chunking.acc_parents a -> Chunking.parent_id p = None).

(** The number of results that a run of [retrieve] asks of the vector
    store: [retrieve] gives its [k] the default and calls [search] with
    [k * 2]; [search] gives that the default and fetches three times as
    many. *)
Definition fetch_k (env : Env) (k : option Z) : Z :=
  (int_or (Some (int_or k (RETRIEVAL_TOP_K env) * 2)) (RETRIEVAL_TOP_K env) * 3)%Z.

(** The store holds no document: [get] and [peek(limit=1)] report none, and
    the vector query for [n] results returns no id. *)
Definition empty_corpus (env : Env) (n : Z) : Prop :=
  (exists all_docs, collection_get env = Ok all_docs /\ get_documents all_docs = []) /\
  (forall e, exists qr, collection_query env e n = Ok qr /\ q_ids qr = []) /\
  collection_peek env 1 = Ok [].

(** The environment [env] with another vector query. *)
Definition with_collection_query (q : list Q -> Z -> result QueryResult) (env : Env)
    : Env :=
  {| OPENAI_CHAT_MODEL := OPENAI_CHAT_MODEL env;
     CHUNK_SIZE := CHUNK_SIZE env;
     CHUNK_OVERLAP := CHUNK_OVERLAP env;
     RETRIEVAL_TOP_K := RETRIEVAL_TOP_K env;
     HYBRID_ALPHA := HYBRID_ALPHA env;
     RERANKER_MODEL := RERANKER_MODEL env;
     RERANKER_TOP_N := RERANKER_TOP_N env;
     str_chars := str_chars env;
     chr_isalpha := chr_isalpha env;
     str_prefix := str_prefix env;
     str_strip := str_strip env;
     str_lower := str_lower env;
     str_split := str_split env;
     embed_query := embed_query env;
     collection_get := collection_get env;
     collection_peek := collection_peek env;
     collection_query := q;
     parents_get := parents_get env;
     get_scores := get_scores env;
     argsort := argsort env;
     chat_completions_create := chat_completions_create env;
     Ranker_new := Ranker_new env;
     Ranker_rerank := Ranker_rerank env;
     split_text := split_text env;
     uuid4 := uuid4 env;
     perf_counter_start := perf_counter_start env;
     perf_counter_end := perf_counter_end env |}.

(** An empty store that answers a query for at least one result with no id
    and rejects a query for fewer. *)
Definition empty_store_env : Env :=
  with_collection_query
    (fun _ n => if (0 <? n)%Z then Ok (mkQueryResult [] [] [] [])
                else Raise (Exception "ValueError"))
    (Demo.env Demo.no_corpus Demo.chat_ok Demo.ranker_ok).

(** The scenario environment, and the value computed by a run that returned
    normally. *)
Definition scenario_env : Env := Demo.env Demo.corpus Demo.chat_ok Demo.ranker_ok.

Definition returned {S A} (d : A) (out : result A * S) : A :=
  match out.1 with
  | Ok a => a
  | Raise _ => d
  end.

(** * Further code, and the vocabulary of its properties *)

(** Descending order of scores. *)
Definition score_desc (x y : SearchResult) : Prop := (score y <= score x)%Q.

(** The environment [env] with another answer of [collection.get]: the
    store's contents changed, everything else as before. *)
Definition with_collection_get (g : result GetResult) (env : Env) : Env :=
  {| OPENAI_CHAT_MODEL := OPENAI_CHAT_MODEL env;
     CHUNK_SIZE := CHUNK_SIZE env;
     CHUNK_OVERLAP := CHUNK_OVERLAP env;
     RETRIEVAL_TOP_K := RETRIEVAL_TOP_K env;
     HYBRID_ALPHA := HYBRID_ALPHA env;
     RERANKER_MODEL := RERANKER_MODEL env;
     RERANKER_TOP_N := RERANKER_TOP_N env;
     str_chars := str_chars env;
     chr_isalpha := chr_isalpha env;
     str_prefix := str_prefix env;
     str_strip := str_strip env;
     str_lower := str_lower env;
     str_split := str_split env;
     embed_query := embed_query env;
     collection_get := g;
     collection_peek := collection_peek env;
     collection_query := collection_query env;
     parents_get := parents_get env;
     get_scores := get_scores env;
     argsort := argsort env;
     chat_completions_create := chat_completions_create env;
     Ranker_new := Ranker_new env;
     Ranker_rerank := Ranker_rerank env;
     split_text := split_text env;
     uuid4 := uuid4 env;
     perf_counter_start := perf_counter_start env;
     perf_counter_end := perf_counter_end env |}.

(** The [HybridSearch] object once [_build_bm25_index] has indexed the
    documents [all_docs]. *)
Definition indexed (env : Env) (all_docs : GetResult) (hs : HybridSearch.t)
    : HybridSearch.t :=
  {| HybridSearch.alpha := HybridSearch.alpha hs;
     HybridSearch._bm25 :=
       Some (mkBM25Okapi
               (map (fun doc => str_split env (str_lower env doc))
                    (get_documents all_docs)));
     HybridSearch._corpus_ids := get_ids all_docs;
     HybridSearch._corpus_texts := get_documents all_docs;
     HybridSearch._corpus_meta := get_metadatas all_docs |}.

(** Some result carries [pid] as a truthy [parent_id] in its metadata. *)
Definition referenced (results : list SearchResult) (pid : value) : Prop :=
  exists r, r ∈ results /\ sr_metadata r !! "parent_id" = Some pid /\ truthy pid = true.

#[global] Instance referenced_dec results pid : Decision (referenced results pid).
Proof.
  unfold referenced.
  refine (cast_if (decide (Exists (fun r => sr_metadata r !! "parent_id" = Some pid
                                            /\ truthy pid = true) results)));
    rewrite Exists_exists in *; done.
Defined.

(** The text that the parent store holds for [pid], if any: the first
    document that [get(ids=[pid])] returns. *)
Definition stored_parent (env : Env) (pid : value) : option string :=
  match parents_get env pid with
  | Ok (doc :: _) => Some doc
  | Ok [] => None
  | Raise _ => None
  end.

(** The spans into which [chunk_document] splits a page, and a parent
    span. *)
Definition parent_texts_of (env : Env) (page : Chunking.DocumentPage) : list string :=
  split_text env (CHUNK_SIZE env * 3) (CHUNK_OVERLAP env * 2) Chunking.separators
    (Chunking.page_text page).

Definition child_texts_of (env : Env) (parent_text : string) : list string :=
  split_text env (CHUNK_SIZE env) (CHUNK_OVERLAP env) Chunking.separators parent_text.

(** The chunks at hand while [chunk_document] runs: what each parent and
    each child was made from. *)
Definition parent_from (env : Env) (document : Chunking.LoadedDocument)
    (p : Chunking.Chunk) : Prop :=
  exists page,
    page ∈ Chunking.pages document /\
    Chunking.c_text p ∈ parent_texts_of env page /\
    Chunking.parent_id p = None /\
    Chunking.c_metadata p =
      <[ "filename" := VStr (Chunking.filename document) ]>
        (<[ "chunk_type" := VStr "parent" ]> (Chunking.page_metadata page)).

Definition child_from (env : Env) (document : Chunking.LoadedDocument)
    (parents : list Chunking.Chunk) (c : Chunking.Chunk) : Prop :=
  exists page p,
    page ∈ Chunking.pages document /\
    p ∈ parents /\
    Chunking.c_text p ∈ parent_texts_of env page /\
    Chunking.c_text c ∈ child_texts_of env (Chunking.c_text p) /\
    Chunking.parent_id c = Some (Chunking.c_chunk_id p) /\
    Chunking.c_metadata c =
      <[ "filename" := VStr (Chunking.filename document) ]>
        (<[ "parent_id" := VStr (Chunking.c_chunk_id p) ]>
           (<[ "chunk_type" := VStr "child" ]> (Chunking.page_metadata page))).

(** The state of the loops of [chunk_document]: the origin of the chunks,
    their texts and their ids, given the pages [done] already processed. *)
Definition chunks_ok (env : Env) (document : Chunking.LoadedDocument)
    (parent_texts : list string) (a : Chunking.acc) : Prop :=
  Forall (parent_from env document) (Chunking.acc_parents a) /\
  Forall (child_from env document (Chunking.acc_parents a)) (Chunking.acc_children a) /\
  Chunking.c_text <$> Chunking.acc_parents a = parent_texts /\
  Chunking.c_text <$> Chunking.acc_children a
    = concat (child_texts_of env <$> parent_texts) /\
  Chunking.acc_uuids a
    = length (Chunking.acc_parents a) + length (Chunking.acc_children a) /\
  (Chunking.c_chunk_id <$> Chunking.acc_parents a)
    ++ (Chunking.c_chunk_id <$> Chunking.acc_children a)
    ≡ₚ uuid4 env <$> seq 0 (Chunking.acc_uuids a).

(** ** [src/ingestion/embeddings.py] and [src/ingestion/__init__.py] *)

Module Embeddings.
Import Chunking.

(** One [collection.add] call: the collection's name and the columns
    written ([embeddings] is absent for the parent collection). *)
Record AddCall : Type := mkAddCall {
  add_collection : string;
  add_ids : list string;
  add_embeddings : option (list (list Q));
  add_documents : list string;
  add_metadatas : list metadata
}.

(** The collaborators of ingestion: the settings' collection name, the
    store's [get(where={"filename": f})["ids"]], the embedding model and the
    store's [add].  The state of [embed_and_store] is the list of the [add]
    calls that the store accepted, in order. *)
Record StoreEnv : Type := mkStoreEnv {
  CHROMA_COLLECTION_NAME : string;
  collection_get_where_filename : string -> result (list string);
  embed_documents : list string -> result (list (list Q));
  collection_add : AddCall -> result unit
}.

Definition add (senv : StoreEnv) (call : AddCall) : M (list AddCall) unit :=
  _ ← lift (collection_add senv call);
  written ← get;
  put (written ++ [call]).

(** [range(0, stop, step)] for a positive [step]. *)
Definition range_step (stop step : nat) : list nat :=
  (fun j => j * step) <$> seq 0 ((stop + step - 1) / step).

Definition batch_size : nat := 100.

(** One iteration of [for i in range(0, len(texts), batch_size)]. *)
Definition store_batch (senv : StoreEnv) (texts ids : list string)
    (metadatas : list metadata) (total_stored i : nat) : M (list AddCall) nat :=
  let batch_texts := take batch_size (drop i texts) in
  let batch_ids := take batch_size (drop i ids) in
  let batch_meta := take batch_size (drop i metadatas) in
  batch_embeddings ← lift (embed_documents senv batch_texts);
  _ ← add senv (mkAddCall (CHROMA_COLLECTION_NAME senv) batch_ids
                  (Some batch_embeddings) batch_texts batch_meta);
  mret (total_stored + length batch_texts).

Fixpoint store_batches (senv : StoreEnv) (texts ids : list string)
    (metadatas : list metadata) (starts : list nat) (total_stored : nat)
    : M (list AddCall) nat :=
  match starts with
  | [] => mret total_stored
  | i :: starts' =>
      total_stored ← store_batch senv texts ids metadatas total_stored i;
      store_batches senv texts ids metadatas starts' total_stored
  end.

Definition embed_and_store (senv : StoreEnv) (chunked_doc : ChunkedDocument)
    : M (list AddCall) nat :=
  existing ← lift (collection_get_where_filename senv (cd_filename chunked_doc));
  match existing with
  | _ :: _ => mret 0
  | [] =>
      let child_chunks := child_chunks chunked_doc in
      match child_chunks with
      | [] => mret 0
      | _ :: _ =>
          let texts := map c_text child_chunks in
          let ids := map c_chunk_id child_chunks in
          let metadatas := map c_metadata child_chunks in
          total_stored ←
            store_batches senv texts ids metadatas
              (range_step (length texts) batch_size) 0;
          let parent_chunks := parent_chunks chunked_doc in
          _ ← match parent_chunks with
              | [] => mret tt
              | _ :: _ =>
                  add senv (mkAddCall "legalmind_parents"
                              (map c_chunk_id parent_chunks) None
                              (map c_text parent_chunks)
                              (map c_metadata parent_chunks))
              end;
          mret total_stored
      end
  end.

(** [process_document]; [loaded] is the outcome of [load_document]. *)
Definition process_document (env : Env) (senv : StoreEnv)
    (loaded : result LoadedDocument)
    : M (list AddCall) (LoadedDocument * ChunkedDocument * nat) :=
  doc ← lift loaded;
  let chunked := chunk_document env doc in
  stored ← embed_and_store senv chunked;
  mret (doc, chunked, stored).

End Embeddings.

Module DemoStore.
Import Embeddings.

(** A store that holds nothing of the document yet and accepts every
    write, with an embedding model that answers, or fails from the second
    batch on. *)
Definition embed_ok (texts : list string) : result (list (list Q)) :=
  Ok (map (fun _ => [1%Q; 0%Q]) texts).

Definition embed_first_batch_only (texts : list string) : result (list (list Q)) :=
  if decide (length texts = 100) then Ok (map (fun _ => [1%Q; 0%Q]) texts)
  else Raise (Exception "RateLimitError").

Definition senv (embed : list string -> result (list (list Q))) : StoreEnv :=
  {| CHROMA_COLLECTION_NAME := "legalmind_docs";
     collection_get_where_filename := fun _ => Ok [];
     embed_documents := embed;
     collection_add := fun _ => Ok tt |}.

(** A chunked document with [n] children of one parent. *)
Definition chunked (n : nat) : Chunking.ChunkedDocument :=
  Chunking.mkChunkedDocument
    [Chunking.mkChunk "p" "parent" ∅ None]
    ((fun i => Chunking.mkChunk ("c" +:+ pretty i) "child" ∅ (Some "p")) <$> seq 0 n)
    "test.pdf".

End DemoStore.

(** The [add] calls for the child collection that store the columns
    [ids], [texts] and [metadatas] in batches of at most [batch_size]
    rows with the embeddings of the batch's texts. *)
Definition child_batch (senv : Embeddings.StoreEnv) (call : Embeddings.AddCall) : Prop :=
  Embeddings.add_collection call = Embeddings.CHROMA_COLLECTION_NAME senv /\
  0 < length (Embeddings.add_ids call) <= Embeddings.batch_size /\
  length (Embeddings.add_documents call) = length (Embeddings.add_ids call) /\
  length (Embeddings.add_metadatas call) = length (Embeddings.add_ids call) /\
  exists embeddings,
    Embeddings.embed_documents senv (Embeddings.add_documents call) = Ok embeddings /\
    Embeddings.add_embeddings call = Some embeddings.

(** The [add] call that stores the rows of [children] from [i] on, at most
    [batch_size] of them, with the embeddings [embeddings]. *)
Definition batch_at (senv : Embeddings.StoreEnv) (children : list Chunking.Chunk)
    (i : nat) (embeddings : list (list Q)) : Embeddings.AddCall :=
  Embeddings.mkAddCall (Embeddings.CHROMA_COLLECTION_NAME senv)
    (take Embeddings.batch_size (drop i (map Chunking.c_chunk_id children)))
    (Some embeddings)
    (take Embeddings.batch_size (drop i (map Chunking.c_text children)))
    (take Embeddings.batch_size (drop i (map Chunking.c_metadata children))).

(** The batch of the rows from [i] on fails with [e]: the embedding model
    raises [e] on its texts, or the store raises [e] on its [add]. *)
Definition batch_fails (senv : Embeddings.StoreEnv) (children : list Chunking.Chunk)
    (i : nat) (e : exn) : Prop :=
  match Embeddings.embed_documents senv
          (take Embeddings.batch_size (drop i (map Chunking.c_text children))) with
  | Raise e' => e' = e
  | Ok embeddings =>
      Embeddings.collection_add senv (batch_at senv children i embeddings) = Raise e
  end.

(** The batch [call] of the rows from [i] on was embedded and accepted by
    the store. *)
Definition batch_stored (senv : Embeddings.StoreEnv) (children : list Chunking.Chunk)
    (i : nat) (call : Embeddings.AddCall) : Prop :=
  exists embeddings,
    Embeddings.embed_documents senv
      (take Embeddings.batch_size (drop i (map Chunking.c_text children))) = Ok embeddings /\
    call = batch_at senv children i embeddings /\
    Embeddings.collection_add senv call = Ok tt.

(** The single [add] call that stores the parent chunks, none if there is
    no parent. *)
Definition parent_calls (parents : list Chunking.Chunk) : list Embeddings.AddCall :=
  match parents with
  | [] => []
  | _ :: _ =>
      [Embeddings.mkAddCall "legalmind_parents" (map Chunking.c_chunk_id parents) None
         (map Chunking.c_text parents) (map Chunking.c_metadata parents)]
  end.

(** ** [src/agents/orchestrator.py]: task routing and context retrieval *)

Module Orchestrator.

(** [AgentState], a dictionary in which every key may be absent. *)
Record AgentState : Type := mkAgentState {
  task_type : option string;
  question : option string;
  document_id : option string;
  context : option string;
  page_numbers : option (list value);
  agent_result : option (gmap string value);
  agent : option string;
  error : option (option string)
}.

Definition set_task_type (t : string) (state : AgentState) : AgentState :=
  {| task_type := Some t; question := question state;
     document_id := document_id state; context := context state;
     page_numbers := page_numbers state; agent_result := agent_result state;
     agent := agent state; error := error state |}.

Definition set_context (c : string) (pages : list value) (state : AgentState)
    : AgentState :=
  {| task_type := task_type state; question := question state;
     document_id := document_id state; context := Some c;
     page_numbers := Some pages; agent_result := agent_result state;
     agent := agent state; error := error state |}.

(** [t in ("risk", "qa", "summary")] *)
Definition is_task (t : string) : bool :=
  String.eqb t "risk" || String.eqb t "qa" || String.eqb t "summary".

Definition classify_prompt : string :=
  "Classify the user's intent about a legal contract into one of: risk, qa, summary. Respond with only the single word.".

Definition classify_task (env : Env) (state : AgentState) : result AgentState :=
  let task_type := default "" (task_type state) in
  if is_task task_type then mret state
  else
    let question := str_lower env (default "" (question state)) in
    response ← chat_completions_create env (OPENAI_CHAT_MODEL env)
                 classify_prompt question 0 10;
    let classified := str_lower env (str_strip env (str_or response "qa")) in
    let classified := if is_task classified then classified else "qa" in
    mret (set_task_type classified state).

Definition risk_query : string :=
  "What are the potential risks, liabilities, and problematic clauses?".

Definition summary_query : string :=
  "What are the key terms, parties, and obligations?".

(** [sep.join(parts)] *)
Fixpoint str_join (sep : string) (parts : list string) : string :=
  match parts with
  | [] => ""
  | [p] => p
  | p :: parts' => p +:+ sep +:+ str_join sep parts'
  end.

Definition context_separator : string :=
  String newline (String newline "---" +:+ String newline (String newline "")).

(** The two parts of the body of [for r in result.results]. *)
Definition context_part (result : Retriever.RetrievalResult) (r : SearchResult)
    : string :=
  match sr_metadata r !! "parent_id" with
  | Some parent_id =>
      if truthy parent_id then
        match Retriever.parent_context result !! parent_id with
        | Some parent_text => parent_text
        | None => text r
        end
      else text r
  | None => text r
  end.

Definition add_page_number (page_numbers : list value) (r : SearchResult)
    : list value :=
  match sr_metadata r !! "page" with
  | Some page =>
      if truthy page && negb (bool_decide (page ∈ page_numbers))
      then page_numbers ++ [page] else page_numbers
  | None => page_numbers
  end.

Definition retrieve_context (env : Env) (state : AgentState) : result AgentState :=
  let question := default "" (question state) in
  let task_type := default "qa" (task_type state) in
  if negb (String.eqb (default "" (context state)) "") then mret state
  else
    let query :=
      if String.eqb task_type "risk" then
        (if String.eqb question "" then risk_query else question)
      else if String.eqb task_type "summary" then
        (if String.eqb question "" then summary_query else question)
      else question in
    let retriever := Retriever.__init__ env true false true in
    result ← (Retriever.retrieve env query (Some (RETRIEVAL_TOP_K env))
                false false retriever).1;
    let context_parts := map (context_part result) (Retriever.results result) in
    let page_numbers := fold_left add_page_number (Retriever.results result) [] in
    let context := str_join context_separator context_parts in
    mret (set_context context page_numbers state).

Definition route_to_agent (state : AgentState) : string :=
  let task_type := default "qa" (task_type state) in
  if String.eqb task_type "risk" then "risk_agent"
  else if String.eqb task_type "qa" then "qa_agent"
  else if String.eqb task_type "summary" then "summary_agent"
  else "qa_agent".

End Orchestrator.

(** ** [src/evaluation/metrics.py] *)

Module Metrics.

(** [sub in s] for strings. *)
Fixpoint contains (sub s : string) : bool :=
  String.prefix sub s ||
  match s with
  | EmptyString => false
  | String _ s' => contains sub s'
  end.

(** The test of the inner loops: [truth_lower in chunk.lower() or
    chunk.lower() in truth_lower]. *)
Definition matches (env : Env) (truth chunk : string) : bool :=
  let truth_lower := str_lower env truth in
  contains truth_lower (str_lower env chunk) || contains (str_lower env chunk) truth_lower.

(** One iteration of the outer loop of [retrieval_hit_rate]: the inner loop
    adds one hit at the first matching chunk and breaks. *)
Definition count_hit (env : Env) (hits : nat) (pair : list string * string) : nat :=
  let '(retrieved, truth) := pair in
  if existsb (matches env truth) retrieved then hits + 1 else hits.

Definition retrieval_hit_rate (env : Env) (retrieved_contexts : list (list string))
    (ground_truth_contexts : list string) : Q :=
  match retrieved_contexts with
  | [] => 0
  | _ :: _ =>
      let hits := fold_left (count_hit env) (zip retrieved_contexts ground_truth_contexts) 0 in
      inject_Z (Z.of_nat hits) / inject_Z (Z.of_nat (length retrieved_contexts))
  end.

(** The inner loop of [mean_reciprocal_rank], from rank [rank] on: the
    reciprocal rank of the first matching chunk, [0] if none matches. *)
Fixpoint reciprocal_rank (env : Env) (truth : string) (retrieved : list string)
    (rank : nat) : Q :=
  match retrieved with
  | [] => 0
  | chunk :: retrieved' =>
      if matches env truth chunk then 1 / inject_Z (Z.of_nat rank)
      else reciprocal_rank env truth retrieved' (S rank)
  end.

Definition add_reciprocal_rank (env : Env) (rr_sum : Q) (pair : list string * string) : Q :=
  let '(retrieved, truth) := pair in
  (rr_sum + reciprocal_rank env truth retrieved 1)%Q.

Definition mean_reciprocal_rank (env : Env) (retrieved_contexts : list (list string))
    (ground_truth_contexts : list string) : Q :=
  match retrieved_contexts with
  | [] => 0
  | _ :: _ =>
      let rr_sum :=
        fold_left (add_reciprocal_rank env)
          (zip retrieved_contexts ground_truth_contexts) 0%Q in
      rr_sum / inject_Z (Z.of_nat (length retrieved_contexts))
  end.

End Metrics.

(** A page number is the truthy [page] metadata of some result. *)
Definition page_of (results : list SearchResult) (page : value) : Prop :=
  exists r, r ∈ results /\ sr_metadata r !! "page" = Some page /\ truthy page = true.

(** * Properties *)

(** ** Insertion-ordered dictionaries *)

Section dict.
Context {V : Type}.
Implicit Types (d : list (string * V)) (k : string) (v : V).

Lemma dict_get_set d k v k' :
  dict_get (dict_set d k v) k' = if String.eqb k' k then Some v else dict_get d k'.
Proof.
  induction d as [|[k0 v0] d IH]; simpl.
  - reflexivity.
  - destruct (String.eqb k k0) eqn:E; simpl.
    + apply String.eqb_eq in E as ->. destruct (String.eqb k' k0); reflexivity.
    + rewrite IH. destruct (String.eqb k' k0) eqn:E'; [|reflexivity].
      apply String.eqb_eq in E' as ->. rewrite String.eqb_sym, E. reflexivity.
Qed.

Lemma dict_get_Some_elem d k v : dict_get d k = Some v -> (k, v) ∈ d.
Proof.
  induction d as [|[k0 v0] d IH]; simpl; [discriminate|].
  destruct (String.eqb k k0) eqn:E.
  - apply String.eqb_eq in E as ->. intros [= ->]. left.
  - intros H. right. auto.
Qed.

Lemma dict_get_None d k : dict_get d k = None <-> k ∉ d.*1.
Proof.
  induction d as [|[k0 v0] d IH]; simpl.
  - split; [intros _; apply not_elem_of_nil | reflexivity].
  - rewrite not_elem_of_cons. destruct (String.eqb k k0) eqn:E.
    + apply String.eqb_eq in E. split; [discriminate | tauto].
    + apply String.eqb_neq in E. tauto.
Qed.

Lemma dict_get_is_Some d k : is_Some (dict_get d k) <-> k ∈ d.*1.
Proof.
  rewrite <- not_eq_None_Some, dict_get_None.
  destruct (decide (k ∈ d.*1)); tauto.
Qed.

Lemma dict_elem_get d k v : NoDup d.*1 -> (k, v) ∈ d -> dict_get d k = Some v.
Proof.
  induction d as [|[k0 v0] d IH]; simpl; intros ND Hin.
  - inversion Hin.
  - apply NoDup_cons in ND as [Hk0 ND]. apply elem_of_cons in Hin as [[= -> ->]|Hin].
    + rewrite String.eqb_refl. reflexivity.
    + destruct (String.eqb k k0) eqn:E; [|auto].
      apply String.eqb_eq in E as ->. exfalso. apply Hk0.
      apply list_elem_of_fmap. exists (k0, v). auto.
Qed.

Lemma dict_set_keys d k v :
  (dict_set d k v).*1 = if decide (k ∈ d.*1) then d.*1 else d.*1 ++ [k].
Proof.
  induction d as [|[k0 v0] d IH].
  - case_decide as H; [by apply elem_of_nil in H | done].
  - cbn [dict_set]. destruct (String.eqb k k0) eqn:E.
    + apply String.eqb_eq in E as ->. rewrite decide_True by (cbn; left). done.
    + apply String.eqb_neq in E. rewrite !fmap_cons, IH. cbn [fst].
      destruct (decide (k ∈ d.*1)) as [Hin|Hin].
      * rewrite decide_True by (right; assumption). done.
      * rewrite decide_False; [done|]. rewrite not_elem_of_cons. tauto.
Qed.

Lemma dict_set_NoDup d k v : NoDup d.*1 -> NoDup (dict_set d k v).*1.
Proof.
  intros ND. rewrite dict_set_keys. destruct (decide (k ∈ d.*1)); [assumption|].
  apply NoDup_app. split; [assumption|]. split.
  - intros x Hx Hx'. apply list_elem_of_singleton in Hx' as ->. contradiction.
  - apply NoDup_singleton.
Qed.

Lemma dict_set_elem_key d k v k' : k' ∈ (dict_set d k v).*1 <-> k' = k \/ k' ∈ d.*1.
Proof.
  rewrite dict_set_keys. destruct (decide (k ∈ d.*1)).
  - split; [tauto|]. intros [->|]; assumption.
  - rewrite elem_of_app, list_elem_of_singleton. tauto.
Qed.

End dict.

(** ** Sorting and slicing keep the elements *)

Lemma insert_desc_Permutation r l : insert_desc r l ≡ₚ r :: l.
Proof.
  induction l as [|x l IH]; simpl; [done|].
  destruct (Qle_bool (score x) (score r)); [done|].
  rewrite IH. apply Permutation_swap.
Qed.

Lemma sort_by_score_desc_Permutation l : sort_by_score_desc l ≡ₚ l.
Proof.
  unfold sort_by_score_desc. induction l as [|x l IH]; simpl; [done|].
  rewrite insert_desc_Permutation, IH. done.
Qed.

Lemma insert_desc_sorted r l :
  StronglySorted (fun x y => score y <= score x)%Q l ->
  StronglySorted (fun x y => score y <= score x)%Q (insert_desc r l).
Proof.
  induction 1 as [|x l Hl IH Hx]; simpl; [repeat constructor|].
  destruct (Qle_bool (score x) (score r)) eqn:E.
  - apply Qle_bool_iff in E. constructor; [by constructor|].
    constructor; [exact E|]. eapply Forall_impl; [exact Hx|].
    intros y Hy. simpl in Hy. eapply Qle_trans; eassumption.
  - assert (score r <= score x)%Q as Hle.
    { apply Qlt_le_weak, Qnot_le_lt. intros Hle. apply Qle_bool_iff in Hle. congruence. }
    constructor; [exact IH|].
    rewrite insert_desc_Permutation. by constructor.
Qed.

Lemma sort_by_score_desc_sorted l :
  StronglySorted (fun x y => score y <= score x)%Q (sort_by_score_desc l).
Proof.
  unfold sort_by_score_desc. induction l as [|x l IH]; simpl; [constructor|].
  apply insert_desc_sorted, IH.
Qed.

Lemma slice_to_subseteq {A} (l : list A) n : slice_to l n ⊆ l.
Proof.
  unfold slice_to. destruct (0 <=? n)%Z; apply sublist_subseteq, sublist_take.
Qed.

Lemma slice_to_length {A} (l : list A) n :
  (0 <= n)%Z -> (Z.of_nat (length (slice_to l n)) <= n)%Z.
Proof.
  intros H. unfold slice_to. rewrite (proj2 (Z.leb_le 0 n) H), length_take. lia.
Qed.

Lemma slice_to_nil {A} n : slice_to (@nil A) n = [].
Proof. unfold slice_to. destruct (0 <=? n)%Z; apply take_nil. Qed.


(** ** Reasoning about the two monads *)

Lemma result_bind_Ok {A B} (c : result A) (k : A -> result B) b :
  c ≫= k = Ok b -> exists a, c = Ok a /\ k a = Ok b.
Proof. destruct c as [a|e]; [eauto | discriminate]. Qed.

Lemma mapM_Ok_elem {A B} (f : A -> result B) l rs :
  mapM f l = Ok rs -> forall r, r ∈ rs -> exists x, x ∈ l /\ f x = Ok r.
Proof.
  revert rs. induction l as [|x l IH]; simpl; intros rs H r Hr.
  - injection H as <-. inversion Hr.
  - apply result_bind_Ok in H as (y & Hy & H).
    apply result_bind_Ok in H as (ys & Hys & H).
    injection H as <-. apply elem_of_cons in Hr as [->|Hr].
    + exists x. split; [left | exact Hy].
    + destruct (IH _ Hys _ Hr) as (x' & Hx' & Hf). exists x'. split; [by right | exact Hf].
Qed.

Lemma mapM_Ok_Forall2 {A B} (f : A -> result B) l rs :
  mapM f l = Ok rs -> Forall2 (fun x r => f x = Ok r) l rs.
Proof.
  revert rs. induction l as [|x l IH]; simpl; intros rs H.
  - injection H as <-. constructor.
  - apply result_bind_Ok in H as (y & Hy & H).
    apply result_bind_Ok in H as (ys & Hys & H).
    injection H as <-. constructor; auto.
Qed.

Lemma index_Ok_elem {A} (l : list A) i x : index l i = Ok x -> x ∈ l.
Proof.
  unfold index. destruct (l !! i) eqn:E; [|discriminate].
  intros [= <-]. eapply list_elem_of_lookup_2, E.
Qed.

(** Inversion of a bind in [M]. *)
Lemma M_bind_Ok {S A B} (c : M S A) (k : A -> M S B) s b s' :
  (c ≫= k) s = (Ok b, s') ->
  exists a s1, c s = (Ok a, s1) /\ k a s1 = (Ok b, s').
Proof.
  unfold mbind, M_bind. destruct (c s) as [[a|e] s1]; [eauto | discriminate].
Qed.

Lemma lift_Ok {S A} (r : result A) (s : S) a s' :
  lift r s = (Ok a, s') -> r = Ok a /\ s' = s.
Proof. unfold lift. intros [= -> ->]. done. Qed.

Lemma mret_Ok {S A} (x : A) (s : S) a s' :
  mret (M := M S) x s = (Ok a, s') -> a = x /\ s' = s.
Proof. unfold mret, M_ret. intros [= -> ->]. done. Qed.

Ltac inv_M H :=
  repeat match type of H with
  | (_ ≫= _) _ = (Ok _, _) =>
      let a := fresh "a" in let s := fresh "s" in
      let H1 := fresh "Hc" in
      apply M_bind_Ok in H as (a & s & H1 & H)
  end.


(** ** Score normalisation *)

Module NormalizeProps.
Import HybridSearch.
Local Open Scope Q_scope.

Lemma arr_min_le_init xs : forall x, arr_min x xs <= x.
Proof.
  unfold arr_min. induction xs as [|y xs IH]; intros x; simpl.
  - apply Qle_refl.
  - eapply Qle_trans; [apply IH | apply Q.le_min_l].
Qed.

Lemma arr_min_lower xs : forall x, Forall (fun y => arr_min x xs <= y) xs.
Proof.
  unfold arr_min. induction xs as [|y xs IH]; intros x; simpl; constructor.
  - eapply Qle_trans; [apply (arr_min_le_init xs) | apply Q.le_min_r].
  - apply IH.
Qed.

Lemma arr_min_attained xs : forall x, Exists (fun y => y == arr_min x xs) (x :: xs).
Proof.
  unfold arr_min. induction xs as [|y xs IH]; intros x; simpl.
  - left. reflexivity.
  - specialize (IH (Qmin x y)). apply Exists_cons in IH as [IH|IH].
    + destruct (Q.min_dec x y) as [E|E].
      * left. rewrite <- IH. symmetry. exact E.
      * right. left. rewrite <- IH. symmetry. exact E.
    + right. right. exact IH.
Qed.

Lemma arr_max_ge_init xs : forall x, x <= arr_max x xs.
Proof.
  unfold arr_max. induction xs as [|y xs IH]; intros x; simpl.
  - apply Qle_refl.
  - eapply Qle_trans; [apply Q.le_max_l | apply IH].
Qed.

Lemma arr_max_upper xs : forall x, Forall (fun y => y <= arr_max x xs) xs.
Proof.
  unfold arr_max. induction xs as [|y xs IH]; intros x; simpl; constructor.
  - eapply Qle_trans; [apply Q.le_max_r | apply (arr_max_ge_init xs)].
  - apply IH.
Qed.

Lemma arr_max_attained xs : forall x, Exists (fun y => y == arr_max x xs) (x :: xs).
Proof.
  unfold arr_max. induction xs as [|y xs IH]; intros x; simpl.
  - left. reflexivity.
  - specialize (IH (Qmax x y)). apply Exists_cons in IH as [IH|IH].
    + destruct (Q.max_dec x y) as [E|E].
      * left. rewrite <- IH. symmetry. exact E.
      * right. left. rewrite <- IH. symmetry. exact E.
    + right. right. exact IH.
Qed.

Lemma arr_min_is_min x xs : is_min (arr_min x xs) (x :: xs).
Proof.
  split; [apply arr_min_attained|].
  constructor; [apply arr_min_le_init | apply arr_min_lower].
Qed.

Lemma arr_max_is_max x xs : is_max (arr_max x xs) (x :: xs).
Proof.
  split; [apply arr_max_attained|].
  constructor; [apply arr_max_ge_init | apply arr_max_upper].
Qed.

Lemma is_min_unique l m m' : is_min m l -> is_min m' l -> m == m'.
Proof.
  intros [E1 L1] [E2 L2].
  apply Exists_exists in E1 as (x & Hx & Ex), E2 as (y & Hy & Ey).
  rewrite Forall_forall in L1, L2.
  apply Qle_antisym.
  - rewrite <- Ey. apply L1, Hy.
  - rewrite <- Ex. apply L2, Hx.
Qed.

Lemma is_max_unique l m m' : is_max m l -> is_max m' l -> m == m'.
Proof.
  intros [E1 L1] [E2 L2].
  apply Exists_exists in E1 as (x & Hx & Ex), E2 as (y & Hy & Ey).
  rewrite Forall_forall in L1, L2.
  apply Qle_antisym.
  - rewrite <- Ex. apply L2, Hx.
  - rewrite <- Ey. apply L1, Hy.
Qed.

Lemma normalize_degenerate s0 rest :
  arr_max s0 rest == arr_min s0 rest ->
  _normalize_scores (s0 :: rest) = replicate (length (s0 :: rest)) 1.
Proof.
  intros E. unfold _normalize_scores.
  replace (Qeq_bool (arr_max s0 rest - arr_min s0 rest) 0) with true; [reflexivity|].
  symmetry. apply Qeq_bool_iff. rewrite E. ring.
Qed.

Lemma normalize_spread s0 rest :
  arr_min s0 rest < arr_max s0 rest ->
  _normalize_scores (s0 :: rest) =
  map (fun s => (s - arr_min s0 rest) / (arr_max s0 rest - arr_min s0 rest)) (s0 :: rest).
Proof.
  intros L. unfold _normalize_scores.
  destruct (Qeq_bool (arr_max s0 rest - arr_min s0 rest) 0) eqn:E; [|reflexivity].
  apply Qeq_bool_iff in E. lra.
Qed.

(** C1. [_normalize_scores] is min-max normalisation: the empty list is
    mapped to the empty list; on a non-empty list whose greatest score [mx]
    exceeds its least score [mn] every score [s] is mapped to
    [(s - mn) / (mx - mn)]; on a non-empty list with [mx] equal to [mn] every
    score is mapped to [1]; and [[0.1, 0.5, 0.9]] is mapped to
    [[0, 0.5, 1]]. *)
Theorem normalize_scores_min_max (scores : list Q) (mn mx : Q) :
  _normalize_scores [] = [] /\
  (scores <> [] -> is_min mn scores -> is_max mx scores ->
     (mn < mx ->
        Forall2 (fun s r => r == (s - mn) / (mx - mn)) scores (_normalize_scores scores)) /\
     (mx == mn ->
        _normalize_scores scores = replicate (length scores) 1)) /\
  Forall2 Qeq (_normalize_scores [1 # 10; 5 # 10; 9 # 10]) [0; 1 # 2; 1].
Proof.
  split; [reflexivity|]. split.
  - intros Hne Hmin Hmax. destruct scores as [|s0 rest]; [congruence|].
    pose proof (is_min_unique _ _ _ Hmin (arr_min_is_min s0 rest)) as Emin.
    pose proof (is_max_unique _ _ _ Hmax (arr_max_is_max s0 rest)) as Emax.
    split.
    + intros Hlt. rewrite normalize_spread by (rewrite <- Emin, <- Emax; exact Hlt).
      apply Forall2_fmap_r, Forall_Forall2_diag, Forall_forall.
      intros s _. simpl. rewrite Emin, Emax. reflexivity.
    + intros Heq. apply normalize_degenerate. rewrite <- Emin, <- Emax. exact Heq.
  - repeat constructor.
Qed.

Lemma normalize_scores_min_max_witness :
  Forall2 (fun s r => r == (s - (1 # 10)) / ((9 # 10) - (1 # 10)))
    [1 # 10; 5 # 10; 9 # 10] (_normalize_scores [1 # 10; 5 # 10; 9 # 10])
  /\ _normalize_scores [1 # 2; 1 # 2; 1 # 2] = [1; 1; 1].
Proof.
  split.
  - refine (proj1 (proj1 (proj2 (normalize_scores_min_max
              [1 # 10; 5 # 10; 9 # 10] (1 # 10) (9 # 10))) _ _ _) _).
    + discriminate.
    + split; [left; reflexivity | repeat constructor; discriminate].
    + split; [right; right; left; reflexivity | repeat constructor; discriminate].
    + reflexivity.
  - refine (proj2 (proj1 (proj2 (normalize_scores_min_max
              [1 # 2; 1 # 2; 1 # 2] (1 # 2) (1 # 2))) _ _ _) _).
    + discriminate.
    + split; [left; reflexivity | repeat constructor; discriminate].
    + split; [left; reflexivity | repeat constructor; discriminate].
    + reflexivity.
Defined.

End NormalizeProps.

(** ** Hybrid search: fusion and score bounds *)

Module HybridSearchProps.
Import HybridSearch NormalizeProps.
Local Open Scope Q_scope.

Lemma set_score_snoc rs r cid :
  set_score (rs ++ [r]) cid =
  if String.eqb (chunk_id r) cid then score r else set_score rs cid.
Proof. unfold set_score. rewrite fold_left_app. reflexivity. Qed.

Lemma set_score_absent rs cid : cid ∉ chunk_id <$> rs -> set_score rs cid = 0.
Proof.
  induction rs as [|r rs IH] using rev_ind; [reflexivity|].
  rewrite fmap_app, not_elem_of_app, set_score_snoc. simpl.
  intros [H1 H2]. destruct (String.eqb (chunk_id r) cid) eqn:E; [|auto].
  apply String.eqb_eq in E. exfalso. apply H2. rewrite E. left.
Qed.

Lemma set_score_elem rs r :
  NoDup (chunk_id <$> rs) -> r ∈ rs -> set_score rs (chunk_id r) = score r.
Proof.
  induction rs as [|x rs IH] using rev_ind; intros ND Hin; [inversion Hin|].
  rewrite fmap_app in ND. apply NoDup_app in ND as (ND & Hx & _).
  rewrite set_score_snoc. apply elem_of_app in Hin as [Hin|Hin].
  - destruct (String.eqb (chunk_id x) (chunk_id r)) eqn:E; [|auto].
    apply String.eqb_eq in E. exfalso. apply (Hx (chunk_id r)).
    + apply list_elem_of_fmap. eauto.
    + rewrite <- E. left.
  - apply list_elem_of_singleton in Hin as ->. rewrite String.eqb_refl. reflexivity.
Qed.

Lemma add_vector_ok vs r m :
  score_map_ok vs [] m -> score_map_ok (vs ++ [r]) [] (add_vector m r).
Proof.
  intros (ND & Hkeys & Hval). unfold add_vector. split; [|split].
  - apply dict_set_NoDup, ND.
  - intros cid. rewrite dict_set_elem_key, Hkeys, fmap_app, elem_of_app.
    simpl. rewrite list_elem_of_singleton. tauto.
  - intros cid e. rewrite dict_get_set, set_score_snoc, (String.eqb_sym cid).
    destruct (String.eqb (chunk_id r) cid); [intros [= <-]; done|]. apply Hval.
Qed.

Lemma vector_loop_ok vs : score_map_ok vs [] (fold_left add_vector vs []).
Proof.
  induction vs as [|r vs IH] using rev_ind.
  - split; [constructor|]. split.
    + intros cid. simpl. split; [intros H; inversion H | intros [H|H]; inversion H].
    + intros cid e. discriminate.
  - rewrite fold_left_app. simpl. apply add_vector_ok, IH.
Qed.

Lemma add_bm25_ok vs bs r m :
  score_map_ok vs bs m -> score_map_ok vs (bs ++ [r]) (add_bm25 m r).
Proof.
  intros (ND & Hkeys & Hval). unfold add_bm25.
  assert (Hk : forall e cid,
    cid ∈ (dict_set m (chunk_id r) e).*1 <->
    cid ∈ chunk_id <$> vs \/ cid ∈ chunk_id <$> (bs ++ [r])).
  { intros e cid. rewrite dict_set_elem_key, Hkeys, fmap_app, elem_of_app.
    simpl. rewrite list_elem_of_singleton. tauto. }
  destruct (dict_get m (chunk_id r)) as [old|] eqn:Hget.
  - split; [apply dict_set_NoDup, ND|]. split; [apply Hk|].
    intros cid e. rewrite dict_get_set, set_score_snoc, (String.eqb_sym cid).
    destruct (String.eqb (chunk_id r) cid) eqn:E; [|apply Hval].
    apply String.eqb_eq in E as <-. intros [= <-]. simpl.
    split; [apply (Hval _ _ Hget) | reflexivity].
  - split; [apply dict_set_NoDup, ND|]. split; [apply Hk|].
    intros cid e. rewrite dict_get_set, set_score_snoc, (String.eqb_sym cid).
    destruct (String.eqb (chunk_id r) cid) eqn:E; [|apply Hval].
    apply String.eqb_eq in E as <-. intros [= <-]. simpl.
    split; [|reflexivity]. symmetry. apply set_score_absent.
    apply dict_get_None in Hget. rewrite Hkeys in Hget. tauto.
Qed.

Lemma build_score_map_ok vs bs : score_map_ok vs bs (build_score_map vs bs).
Proof.
  unfold build_score_map. induction bs as [|r bs IH] using rev_ind.
  - apply vector_loop_ok.
  - rewrite fold_left_app. simpl. apply add_bm25_ok, IH.
Qed.

Lemma final_result_ids a m : chunk_id <$> (final_result a <$> m) = m.*1.
Proof.
  rewrite <- list_fmap_compose. apply list_fmap_ext. intros _ [cid e] _. reflexivity.
Qed.

Lemma combined_score a vs bs r :
  r ∈ map (final_result a) (build_score_map vs bs) ->
  score r = a * set_score vs (chunk_id r) + (1 - a) * set_score bs (chunk_id r).
Proof.
  destruct (build_score_map_ok vs bs) as (ND & Hkeys & Hval).
  intros Hr. apply list_elem_of_fmap in Hr as ([cid e] & -> & Hin).
  apply (dict_elem_get _ _ _ ND) in Hin. destruct (Hval _ _ Hin) as [Hv Hb].
  simpl. rewrite Hv, Hb. reflexivity.
Qed.

Lemma fuse_subseteq a vs bs k :
  fuse a vs bs k ⊆ map (final_result a) (build_score_map vs bs).
Proof.
  unfold fuse. etrans; [apply slice_to_subseteq|].
  intros r. rewrite sort_by_score_desc_Permutation. done.
Qed.

Lemma normalize_scores_unit scores : Forall unit_score (_normalize_scores scores).
Proof.
  destruct scores as [|s0 rest]; [constructor|].
  destruct (arr_min_is_min s0 rest) as [_ Hmin].
  destruct (arr_max_is_max s0 rest) as [_ Hmax].
  unfold _normalize_scores.
  destruct (Qeq_bool (arr_max s0 rest - arr_min s0 rest) 0) eqn:E.
  - apply Forall_replicate. split; discriminate.
  - apply Qeq_bool_neq in E. apply Forall_fmap, Forall_forall. intros s Hs.
    rewrite Forall_forall in Hmin, Hmax.
    specialize (Hmin s Hs). specialize (Hmax s Hs). simpl in Hmin, Hmax.
    assert (Hpos : 0 < arr_max s0 rest - arr_min s0 rest) by lra.
    unfold unit_score. simpl. split.
    + apply Qle_shift_div_l; [exact Hpos | lra].
    + apply Qle_shift_div_r; [exact Hpos | lra].
Qed.

Lemma set_score_unit rs cid :
  Forall (fun r => unit_score (score r)) rs -> unit_score (set_score rs cid).
Proof.
  induction rs as [|r rs IH] using rev_ind; intros H.
  - split; discriminate.
  - apply Forall_app in H as [H1 H2]. rewrite set_score_snoc.
    destruct (String.eqb (chunk_id r) cid); [|auto].
    inversion H2; assumption.
Qed.

Lemma convex_unit a v b :
  0 <= a <= 1 -> unit_score v -> unit_score b -> unit_score (a * v + (1 - a) * b).
Proof. unfold unit_score. intros Ha Hv Hb. split; nra. Qed.

Lemma fuse_unit a vs bs k :
  0 <= a <= 1 ->
  Forall (fun r => unit_score (score r)) vs ->
  Forall (fun r => unit_score (score r)) bs ->
  Forall (fun r => unit_score (score r)) (fuse a vs bs k).
Proof.
  intros Ha Hvs Hbs. apply Forall_forall. intros r Hr.
  rewrite (combined_score a vs bs r (fuse_subseteq a vs bs k r Hr)).
  apply convex_unit; [exact Ha | by apply set_score_unit..].
Qed.

Lemma _build_bm25_index_alpha env hs r hs' :
  _build_bm25_index env hs = (r, hs') -> alpha hs' = alpha hs.
Proof.
  unfold _build_bm25_index, mbind, M_bind, lift.
  destruct (collection_get env) as [all_docs|e]; [|by intros [= _ <-]].
  destruct (get_documents all_docs); [by intros [= _ <-]|].
  unfold get, put. by intros [= _ <-].
Qed.

Lemma _vector_search_spec env query k hs rs hs' :
  _vector_search env query k hs = (Ok rs, hs') ->
  hs' = hs /\ Forall (fun r => unit_score (score r)) rs.
Proof.
  unfold _vector_search. intros H. inv_M H.
  apply lift_Ok in Hc as [_ ->], Hc0 as [_ ->].
  destruct (q_ids a0) as [|cid0 ids]; [apply mret_Ok in H as [-> ->]; by split|].
  apply lift_Ok in H as [H ->]. split; [reflexivity|].
  pose proof (normalize_scores_unit (map (fun d => 1 - d) (q_distances a0))) as Hn.
  rewrite Forall_forall in Hn.
  apply Forall_forall. intros r Hr.
  destruct (mapM_Ok_elem _ _ _ H r Hr) as ([i cid] & _ & Hf).
  apply result_bind_Ok in Hf as (doc & _ & Hf).
  apply result_bind_Ok in Hf as (s & Hs & Hf).
  apply result_bind_Ok in Hf as (meta & _ & Hf).
  injection Hf as <-. simpl. apply Hn. eapply index_Ok_elem, Hs.
Qed.

Lemma _bm25_search_spec env query k hs rs hs' :
  _bm25_search env query k hs = (Ok rs, hs') ->
  alpha hs' = alpha hs /\ Forall (fun r => unit_score (score r)) rs.
Proof.
  unfold _bm25_search. intros H. inv_M H.
  unfold get in Hc, Hc1. injection Hc as <- <-. injection Hc1 as <- <-.
  assert (Ha : alpha s0 = alpha hs).
  { destruct (_bm25 hs); [by apply mret_Ok in Hc0 as [_ ->]|].
    eapply _build_bm25_index_alpha, Hc0. }
  destruct (_bm25 s0) as [bm25|]; [|apply mret_Ok in H as [-> ->]; by split].
  inv_M H. apply lift_Ok in Hc as [Htop ->]. apply lift_Ok in H as [H ->].
  split; [exact Ha|].
  pose proof (normalize_scores_unit a) as Hn. rewrite Forall_forall in Hn.
  apply Forall_forall. intros r Hr.
  destruct (mapM_Ok_elem _ _ _ H r Hr) as ([idx s] & Hin & Hf).
  apply result_bind_Ok in Hf as (cid & _ & Hf).
  apply result_bind_Ok in Hf as (txt & _ & Hf).
  apply result_bind_Ok in Hf as (meta & _ & Hf).
  injection Hf as <-. simpl. apply Hn. eapply elem_of_zip_r, Hin.
Qed.

Lemma normalize_scores_length scores :
  length (_normalize_scores scores) = length scores.
Proof.
  destruct scores as [|s0 rest]; [reflexivity|]. unfold _normalize_scores.
  destruct (Qeq_bool _ _); [apply length_replicate | apply length_map].
Qed.

(** The vector result set carries the ids of the store's answer and the
    min-max normalised similarities [1 - distance]. *)
Lemma _vector_search_scores env query k hs vs hs' :
  _vector_search env query k hs = (Ok vs, hs') ->
  exists e qr,
    embed_query env query = Ok e /\
    collection_query env e k = Ok qr /\
    chunk_id <$> vs = q_ids qr /\
    score <$> vs =
      take (length (q_ids qr))
           (_normalize_scores (map (fun d => 1 - d) (q_distances qr))).
Proof.
  unfold _vector_search. intros H. inv_M H.
  apply lift_Ok in Hc as [He ->], Hc0 as [Hqr ->].
  exists a, a0. split; [exact He|]. split; [exact Hqr|].
  destruct (q_ids a0) as [|cid0 ids] eqn:Hids;
    [apply mret_Ok in H as [-> ->]; by split|].
  rewrite <- Hids in *. clear Hids cid0 ids.
  apply lift_Ok in H as [H _]. apply mapM_Ok_Forall2 in H.
  set (norm := _normalize_scores (map (fun d => 1 - d) (q_distances a0))) in *.
  replace (take (length (q_ids a0)) norm) with (take (length (q_ids a0)) (drop 0 norm))
    by (by rewrite drop_0).
  revert H. generalize 0%nat. generalize (q_ids a0). clear.
  intros ids. revert vs. induction ids as [|cid ids IH]; intros vs start H; simpl in H.
  - inversion H. by split.
  - inversion H as [|? r ? vs' Hf Hrest]; subst.
    apply result_bind_Ok in Hf as (doc & _ & Hf).
    apply result_bind_Ok in Hf as (s & Hs & Hf).
    apply result_bind_Ok in Hf as (meta & _ & Hf).
    injection Hf as <-. destruct (IH _ _ Hrest) as [Hids Hscores].
    unfold index in Hs. destruct (norm !! start) as [s'|] eqn:Hlook; [|discriminate].
    injection Hs as ->. rewrite !fmap_cons, Hids, Hscores. cbn [chunk_id score length].
    split; [reflexivity|]. by rewrite (drop_S _ _ _ Hlook).
Qed.

(** The lexical result set carries the min-max normalised raw scores of the
    top documents. *)
Lemma _bm25_search_scores env query k hs bs hs' :
  _bm25_search env query k hs = (Ok bs, hs') ->
  match _bm25 hs' with
  | None => bs = []
  | Some bm25 =>
      let raw_scores := get_scores env bm25 (str_split env (str_lower env query)) in
      let top_indices := slice_to (rev (argsort env raw_scores)) k in
      exists scores_for_top,
        mapM (index raw_scores) top_indices = Ok scores_for_top /\
        score <$> bs = _normalize_scores scores_for_top
  end.
Proof.
  unfold _bm25_search. intros H. inv_M H.
  unfold get in Hc, Hc1. injection Hc as <- <-. injection Hc1 as <- <-.
  destruct (_bm25 s0) as [bm25|] eqn:Hbm25.
  - inv_M H. apply lift_Ok in Hc as [Htop ->]. apply lift_Ok in H as [H ->].
    rewrite Hbm25. exists a. split; [exact Htop|].
    apply mapM_Ok_Forall2 in H.
    assert (Hlen : length (slice_to (rev (argsort env (get_scores env bm25
                     (str_split env (str_lower env query))))) k)
                   = length (_normalize_scores a)).
    { rewrite normalize_scores_length.
      apply mapM_Ok_Forall2 in Htop. eapply Forall2_length, Htop. }
    revert H Hlen. generalize (_normalize_scores a).
    generalize (slice_to (rev (argsort env (get_scores env bm25
                  (str_split env (str_lower env query))))) k).
    clear. intros idxs. revert bs.
    induction idxs as [|idx idxs IH]; intros bs norm H Hlen.
    + destruct norm; [|discriminate]. inversion H. reflexivity.
    + destruct norm as [|s norm]; [discriminate|]. simpl in H.
      inversion H as [|? r ? bs' Hf Hrest]; subst.
      apply result_bind_Ok in Hf as (cid & _ & Hf).
      apply result_bind_Ok in Hf as (txt & _ & Hf).
      apply result_bind_Ok in Hf as (meta & _ & Hf).
      injection Hf as <-. simpl. f_equal. apply IH; [exact Hrest|].
      simpl in Hlen. lia.
  - apply mret_Ok in H as [-> ->]. by rewrite Hbm25.
Qed.

Lemma search_inv env query k hs rs hs' :
  search env query k hs = (Ok rs, hs') ->
  exists vs bs,
    _vector_search env query (int_or k (RETRIEVAL_TOP_K env) * 3) hs = (Ok vs, hs) /\
    _bm25_search env query (int_or k (RETRIEVAL_TOP_K env) * 3) hs = (Ok bs, hs') /\
    rs = fuse (alpha hs') vs bs (int_or k (RETRIEVAL_TOP_K env)).
Proof.
  unfold search. intros H. inv_M H.
  pose proof (_vector_search_spec _ _ _ _ _ _ Hc) as [-> _].
  unfold get in Hc1. injection Hc1 as <- <-.
  apply mret_Ok in H as [-> ->]. eauto.
Qed.

(** C2. When [search] returns, its results are the first [k] of the sorted
    combined results built from the vector result set [vs] and the lexical
    result set [bs] of the two underlying searches, whose scores are the
    min-max normalised similarities and the min-max normalised raw lexical
    scores: there is one combined result per chunk id of the union of the
    two sets, and the score of the result for id [cid] is
    [alpha * v + (1 - alpha) * b], where [v] and [b] are the scores of [cid]
    in [vs] and in [bs], [0] for a set that does not contain [cid]. *)
Theorem fusion_scores (env : Env) (query : string) (k : option Z)
    (hs hs' : HybridSearch.t) (rs : list SearchResult) :
  search env query k hs = (Ok rs, hs') ->
  exists vs bs,
    let k' := int_or k (RETRIEVAL_TOP_K env) in
    let a := alpha hs in
    let combined := map (final_result a) (build_score_map vs bs) in
    _vector_search env query (k' * 3) hs = (Ok vs, hs) /\
    _bm25_search env query (k' * 3) hs = (Ok bs, hs') /\
    (exists e qr,
       embed_query env query = Ok e /\
       collection_query env e (k' * 3) = Ok qr /\
       chunk_id <$> vs = q_ids qr /\
       score <$> vs =
         take (length (q_ids qr))
              (_normalize_scores (map (fun d => 1 - d) (q_distances qr)))) /\
    match _bm25 hs' with
    | None => bs = []
    | Some bm25 =>
        let raw_scores := get_scores env bm25 (str_split env (str_lower env query)) in
        let top_indices := slice_to (rev (argsort env raw_scores)) (k' * 3) in
        exists scores_for_top,
          mapM (index raw_scores) top_indices = Ok scores_for_top /\
          score <$> bs = _normalize_scores scores_for_top
    end /\
    NoDup (chunk_id <$> combined) /\
    (forall cid, cid ∈ chunk_id <$> combined <->
                 cid ∈ chunk_id <$> vs \/ cid ∈ chunk_id <$> bs) /\
    (forall r, r ∈ combined ->
       score r = a * set_score vs (chunk_id r) + (1 - a) * set_score bs (chunk_id r)) /\
    (forall cid, cid ∉ chunk_id <$> vs -> set_score vs cid = 0) /\
    (forall cid, cid ∉ chunk_id <$> bs -> set_score bs cid = 0) /\
    (forall r, NoDup (chunk_id <$> vs) -> r ∈ vs -> set_score vs (chunk_id r) = score r) /\
    (forall r, NoDup (chunk_id <$> bs) -> r ∈ bs -> set_score bs (chunk_id r) = score r) /\
    rs = slice_to (sort_by_score_desc combined) k' /\
    rs ⊆ combined.
Proof.
  intros H. apply search_inv in H as (vs & bs & Hv & Hb & ->).
  pose proof (_bm25_search_spec _ _ _ _ _ _ Hb) as [Halpha _]. rewrite Halpha.
  exists vs, bs. intros k' a combined.
  destruct (build_score_map_ok vs bs) as (ND & Hkeys & Hval).
  split; [exact Hv|]. split; [exact Hb|].
  split; [exact (_vector_search_scores _ _ _ _ _ _ Hv)|].
  split; [exact (_bm25_search_scores _ _ _ _ _ _ Hb)|].
  unfold combined. rewrite final_result_ids.
  split; [exact ND|]. split; [exact Hkeys|].
  split; [intros r; apply combined_score|].
  split; [apply set_score_absent|]. split; [apply set_score_absent|].
  split; [intros r; apply set_score_elem|]. split; [intros r; apply set_score_elem|].
  split; [reflexivity | apply fuse_subseteq].
Qed.

Lemma fusion_scores_witness :
  let hs := HybridSearch.__init__ scenario_env in
  let out := search scenario_env "termination notice period" (Some 2%Z) hs in
  let rs := returned [] out in
  length rs = 2%nat /\
  exists vs bs,
    let a := alpha hs in
    let combined := map (final_result a) (build_score_map vs bs) in
    _vector_search scenario_env "termination notice period" (2 * 3) hs = (Ok vs, hs) /\
    _bm25_search scenario_env "termination notice period" (2 * 3) hs = (Ok bs, out.2) /\
    (forall r, r ∈ combined ->
       score r = a * set_score vs (chunk_id r) + (1 - a) * set_score bs (chunk_id r)) /\
    rs = slice_to (sort_by_score_desc combined) 2.
Proof.
  intros hs out rs. split; [vm_compute; reflexivity|].
  destruct (fusion_scores scenario_env "termination notice period" (Some 2%Z)
              hs out.2 rs)
    as (vs & bs & Hv & Hb & _ & _ & _ & _ & Hscore & _ & _ & _ & _ & Hrs & _).
  { vm_compute. reflexivity. }
  exists vs, bs. repeat split; assumption.
Defined.

(** C10. Whenever the fusion weight [alpha] lies in [[0, 1]], every result
    returned by [search] has a score in [[0, 1]]. *)
Theorem search_scores_in_unit_interval (env : Env) (query : string) (k : option Z)
    (hs hs' : HybridSearch.t) (rs : list SearchResult) :
  0 <= alpha hs <= 1 ->
  search env query k hs = (Ok rs, hs') ->
  Forall (fun r => 0 <= score r <= 1) rs.
Proof.
  intros Ha H. apply search_inv in H as (vs & bs & Hv & Hb & ->).
  apply _vector_search_spec in Hv as [_ Hvs].
  apply _bm25_search_spec in Hb as [Halpha Hbs].
  apply fuse_unit; [by rewrite Halpha | exact Hvs | exact Hbs].
Qed.

Lemma search_scores_in_unit_interval_witness :
  let hs := HybridSearch.__init__ scenario_env in
  let out := search scenario_env "termination notice period" (Some 1%Z) hs in
  out.1 = Ok (returned [] out) /\
  length (returned [] out) = 1%nat /\
  Forall (fun r => 0 <= score r <= 1) (returned [] out).
Proof.
  intros hs out.
  assert (Hout : out = (Ok (returned [] out), out.2)) by (vm_compute; reflexivity).
  split; [by rewrite Hout at 1|]. split; [vm_compute; reflexivity|].
  apply (search_scores_in_unit_interval scenario_env
           "termination notice period" (Some 1%Z) hs out.2 (returned [] out)).
  - split; discriminate.
  - exact Hout.
Defined.

End HybridSearchProps.

(** ** Merging the result sets of the query variants *)

Module MergeProps.
Import Retriever.
Local Open Scope Q_scope.

Lemma merge_result_ok rs m x : merged_ok rs m -> merged_ok (rs ++ [x]) (merge_result m x).
Proof.
  intros [Hmax Hdom]. unfold merge_result.
  assert (Hset : merged_ok rs m ->
    (forall old, dict_get m (chunk_id x) = Some old -> score old <= score x) ->
    merged_ok (rs ++ [x]) (dict_set m (chunk_id x) x)).
  { intros _ Hold. split.
    - intros cid r. rewrite dict_get_set.
      destruct (String.eqb cid (chunk_id x)) eqn:E.
      + apply String.eqb_eq in E as ->. intros [= <-].
        split; [reflexivity|]. split; [apply elem_of_app; right; left|].
        intros r' Hr' Hid. apply elem_of_app in Hr' as [Hr'|Hr'].
        * destruct (Hdom _ Hr') as [old Hget]. rewrite Hid in Hget.
          destruct (Hmax _ _ Hget) as (_ & _ & Hle).
          eapply Qle_trans; [apply (Hle r' Hr' Hid) | apply Hold, Hget].
        * apply list_elem_of_singleton in Hr' as ->. apply Qle_refl.
      + apply String.eqb_neq in E. intros Hget.
        destruct (Hmax _ _ Hget) as (Hid & Hin & Hle).
        split; [exact Hid|]. split; [apply elem_of_app; by left|].
        intros r' Hr' Hid'. apply elem_of_app in Hr' as [Hr'|Hr']; [by apply Hle|].
        apply list_elem_of_singleton in Hr' as ->. congruence.
    - intros r' Hr'. rewrite dict_get_set.
      destruct (String.eqb (chunk_id r') (chunk_id x)) eqn:E; [by eexists|].
      apply elem_of_app in Hr' as [Hr'|Hr']; [by apply Hdom|].
      apply list_elem_of_singleton in Hr' as ->. by rewrite String.eqb_refl in E. }
  destruct (dict_get m (chunk_id x)) as [old|] eqn:Hget.
  - destruct (Qle_bool (score x) (score old)) eqn:Hcmp; simpl.
    + apply Qle_bool_iff in Hcmp. split.
      * intros cid r Hr. destruct (Hmax _ _ Hr) as (Hid & Hin & Hle).
        split; [exact Hid|]. split; [apply elem_of_app; by left|].
        intros r' Hr' Hid'. apply elem_of_app in Hr' as [Hr'|Hr']; [by apply Hle|].
        apply list_elem_of_singleton in Hr' as ->.
        rewrite Hid' in Hget. rewrite Hget in Hr. by injection Hr as <-.
      * intros r' Hr'. apply elem_of_app in Hr' as [Hr'|Hr']; [by apply Hdom|].
        apply list_elem_of_singleton in Hr' as ->. by eexists.
    + apply Hset; [by split|]. intros old' [= <-].
      apply Qlt_le_weak, Qnot_le_lt. intros Hle.
      apply Qle_bool_iff in Hle. congruence.
  - apply Hset; [by split|]. discriminate.
Qed.

Lemma merge_loop_ok rs : merged_ok rs (fold_left merge_result rs []).
Proof.
  induction rs as [|x rs IH] using rev_ind.
  - split; [discriminate | intros r' Hr'; inversion Hr'].
  - rewrite fold_left_app. simpl. apply merge_result_ok, IH.
Qed.

Lemma search_all_inv env queries k : forall acc hs merged hs',
  search_all env queries k acc hs = (Ok merged, hs') ->
  exists rss, variant_results env queries k hs rss hs' /\
              merged = fold_left merge_result (concat rss) acc.
Proof.
  induction queries as [|q queries IH]; intros acc hs merged hs' H; simpl in H.
  - apply mret_Ok in H as [-> ->]. exists []. by split.
  - apply M_bind_Ok in H as (rs & hs1 & Hs & H).
    destruct (IH _ _ _ _ H) as (rss & Hv & ->).
    exists (rs :: rss). split.
    + simpl. eauto.
    + simpl. by rewrite fold_left_app.
Qed.

(** C3. The candidates merged from the query variants hold, for each chunk
    id, one of the results returned for that id whose score is at least the
    score of every result returned for that id by any variant, so its
    score is the maximum observed.  With [X] scored [0.9] by variant [A] and
    [0.2] by variant [B], the merged score of [X] is [0.9], in either
    order. *)
Theorem merge_keeps_max_score (env : Env) (queries : list string) (k : Z)
    (hs hs' : HybridSearch.t) (merged : list (string * SearchResult)) :
  (search_all env queries k [] hs = (Ok merged, hs') ->
   exists rss,
     variant_results env queries k hs rss hs' /\
     (forall r', r' ∈ concat rss -> is_Some (dict_get merged (chunk_id r'))) /\
     (forall cid r, dict_get merged cid = Some r ->
        chunk_id r = cid /\ r ∈ concat rss /\
        forall r', r' ∈ concat rss -> chunk_id r' = cid -> score r' <= score r)) /\
  (forall tx ty mx my,
     let a := mkSearchResult "X" tx (9 # 10) mx in
     let b := mkSearchResult "X" ty (2 # 10) my in
     fold_left merge_result (concat [[a]; [b]]) [] = [("X", a)] /\
     fold_left merge_result (concat [[b]; [a]]) [] = [("X", a)]).
Proof.
  split.
  - intros H. apply search_all_inv in H as (rss & Hv & ->).
    exists rss. split; [exact Hv|].
    destruct (merge_loop_ok (concat rss)) as [Hmax Hdom]. by split.
  - intros tx ty mx my. split; reflexivity.
Qed.

Lemma merge_keeps_max_score_witness :
  let hs := HybridSearch.__init__ scenario_env in
  let queries := ["termination notice period"; "trade secrets"] in
  let out := search_all scenario_env queries 1 [] hs in
  exists rss,
    variant_results scenario_env queries 1 hs rss out.2 /\
    (forall r', r' ∈ concat rss -> is_Some (dict_get (returned [] out) (chunk_id r'))) /\
    (forall cid r, dict_get (returned [] out) cid = Some r ->
       chunk_id r = cid /\ r ∈ concat rss /\
       forall r', r' ∈ concat rss -> chunk_id r' = cid -> score r' <= score r).
Proof.
  intros hs queries out.
  apply (proj1 (merge_keeps_max_score scenario_env queries 1 hs out.2
                  (returned [] out))).
  vm_compute. reflexivity.
Defined.

End MergeProps.

(** ** The reranker's fallback *)

Module RerankProps.
Import ReRanker.

Lemma rerank_fallback env self query results top_n_arg :
  results <> [] ->
  model_raises env self query results ->
  (rerank env query results top_n_arg self).1 =
  Ok (slice_to results (int_or top_n_arg (top_n self))).
Proof.
  intros Hne Hfail. destruct results as [|r0 results]; [congruence|].
  unfold rerank, model_raises, loaded_ranker in *.
  unfold mbind, M_bind, get, try_except, _get_ranker, mbind, M_bind, get, lift, put, mret, M_ret.
  destruct (_ranker self) as [ranker|].
  - destruct Hfail as [e ->]. reflexivity.
  - destruct (Ranker_new env (model_name self)) as [ranker|e]; [|reflexivity].
    destruct Hfail as [e ->]. reflexivity.
Qed.

(** [rerank] never raises. *)
Lemma rerank_returns env self query results top_n_arg :
  exists rs self', rerank env query results top_n_arg self = (Ok rs, self').
Proof.
  unfold rerank.
  unfold mbind, M_bind, get, try_except, _get_ranker, mbind, M_bind, get, lift, put, mret, M_ret.
  destruct results as [|r0 results]; [eauto|].
  destruct (_ranker self) as [ranker|].
  - destruct (Ranker_rerank env ranker query _); eauto.
  - destruct (Ranker_new env (model_name self)) as [ranker|e]; [|eauto].
    destruct (Ranker_rerank env ranker query _); eauto.
Qed.

(** C4, as amended.  For a non-empty candidate list, when the relevance
    model raises, [rerank] raises nothing and returns [results[:top_n]] for
    every [top_n] other than [0]; for a [top_n] of [0] or an omitted [top_n]
    it returns [results[:self.top_n]], the configured default taking the
    place of [top_n]. *)
Theorem rerank_fallback_on_failure (env : Env) (self : t) (query : string)
    (results : list SearchResult) :
  results <> [] ->
  model_raises env self query results ->
  (forall n, n <> 0%Z ->
     (rerank env query results (Some n) self).1 = Ok (slice_to results n)) /\
  (rerank env query results (Some 0%Z) self).1 = Ok (slice_to results (top_n self)) /\
  (rerank env query results None self).1 = Ok (slice_to results (top_n self)).
Proof.
  intros Hne Hfail. split; [|split].
  - intros n Hn. rewrite rerank_fallback by assumption.
    simpl. destruct (Z.eqb_spec n 0); [contradiction | reflexivity].
  - rewrite rerank_fallback by assumption. reflexivity.
  - rewrite rerank_fallback by assumption. reflexivity.
Qed.

Lemma rerank_fallback_on_failure_witness :
  let env := Demo.env Demo.corpus Demo.chat_ok Demo.ranker_down in
  (rerank env "q" [Demo.sr "c1" 1; Demo.sr "c2" (1 # 2)] (Some 1%Z) (__init__ env)).1
  = Ok [Demo.sr "c1" 1].
Proof.
  intros env.
  refine (proj1 (rerank_fallback_on_failure env (__init__ env) "q"
                   [Demo.sr "c1" 1; Demo.sr "c2" (1 # 2)] _ _) 1%Z _).
  - discriminate.
  - exact I.
  - lia.
Defined.

(** The claim as stated fails for [top_n = 0]: the configured default takes
    its place, so the fallback returns the first [RERANKER_TOP_N]
    candidates rather than none. *)
Lemma rerank_fallback_zero_counterexample :
  ~ (forall (env : Env) (self : t) (query : string) (results : list SearchResult) (n : Z),
       results <> [] ->
       model_raises env self query results ->
       (rerank env query results (Some n) self).1 = Ok (slice_to results n)).
Proof.
  intros H.
  specialize (H (Demo.env Demo.corpus Demo.chat_ok Demo.ranker_down)
                (__init__ (Demo.env Demo.corpus Demo.chat_ok Demo.ranker_down))
                "q" [Demo.sr "c1" 1] 0%Z).
  discriminate H; [discriminate | exact I].
Qed.

End RerankProps.

(** ** Query expansion *)

Module ExpandProps.
Import QueryExpander.

(** C5, as amended.  For every query and every combination of the flags,
    when each enabled expansion step returns normally (in particular when
    both steps are disabled), [expand] returns a list of queries whose first
    element is the original query. *)
Theorem expand_keeps_original_query (env : Env) (self : t) (query : string)
    (use_hyde use_multi : bool) :
  (use_hyde = true -> exists h, hyde env self query = Ok h) ->
  (use_multi = true -> exists qs, multi_query env self query = Ok qs) ->
  exists rest, expand env self query use_hyde use_multi = Ok (query :: rest).
Proof.
  intros Hh Hm. unfold expand.
  destruct use_hyde, use_multi.
  - destruct (Hh eq_refl) as [h Eh], (Hm eq_refl) as [qs Em].
    rewrite Eh. simpl. rewrite Em. simpl. eauto.
  - destruct (Hh eq_refl) as [h Eh]. rewrite Eh. simpl. eauto.
  - destruct (Hm eq_refl) as [qs Em]. simpl. rewrite Em. simpl. eauto.
  - simpl. eauto.
Qed.

Lemma expand_keeps_original_query_witness :
  let env := Demo.env Demo.corpus Demo.chat_ok Demo.ranker_ok in
  (exists rest, expand env (__init__ env) "notice period" true true
                = Ok ("notice period" :: rest)) /\
  (exists rest, expand env (__init__ env) "notice period" false false
                = Ok ("notice period" :: rest)).
Proof.
  intros env. split.
  - apply (expand_keeps_original_query env (__init__ env) "notice period" true true).
    + intros _. eexists. vm_compute. reflexivity.
    + intros _. eexists. vm_compute. reflexivity.
  - apply (expand_keeps_original_query env (__init__ env) "notice period" false false).
    + discriminate.
    + discriminate.
Defined.

(** The claim as stated fails when an enabled step raises: [expand] has no
    handler, so the error reaches the caller and no list is returned. *)
Lemma expand_failure_counterexample :
  ~ (forall (env : Env) (self : t) (query : string) (use_hyde use_multi : bool),
       exists rest, expand env self query use_hyde use_multi = Ok (query :: rest)).
Proof.
  intros H.
  destruct (H (Demo.env Demo.corpus Demo.chat_down Demo.ranker_ok)
              (__init__ (Demo.env Demo.corpus Demo.chat_down Demo.ranker_ok))
              "notice period" true false) as [rest Hrest].
  discriminate Hrest.
Qed.

End ExpandProps.

(** ** Cross-language translation in [retrieve] *)

Module TranslationProps.
Import Retriever.

Lemma retrieve_unfold env query k use_hyde use_multi_query self :
  retrieve env query k use_hyde use_multi_query self =
  match translate_step env self query with
  | Ok search_query =>
      retrieve_from env query search_query (int_or k (RETRIEVAL_TOP_K env))
        use_hyde use_multi_query self
  | Raise e => (Raise e, self)
  end.
Proof.
  unfold retrieve, mbind, M_bind, get, lift.
  destruct (translate_step env self query); reflexivity.
Qed.

Lemma translate_step_no_doc_language env self query :
  _detect_doc_language env self = None -> translate_step env self query = Ok query.
Proof.
  intros H. unfold translate_step. rewrite H.
  destruct (use_query_translation self), (query_expander self); try reflexivity.
  destruct (_detect_query_language env query) as [lang|]; [|reflexivity].
  destruct (negb (String.eqb lang "")); reflexivity.
Qed.

(** C6, as amended.  An error raised during language detection never aborts
    [retrieve]: step 0 then yields the original query, and [retrieve]
    continues with steps 1 to 4 on the original, untranslated query. *)
Theorem detection_error_keeps_original_query (env : Env) (self : t) (query : string)
    (k : option Z) (use_hyde use_multi_query : bool) (e : exn) :
  _detect_doc_language_body env self = Raise e ->
  translate_step env self query = Ok query /\
  retrieve env query k use_hyde use_multi_query self =
  retrieve_from env query query (int_or k (RETRIEVAL_TOP_K env))
    use_hyde use_multi_query self.
Proof.
  intros Hraise.
  assert (Hstep : translate_step env self query = Ok query).
  { apply translate_step_no_doc_language. unfold _detect_doc_language.
    rewrite Hraise. reflexivity. }
  split; [exact Hstep|]. rewrite retrieve_unfold, Hstep. reflexivity.
Qed.

Lemma detection_error_keeps_original_query_witness :
  let env := Demo.env Demo.corpus Demo.chat_down Demo.ranker_ok in
  let self := __init__ env true false true in
  translate_step env self Demo.cyrillic_query = Ok Demo.cyrillic_query /\
  retrieve env Demo.cyrillic_query (Some 1%Z) false false self =
  retrieve_from env Demo.cyrillic_query Demo.cyrillic_query
    (int_or (Some 1%Z) (RETRIEVAL_TOP_K env)) false false self.
Proof.
  intros env self.
  apply (detection_error_keeps_original_query env self Demo.cyrillic_query
           (Some 1%Z) false false (Exception "APIConnectionError")).
  vm_compute. reflexivity.
Defined.

(** The claim as stated fails for an error raised by the translation request
    itself: nothing in [retrieve] handles it, and [retrieve] raises. *)
Lemma translation_error_counterexample :
  ~ (forall (env : Env) (self : t) (query : string) (k : option Z)
            (use_hyde use_multi_query : bool),
       use_query_translation self = true ->
       (exists e, _detect_doc_language_body env self = Raise e) \/
       (exists e, translate_step env self query = Raise e) ->
       retrieve env query k use_hyde use_multi_query self =
       retrieve_from env query query (int_or k (RETRIEVAL_TOP_K env))
         use_hyde use_multi_query self).
Proof.
  intros H.
  set (env := Demo.env Demo.corpus Demo.chat_detect_only Demo.ranker_ok).
  specialize (H env (__init__ env true false true) Demo.cyrillic_query
                (Some 1%Z) false false eq_refl).
  assert (Hraise : exists e, translate_step env (__init__ env true false true)
                               Demo.cyrillic_query = Raise e).
  { eexists. vm_compute. reflexivity. }
  specialize (H (or_intror Hraise)).
  apply (f_equal fst) in H. vm_compute in H. discriminate H.
Qed.

End TranslationProps.

(** ** Reranking in [retrieve] *)

Module PipelineProps.
Import Retriever.

Lemma rerank_success env rr query results top_n_arg ranker reranked :
  results <> [] ->
  loaded_ranker env rr = Ok ranker ->
  Ranker_rerank env ranker query (map ReRanker.passage_of results) = Ok reranked ->
  (ReRanker.rerank env query results top_n_arg rr).1 =
  Ok (map ReRanker.result_of (slice_to reranked (int_or top_n_arg (ReRanker.top_n rr)))).
Proof.
  intros Hne Hload Hrank. destruct results as [|r0 results]; [congruence|].
  unfold loaded_ranker in Hload. unfold ReRanker.rerank.
  unfold mbind, M_bind, get, try_except, ReRanker._get_ranker, mbind, M_bind,
    get, lift, put, mret, M_ret.
  destruct (ReRanker._ranker rr) as [ranker'|].
  - injection Hload as ->. rewrite Hrank. reflexivity.
  - rewrite Hload, Hrank. reflexivity.
Qed.

Lemma rerank_length env rr query results n rs rr' :
  (0 < n)%Z ->
  ReRanker.rerank env query results (Some n) rr = (Ok rs, rr') ->
  (Z.of_nat (length rs) <= n)%Z.
Proof.
  intros Hn. unfold ReRanker.rerank.
  unfold mbind, M_bind, get, try_except, ReRanker._get_ranker, mbind, M_bind,
    get, lift, put, mret, M_ret.
  assert (Hk : int_or (Some n) (ReRanker.top_n rr) = n).
  { simpl. destruct (Z.eqb_spec n 0); [lia | reflexivity]. }
  rewrite Hk.
  destruct results as [|r0 results]; [intros [= <- _]; simpl; lia|].
  destruct (ReRanker._ranker rr) as [ranker|].
  - destruct (Ranker_rerank env ranker query _); intros [= <- _].
    + rewrite length_map. apply slice_to_length. lia.
    + apply slice_to_length. lia.
  - destruct (Ranker_new env (ReRanker.model_name rr)) as [ranker|e].
    + destruct (Ranker_rerank env ranker query _); intros [= <- _].
      * rewrite length_map. apply slice_to_length. lia.
      * apply slice_to_length. lia.
    + intros [= <- _]. apply slice_to_length. lia.
Qed.

Lemma rerank_step_spec env query candidates k self :
  exists rs self', rerank_step env query candidates k self = (Ok rs, self') /\
    match reranker self, candidates with
    | Some rr, _ :: _ => (ReRanker.rerank env query candidates (Some k) rr).1 = Ok rs
    | _, _ => rs = slice_to candidates k
    end.
Proof.
  unfold rerank_step, mbind, M_bind, get.
  destruct (reranker self) as [rr|]; [|by eexists _, _].
  destruct candidates as [|c cs]; [by eexists _, _|].
  destruct (RerankProps.rerank_returns env rr query (c :: cs) (Some k)) as (rs & rr' & H).
  unfold zoom. rewrite H. eexists _, _. split; reflexivity.
Qed.

Lemma retrieve_from_spec env query search_query k use_hyde use_multi_query self
    queries merged hs' :
  expand_step env self search_query use_hyde use_multi_query = Ok queries ->
  search_all env queries k [] (hybrid_search self) = (Ok merged, hs') ->
  exists rs self',
    rerank_step env query (sort_by_score_desc (map snd merged)) k
      (set_hybrid_search hs' self) = (Ok rs, self') /\
    retrieve_from env query search_query k use_hyde use_multi_query self =
    (Ok {| results := rs;
           expanded_queries := queries;
           latency_ms := ((perf_counter_end env - perf_counter_start env) * 1000)%Q;
           total_candidates := length (sort_by_score_desc (map snd merged));
           parent_context := _get_parent_context env rs |}, self').
Proof.
  intros Hexp Hsearch.
  destruct (rerank_step_spec env query (sort_by_score_desc (map snd merged)) k
              (set_hybrid_search hs' self)) as (rs & self' & Hstep & _).
  exists rs, self'. split; [exact Hstep|].
  unfold retrieve_from, mbind, M_bind, get, lift, zoom.
  rewrite Hexp, Hsearch, Hstep. reflexivity.
Qed.

(** C7, as amended.  [top_k] is the value that [retrieve] uses for [k]:
    [k] itself when it is given and not [0], and [RETRIEVAL_TOP_K] when [k]
    is [0] or omitted.  Once the candidates have been merged and sorted,
    [retrieve] returns what [rerank] yields for the caller's original
    [query] (not the translated [search_query], nor a variant) on these
    candidates with [top_n = top_k], at most [top_k] results, when a
    reranker is configured and there is a candidate: the items that the
    relevance model returned for [query], cut to [top_k], when the model
    answers; otherwise it returns the first [top_k] candidates of the fused
    ranking. *)
Theorem rerank_uses_original_query (env : Env) (self : t) (query : string)
    (k : option Z) (top_k : Z) (use_hyde use_multi_query : bool)
    (search_query : string) (queries : list string)
    (merged : list (string * SearchResult)) (hs' : HybridSearch.t) :
  let candidates := sort_by_score_desc (map snd merged) in
  (k = Some top_k /\ top_k <> 0%Z) \/
  ((k = Some 0%Z \/ k = None) /\ top_k = RETRIEVAL_TOP_K env) ->
  translate_step env self query = Ok search_query ->
  expand_step env self search_query use_hyde use_multi_query = Ok queries ->
  search_all env queries top_k [] (hybrid_search self) = (Ok merged, hs') ->
  exists r self',
    retrieve env query k use_hyde use_multi_query self = (Ok r, self') /\
    total_candidates r = length candidates /\
    match reranker self, candidates with
    | Some rr, _ :: _ =>
        (ReRanker.rerank env query candidates (Some top_k) rr).1 = Ok (results r) /\
        ((0 < top_k)%Z -> (Z.of_nat (length (results r)) <= top_k)%Z) /\
        (forall ranker reranked,
           top_k <> 0%Z ->
           loaded_ranker env rr = Ok ranker ->
           Ranker_rerank env ranker query (map ReRanker.passage_of candidates)
             = Ok reranked ->
           results r = map ReRanker.result_of (slice_to reranked top_k))
    | _, _ => results r = slice_to candidates top_k
    end.
Proof.
  intros candidates Hk Htr Hexp Hsearch.
  assert (Hk' : int_or k (RETRIEVAL_TOP_K env) = top_k).
  { destruct Hk as [[-> Hn] | [[-> | ->] ->]]; simpl; [|reflexivity..].
    destruct (Z.eqb_spec top_k 0); [contradiction | reflexivity]. }
  destruct (retrieve_from_spec env query search_query top_k use_hyde use_multi_query
              self queries merged hs' Hexp Hsearch) as (rs & self' & Hstep & Hret).
  eexists _, self'. split.
  { rewrite TranslationProps.retrieve_unfold, Htr, Hk'. exact Hret. }
  split; [reflexivity|]. simpl.
  destruct (rerank_step_spec env query candidates top_k (set_hybrid_search hs' self))
    as (rs' & self'' & Hstep' & Hcase).
  fold candidates in Hstep. rewrite Hstep in Hstep'. injection Hstep' as <- <-.
  change (reranker (set_hybrid_search hs' self)) with (reranker self) in Hcase.
  destruct (reranker self) as [rr|]; [|exact Hcase].
  destruct candidates as [|c cs] eqn:Hcands; [exact Hcase|].
  split; [exact Hcase|]. split.
  - intros Hpos.
    destruct (RerankProps.rerank_returns env rr query (c :: cs) (Some top_k))
      as (rs0 & rr' & Hrr).
    rewrite Hrr in Hcase. injection Hcase as ->.
    eapply rerank_length; [exact Hpos | exact Hrr].
  - intros ranker reranked Hne Hload Hrank.
    rewrite (rerank_success env rr query (c :: cs) (Some top_k) ranker reranked)
      in Hcase by (done || discriminate).
    injection Hcase as <-. simpl.
    destruct (Z.eqb_spec top_k 0); [contradiction | reflexivity].
Qed.

Lemma rerank_uses_original_query_witness :
  let self := __init__ scenario_env true false true in
  let query := Demo.cyrillic_query in
  let out := search_all scenario_env ["English"] 1 [] (hybrid_search self) in
  let candidates := sort_by_score_desc (map snd (returned [] out)) in
  translate_step scenario_env self query = Ok "English" /\
  exists r self',
    retrieve scenario_env query (Some 1%Z) false false self = (Ok r, self') /\
    total_candidates r = length candidates /\
    match reranker self, candidates with
    | Some rr, _ :: _ =>
        (ReRanker.rerank scenario_env query candidates (Some 1%Z) rr).1 = Ok (results r) /\
        ((0 < 1)%Z -> (Z.of_nat (length (results r)) <= 1)%Z) /\
        (forall ranker reranked,
           1%Z <> 0%Z ->
           loaded_ranker scenario_env rr = Ok ranker ->
           Ranker_rerank scenario_env ranker query (map ReRanker.passage_of candidates)
             = Ok reranked ->
           results r = map ReRanker.result_of (slice_to reranked 1))
    | _, _ => results r = slice_to candidates 1
    end.
Proof.
  intros self query out candidates.
  split; [vm_compute; reflexivity|].
  apply (rerank_uses_original_query scenario_env self query (Some 1%Z) 1%Z
           false false "English" ["English"] (returned [] out) out.2).
  - left. split; [reflexivity | lia].
  - vm_compute. reflexivity.
  - vm_compute. reflexivity.
  - vm_compute. reflexivity.
Defined.

(** The claim as stated fails for [k = 0]: [RETRIEVAL_TOP_K] takes its place,
    so [retrieve] returns the first [RETRIEVAL_TOP_K] candidates rather than
    none of them. *)
Lemma truncation_zero_counterexample :
  ~ (forall (env : Env) (self self' : t) (query : string) (n : Z)
            (use_hyde use_multi_query : bool) (r : RetrievalResult),
       (0 <= n)%Z ->
       reranker self = None ->
       retrieve env query (Some n) use_hyde use_multi_query self = (Ok r, self') ->
       (Z.of_nat (length (results r)) <= n)%Z).
Proof.
  intros H.
  set (self := __init__ scenario_env false false false).
  set (out := retrieve scenario_env "notice" (Some 0%Z) false false self).
  specialize (H scenario_env self out.2 "notice" 0%Z false false
                (returned (mkRetrievalResult [] [] 0 0 ∅) out)).
  assert (Hlen : length (results (returned (mkRetrievalResult [] [] 0 0 ∅) out)) = 2)
    by (vm_compute; reflexivity).
  rewrite Hlen in H. cut (2 <= 0)%Z; [lia|].
  apply H; [lia | reflexivity | vm_compute; reflexivity].
Qed.

End PipelineProps.

(** ** Parent/child chunking *)

Module ChunkingProps.
Import Chunking.

Lemma add_child_linked env document page pid a child_text :
  (exists p, p ∈ acc_parents a /\ c_chunk_id p = pid) ->
  linked a ->
  linked (add_child env document page pid a child_text) /\
  acc_parents (add_child env document page pid a child_text) = acc_parents a.
Proof.
  intros (p & Hp & Hpid) [Hc Hp']. split; [|reflexivity]. split; simpl.
  - intros c Hin. apply elem_of_app in Hin as [Hin|Hin]; [by apply Hc|].
    apply list_elem_of_singleton in Hin as ->. simpl. exists p. by rewrite Hpid.
  - exact Hp'.
Qed.

Lemma add_children_linked env document page pid child_texts : forall a,
  (exists p, p ∈ acc_parents a /\ c_chunk_id p = pid) ->
  linked a ->
  linked (fold_left (add_child env document page pid) child_texts a).
Proof.
  induction child_texts as [|child_text child_texts IH]; intros a Hpid Hl; [exact Hl|].
  simpl. destruct (add_child_linked env document page pid a child_text Hpid Hl)
    as [Hl' Hparents].
  apply IH; [|exact Hl']. rewrite Hparents. exact Hpid.
Qed.

Lemma add_parent_linked env document page a parent_text :
  linked a -> linked (add_parent env document page a parent_text).
Proof.
  intros [Hc Hp]. unfold add_parent. apply add_children_linked; simpl.
  - eexists. split; [apply elem_of_app; right; left | reflexivity].
  - split; simpl.
    + intros c Hin. destruct (Hc c Hin) as (p & Hin' & Hid).
      exists p. split; [apply elem_of_app; by left | exact Hid].
    + intros p Hin. apply elem_of_app in Hin as [Hin|Hin]; [by apply Hp|].
      by apply list_elem_of_singleton in Hin as ->.
Qed.

Lemma add_page_linked env document a page :
  linked a -> linked (add_page env document a page).
Proof.
  unfold add_page. generalize (split_text env (CHUNK_SIZE env * 3) (CHUNK_OVERLAP env * 2)
                                 separators (page_text page)).
  intros parent_texts. revert a.
  induction parent_texts as [|parent_text parent_texts IH]; intros a Hl; [exact Hl|].
  simpl. apply IH, add_parent_linked, Hl.
Qed.

Lemma pages_linked env document ps : forall a,
  linked a -> linked (fold_left (add_page env document) ps a).
Proof.
  induction ps as [|page ps IH]; intros a Hl; [exact Hl|].
  simpl. apply IH, add_page_linked, Hl.
Qed.

(** C8. In every chunked document produced by [chunk_document], the
    [parent_id] of each child chunk is the [chunk_id] of one of the parent
    chunks of that document, and each parent chunk has no [parent_id]. *)
Theorem chunk_document_referential_integrity (env : Env) (document : LoadedDocument) :
  let chunked := chunk_document env document in
  (forall c, c ∈ child_chunks chunked ->
     exists p, p ∈ parent_chunks chunked /\ parent_id c = Some (c_chunk_id p)) /\
  (forall p, p ∈ parent_chunks chunked -> parent_id p = None).
Proof.
  apply (pages_linked env document (pages document) (mkAcc [] [] 0)).
  split; intros x Hx; inversion Hx.
Qed.

Lemma chunk_document_referential_integrity_witness :
  let env := Demo.env Demo.corpus Demo.chat_ok Demo.ranker_ok in
  let document :=
    mkLoadedDocument [mkDocumentPage "Either party may terminate." 1 ∅] "test.pdf" "pdf" 1 in
  let chunked := chunk_document env document in
  length (child_chunks chunked) = 2 /\
  Forall (fun c => exists p, p ∈ parent_chunks chunked /\
                             parent_id c = Some (c_chunk_id p)) (child_chunks chunked).
Proof.
  intros env document chunked. split; [reflexivity|].
  apply Forall_forall. intros c Hc.
  exact (proj1 (chunk_document_referential_integrity env document) c Hc).
Defined.

End ChunkingProps.

(** ** Retrieval over an empty corpus *)

Module EmptyCorpusProps.
Import Retriever.

Lemma search_empty env query k hs :
  empty_corpus env (int_or k (RETRIEVAL_TOP_K env) * 3) ->
  (exists e, embed_query env query = Ok e) ->
  HybridSearch._bm25 hs = None ->
  HybridSearch.search env query k hs = (Ok [], hs).
Proof.
  intros ((all_docs & Hget & Hdocs) & Hquery & _) [e He] Hbm25.
  destruct (Hquery e) as (qr & Hqr & Hids).
  unfold HybridSearch.search, HybridSearch._vector_search, HybridSearch._bm25_search,
    HybridSearch._build_bm25_index.
  unfold mbind, M_bind, get, lift, put, mret, M_ret.
  rewrite He, Hqr, Hids, Hbm25, Hget, Hdocs, Hbm25.
  unfold HybridSearch.fuse. simpl. by rewrite slice_to_nil.
Qed.

Lemma search_all_empty env queries k acc hs :
  empty_corpus env (int_or (Some (k * 2)%Z) (RETRIEVAL_TOP_K env) * 3) ->
  Forall (fun q => exists e, embed_query env q = Ok e) queries ->
  HybridSearch._bm25 hs = None ->
  search_all env queries k acc hs = (Ok acc, hs).
Proof.
  intros Hempty Hembed Hbm25.
  induction Hembed as [|q queries Hq _ IH]; [reflexivity|].
  simpl. unfold mbind, M_bind. rewrite search_empty by assumption. exact IH.
Qed.

Lemma translate_step_empty env self query n :
  empty_corpus env n -> translate_step env self query = Ok query.
Proof.
  intros (_ & _ & Hpeek). apply TranslationProps.translate_step_no_doc_language.
  unfold _detect_doc_language, _detect_doc_language_body. rewrite Hpeek. reflexivity.
Qed.

(** C9, as amended.  Over an empty stored corpus, with no lexical index
    cached from an earlier search, when query expansion returns and the
    embedding model answers for each query variant, [retrieve] raises
    nothing: it returns a result with no results, [total_candidates = 0]
    and an empty [parent_context], and leaves the retriever as it was. *)
Theorem retrieve_empty_corpus (env : Env) (self : t) (query : string) (k : option Z)
    (use_hyde use_multi_query : bool) (queries : list string) :
  empty_corpus env (fetch_k env k) ->
  HybridSearch._bm25 (hybrid_search self) = None ->
  expand_step env self query use_hyde use_multi_query = Ok queries ->
  Forall (fun q => exists e, embed_query env q = Ok e) queries ->
  exists r,
    retrieve env query k use_hyde use_multi_query self = (Ok r, self) /\
    results r = [] /\ total_candidates r = 0 /\ parent_context r = ∅ /\
    expanded_queries r = queries.
Proof.
  intros Hempty Hbm25 Hexp Hembed.
  rewrite TranslationProps.retrieve_unfold,
    (translate_step_empty env self query _ Hempty).
  unfold retrieve_from, mbind, M_bind, get, lift, zoom.
  rewrite Hexp, search_all_empty by assumption.
  assert (Hself : set_hybrid_search (hybrid_search self) self = self)
    by (destruct self; reflexivity).
  rewrite Hself. unfold rerank_step, mbind, M_bind, get. simpl.
  destruct (reranker self); rewrite slice_to_nil; eexists; (split; [reflexivity|]); done.
Qed.

Lemma retrieve_empty_corpus_witness :
  let env := empty_store_env in
  let self := __init__ env true true true in
  fetch_k env (Some 3%Z) = 18%Z /\
  collection_query env [] 0 = Raise (Exception "ValueError") /\
  exists r,
    retrieve env Demo.cyrillic_query (Some 3%Z) true true self = (Ok r, self) /\
    results r = [] /\ total_candidates r = 0 /\ parent_context r = ∅ /\
    expanded_queries r = [Demo.cyrillic_query; "English"; "English"].
Proof.
  intros env self.
  split; [reflexivity|]. split; [reflexivity|].
  apply (retrieve_empty_corpus env self Demo.cyrillic_query (Some 3%Z) true true).
  - split; [|split].
    + exists Demo.no_corpus. split; reflexivity.
    + intros e. eexists. split; reflexivity.
    + reflexivity.
  - reflexivity.
  - vm_compute. reflexivity.
  - repeat constructor; eexists; reflexivity.
Defined.

(** The claim as stated fails in two ways over a store all of whose reads
    report no document.  [retrieve] raises when a requested expansion
    raises; and it returns the documents of a lexical index that was built
    while the store still held them. *)
Lemma retrieve_empty_corpus_counterexample :
  ~ (forall (env : Env) (self : t) (query : string) (k : option Z)
            (use_hyde use_multi_query : bool),
       (forall n, empty_corpus env n) ->
       exists r self', retrieve env query k use_hyde use_multi_query self = (Ok r, self')) /\
  ~ (forall (env : Env) (self self' : t) (query : string) (k : option Z)
            (use_hyde use_multi_query : bool) (r : RetrievalResult),
       (forall n, empty_corpus env n) ->
       retrieve env query k use_hyde use_multi_query self = (Ok r, self') ->
       results r = [] /\ total_candidates r = 0).
Proof.
  assert (Hempty : forall chat n,
            empty_corpus (Demo.env Demo.no_corpus chat Demo.ranker_ok) n).
  { intros chat n. split; [|split].
    - exists Demo.no_corpus. split; reflexivity.
    - intros e. eexists. split; reflexivity.
    - reflexivity. }
  split; intros H.
  - set (env := Demo.env Demo.no_corpus Demo.chat_down Demo.ranker_ok).
    destruct (H env (__init__ env false true false) "notice period" (Some 3%Z)
                true false (Hempty _)) as (r & self' & Hr).
    apply (f_equal fst) in Hr. vm_compute in Hr. discriminate Hr.
  - set (env := Demo.env Demo.no_corpus Demo.chat_ok Demo.ranker_ok).
    set (hs := (HybridSearch.search scenario_env "notice period" None
                  (HybridSearch.__init__ scenario_env)).2).
    set (self := set_hybrid_search hs (__init__ env false false false)).
    set (out := retrieve env "notice period" (Some 3%Z) false false self).
    destruct (H env self out.2 "notice period" (Some 3%Z) false false
                (returned (mkRetrievalResult [] [] 0 0 ∅) out) (Hempty _))
      as [_ Htotal]; [vm_compute; reflexivity|].
    vm_compute in Htotal. discriminate Htotal.
Qed.

End EmptyCorpusProps.

(** * Properties of the further code *)

(** ** More on score normalisation *)

Module NormalizeMoreProps.
Import HybridSearch NormalizeProps.
Local Open Scope Q_scope.

Lemma normalize_lookup_spread s0 rest i s n :
  arr_min s0 rest < arr_max s0 rest ->
  (s0 :: rest) !! i = Some s ->
  _normalize_scores (s0 :: rest) !! i = Some n ->
  n = (s - arr_min s0 rest) / (arr_max s0 rest - arr_min s0 rest).
Proof.
  intros Hlt Hs Hn. rewrite normalize_spread in Hn by exact Hlt.
  rewrite list_lookup_fmap, Hs in Hn. by injection Hn as <-.
Qed.

Lemma normalize_lookup_degenerate s0 rest i n :
  arr_max s0 rest == arr_min s0 rest ->
  _normalize_scores (s0 :: rest) !! i = Some n ->
  n = 1.
Proof.
  intros Heq Hn. rewrite normalize_degenerate in Hn by exact Heq.
  apply lookup_replicate in Hn as [-> _]. reflexivity.
Qed.

Lemma arr_min_le_max s0 rest : arr_min s0 rest <= arr_max s0 rest.
Proof.
  eapply Qle_trans; [apply arr_min_le_init | apply arr_max_ge_init].
Qed.

(** X1. Normalisation keeps the number of scores and their order: a score
    that is no greater than another is normalised to a score that is no
    greater. *)
Theorem normalize_scores_monotone (scores : list Q) (i j : nat) (si sj ni nj : Q) :
  length (_normalize_scores scores) = length scores /\
  (scores !! i = Some si -> scores !! j = Some sj ->
   _normalize_scores scores !! i = Some ni ->
   _normalize_scores scores !! j = Some nj ->
   si <= sj -> ni <= nj).
Proof.
  split; [apply HybridSearchProps.normalize_scores_length|].
  intros Hi Hj Hni Hnj Hle. destruct scores as [|s0 rest]; [discriminate|].
  destruct (Qlt_le_dec (arr_min s0 rest) (arr_max s0 rest)) as [Hlt|Hge].
  - rewrite (normalize_lookup_spread _ _ _ _ _ Hlt Hi Hni).
    rewrite (normalize_lookup_spread _ _ _ _ _ Hlt Hj Hnj).
    assert (Hpos : 0 < arr_max s0 rest - arr_min s0 rest) by lra.
    apply Qle_shift_div_l; [exact Hpos|].
    unfold Qdiv. rewrite <- Qmult_assoc, (Qmult_comm (/ _)), Qmult_inv_r by lra. lra.
  - assert (Heq : arr_max s0 rest == arr_min s0 rest).
    { apply Qle_antisym; [exact Hge | apply arr_min_le_max]. }
    rewrite (normalize_lookup_degenerate _ _ _ _ Heq Hni).
    rewrite (normalize_lookup_degenerate _ _ _ _ Heq Hnj). apply Qle_refl.
Qed.

Lemma normalize_scores_monotone_witness :
  _normalize_scores [3 # 1; 1 # 1; 2 # 1] !! 1%nat = Some ((1 - 1) / (3 - 1)) /\
  (1 - 1) / (3 - 1) <= (2 - 1) / (3 - 1).
Proof.
  split; [reflexivity|].
  refine (proj2 (normalize_scores_monotone [3 # 1; 1 # 1; 2 # 1] 1 2 1 2 _ _) _ _ _ _ _);
    try reflexivity.
  discriminate.
Defined.

Lemma is_min_replicate n x : is_min x (replicate (S n) x).
Proof.
  split; [left; reflexivity|]. apply Forall_replicate, Qle_refl.
Qed.

Lemma is_max_replicate n x : is_max x (replicate (S n) x).
Proof.
  split; [left; reflexivity|]. apply Forall_replicate, Qle_refl.
Qed.

(** X2. Normalising twice gives the same scores as normalising once. *)
Theorem normalize_scores_idempotent (scores : list Q) :
  Forall2 Qeq (_normalize_scores (_normalize_scores scores)) (_normalize_scores scores).
Proof.
  destruct scores as [|s0 rest]; [constructor|].
  destruct (Qlt_le_dec (arr_min s0 rest) (arr_max s0 rest)) as [Hlt|Hge].
  - rewrite (normalize_spread _ _ Hlt).
    set (f := fun s => (s - arr_min s0 rest) / (arr_max s0 rest - arr_min s0 rest)).
    assert (Hpos : 0 < arr_max s0 rest - arr_min s0 rest) by lra.
    destruct (arr_min_is_min s0 rest) as [Hmin_at Hmin_le].
    destruct (arr_max_is_max s0 rest) as [Hmax_at Hmax_le].
    assert (Hmin' : is_min 0 (map f (s0 :: rest))).
    { split.
      - apply Exists_exists in Hmin_at as (x & Hx & Ex). apply Exists_exists.
        exists (f x). split; [apply list_elem_of_fmap; by exists x|]. unfold f. rewrite Ex. field. lra.
      - apply Forall_fmap, Forall_forall. intros s Hs.
        rewrite Forall_forall in Hmin_le. specialize (Hmin_le s Hs).
        unfold f. simpl. apply Qle_shift_div_l; [exact Hpos | lra]. }
    assert (Hmax' : is_max 1 (map f (s0 :: rest))).
    { split.
      - apply Exists_exists in Hmax_at as (x & Hx & Ex). apply Exists_exists.
        exists (f x). split; [apply list_elem_of_fmap; by exists x|]. unfold f. rewrite Ex. field. lra.
      - apply Forall_fmap, Forall_forall. intros s Hs.
        rewrite Forall_forall in Hmax_le. specialize (Hmax_le s Hs).
        unfold f. simpl. apply Qle_shift_div_r; [exact Hpos | lra]. }
    change (map f (s0 :: rest)) with (f s0 :: map f rest) in *.
    pose proof (is_min_unique _ _ _ Hmin' (arr_min_is_min (f s0) (map f rest))) as Emin.
    pose proof (is_max_unique _ _ _ Hmax' (arr_max_is_max (f s0) (map f rest))) as Emax.
    rewrite normalize_spread by (rewrite <- Emin, <- Emax; reflexivity).
    apply Forall2_fmap_l, Forall_Forall2_diag, Forall_forall. intros y _. simpl.
    rewrite <- Emin, <- Emax. field.
  - assert (Heq : arr_max s0 rest == arr_min s0 rest).
    { apply Qle_antisym; [exact Hge | apply arr_min_le_max]. }
    rewrite (normalize_degenerate _ _ Heq). simpl length.
    change (replicate (S (length rest)) 1) with (1 :: replicate (length rest) 1).
    rewrite normalize_degenerate.
    + simpl. rewrite length_replicate. apply Forall_Forall2_diag, Forall_forall.
      intros y _. reflexivity.
    + pose proof (is_min_unique _ _ _ (is_min_replicate (length rest) 1)
                    (arr_min_is_min 1 (replicate (length rest) 1))) as Emin.
      pose proof (is_max_unique _ _ _ (is_max_replicate (length rest) 1)
                    (arr_max_is_max 1 (replicate (length rest) 1))) as Emax.
      rewrite <- Emin, <- Emax. reflexivity.
Qed.

End NormalizeMoreProps.

(** ** More on hybrid search *)

Module SearchMoreProps.
Import HybridSearch HybridSearchProps.
Local Open Scope Q_scope.

Ltac case_mapM :=
  repeat (match goal with
          | |- context [@mapM ?M ?b ?r ?A ?B ?f ?l] => destruct (@mapM M b r A B f l)
          end; try reflexivity).

Lemma StronglySorted_take {A} (R : A -> A -> Prop) (l : list A) n :
  StronglySorted R l -> StronglySorted R (take n l).
Proof.
  intros H. revert n. induction H as [|x l Hl IH Hx]; intros [|n]; simpl;
    try constructor.
  - apply IH.
  - apply Forall_take, Hx.
Qed.

Lemma StronglySorted_slice_to {A} (R : A -> A -> Prop) (l : list A) n :
  StronglySorted R l -> StronglySorted R (slice_to l n).
Proof. unfold slice_to. destruct (0 <=? n)%Z; apply StronglySorted_take. Qed.

Lemma NoDup_ids_slice_to (l : list SearchResult) n :
  NoDup (chunk_id <$> l) -> NoDup (chunk_id <$> slice_to l n).
Proof.
  intros H. unfold slice_to.
  destruct (0 <=? n)%Z; rewrite fmap_take;
    exact (sublist_NoDup _ _ H (sublist_take _ _)).
Qed.

Lemma fuse_sorted a vs bs k : StronglySorted score_desc (fuse a vs bs k).
Proof. apply StronglySorted_slice_to, sort_by_score_desc_sorted. Qed.

Lemma fuse_NoDup a vs bs k : NoDup (chunk_id <$> fuse a vs bs k).
Proof.
  apply NoDup_ids_slice_to. rewrite sort_by_score_desc_Permutation, final_result_ids.
  apply build_score_map_ok.
Qed.

(** X3. The results that [search] returns are in descending order of score,
    no two of them have the same chunk id, and for a positive [k] there are
    at most [k] of them. *)
Theorem search_results_sorted_distinct (env : Env) (query : string) (k : option Z)
    (hs hs' : HybridSearch.t) (rs : list SearchResult) :
  search env query k hs = (Ok rs, hs') ->
  StronglySorted score_desc rs /\
  NoDup (chunk_id <$> rs) /\
  ((0 < int_or k (RETRIEVAL_TOP_K env))%Z ->
   (Z.of_nat (length rs) <= int_or k (RETRIEVAL_TOP_K env))%Z).
Proof.
  intros H. apply search_inv in H as (vs & bs & _ & _ & ->).
  split; [apply fuse_sorted|]. split; [apply fuse_NoDup|].
  intros Hk. apply slice_to_length. lia.
Qed.

Lemma search_results_sorted_distinct_witness :
  let hs := HybridSearch.__init__ scenario_env in
  let out := search scenario_env "trade secrets notice" (Some 2%Z) hs in
  length (returned [] out) = 2%nat /\
  StronglySorted score_desc (returned [] out) /\
  NoDup (chunk_id <$> returned [] out) /\
  ((0 < 2)%Z -> (Z.of_nat (length (returned [] out)) <= 2)%Z).
Proof.
  intros hs out. split; [vm_compute; reflexivity|].
  apply (search_results_sorted_distinct scenario_env "trade secrets notice"
           (Some 2%Z) hs out.2 (returned [] out)).
  vm_compute. reflexivity.
Defined.

(** X4. The lexical index is built lazily and kept: a search leaves an
    object that already has an index unchanged; without an index, the search
    indexes the documents of a non-empty store, and leaves the object
    without an index when the store is empty or cannot be read, so that the
    next search tries again. *)
Theorem bm25_index_is_built_once (env : Env) (query : string) (k : Z)
    (hs : HybridSearch.t) :
  (_bm25_search env query k hs).2 =
  match _bm25 hs, collection_get env with
  | Some _, _ => hs
  | None, Ok all_docs =>
      match get_documents all_docs with
      | [] => hs
      | _ :: _ => indexed env all_docs hs
      end
  | None, Raise _ => hs
  end.
Proof.
  unfold _bm25_search, _build_bm25_index, mbind, M_bind, get, put, lift, mret, M_ret.
  destruct (_bm25 hs) as [bm25|] eqn:Hbm25.
  - rewrite Hbm25.
    case_mapM.
  - destruct (collection_get env) as [all_docs|e]; [|reflexivity].
    destruct (get_documents all_docs) as [|doc docs] eqn:Hdocs.
    + rewrite Hbm25. reflexivity.
    + cbn [_bm25]. unfold indexed. rewrite Hdocs.
      case_mapM.
Qed.

Lemma _vector_search_state env query k hs :
  (_vector_search env query k hs).2 = hs.
Proof.
  unfold _vector_search, mbind, M_bind, lift, mret, M_ret.
  destruct (embed_query env query) as [e|]; [|reflexivity].
  destruct (collection_query env e k) as [qr|]; [|reflexivity].
  destruct (q_ids qr); [reflexivity|]. case_mapM.
Qed.

Lemma bm25_index_cached env query k hs bm25 :
  _bm25 hs = Some bm25 -> (_bm25_search env query k hs).2 = hs.
Proof.
  intros Hbm25.
  unfold _bm25_search, mbind, M_bind, get, lift, mret, M_ret.
  rewrite Hbm25. cbn beta iota. rewrite Hbm25. case_mapM.
Qed.

(** X5. Once the lexical index is built, [search] does not read the stored
    documents again: whatever [collection.get] would now return, [search]
    returns the same results and leaves the object unchanged, so documents
    added after the index was built are not seen by the lexical search. *)
Theorem built_index_is_not_refreshed (env : Env) (g : result GetResult)
    (query : string) (k : option Z) (hs : HybridSearch.t) (bm25 : BM25Okapi) :
  _bm25 hs = Some bm25 ->
  search (with_collection_get g env) query k hs = search env query k hs /\
  (search env query k hs).2 = hs.
Proof.
  intros Hbm25. split.
  - assert (Hb : forall n, _bm25_search (with_collection_get g env) query n hs
                           = _bm25_search env query n hs).
    { intros n. unfold _bm25_search, mbind, M_bind, get.
      rewrite Hbm25. cbn beta iota. rewrite ?Hbm25. reflexivity. }
    unfold search, mbind, M_bind.
    change (RETRIEVAL_TOP_K (with_collection_get g env)) with (RETRIEVAL_TOP_K env).
    change (_vector_search (with_collection_get g env)) with (_vector_search env).
    pose proof (_vector_search_state env query (int_or k (RETRIEVAL_TOP_K env) * 3) hs) as Hv.
    destruct (_vector_search env query _ hs) as [[vs|e] hs1]; simpl in Hv; subst hs1;
      [|reflexivity].
    rewrite Hb. reflexivity.
  - unfold search, mbind, M_bind, get, mret, M_ret.
    pose proof (_vector_search_state env query (int_or k (RETRIEVAL_TOP_K env) * 3) hs) as Hv.
    destruct (_vector_search env query _ hs) as [[vs|e] hs1]; simpl in Hv; subst hs1;
      [|reflexivity].
    pose proof (bm25_index_cached env query (int_or k (RETRIEVAL_TOP_K env) * 3) hs
                  bm25 Hbm25) as Hb.
    destruct (_bm25_search env query _ hs) as [[bs|e] hs1]; simpl in Hb; subst hs1;
      reflexivity.
Qed.

Lemma built_index_is_not_refreshed_witness :
  let hs := indexed scenario_env Demo.corpus (HybridSearch.__init__ scenario_env) in
  search (with_collection_get (Ok Demo.no_corpus) scenario_env) "notice" (Some 1%Z) hs
  = search scenario_env "notice" (Some 1%Z) hs /\
  (search scenario_env "notice" (Some 1%Z) hs).2 = hs.
Proof.
  intros hs.
  eapply (built_index_is_not_refreshed scenario_env (Ok Demo.no_corpus) "notice"
            (Some 1%Z) hs).
  reflexivity.
Defined.

End SearchMoreProps.

(** ** More on the reranker *)

Module RerankMoreProps.
Import ReRanker.

Ltac unfold_rerank :=
  unfold rerank, mbind, M_bind, get, try_except, _get_ranker, mbind, M_bind,
    get, lift, put, mret, M_ret.

(** X6. Whatever the relevance model does, [rerank] raises nothing; for a
    positive effective [top_n] it returns at most [top_n] results; and for
    an empty candidate list it returns the empty list without loading the
    model. *)
Theorem rerank_never_raises (env : Env) (self : t) (query : string)
    (results : list SearchResult) (top_n_arg : option Z) :
  exists rs self',
    rerank env query results top_n_arg self = (Ok rs, self') /\
    ((0 < int_or top_n_arg (top_n self))%Z ->
     (Z.of_nat (length rs) <= int_or top_n_arg (top_n self))%Z) /\
    (results = [] -> rs = [] /\ self' = self).
Proof.
  unfold_rerank. destruct results as [|r0 results].
  - eexists _, _. split; [reflexivity|]. split; [simpl; lia | done].
  - assert (Hlen : forall A (l : list A),
      (0 < int_or top_n_arg (top_n self))%Z ->
      (Z.of_nat (length (slice_to l (int_or top_n_arg (top_n self))))
       <= int_or top_n_arg (top_n self))%Z).
    { intros A l Hpos. apply slice_to_length. lia. }
    destruct (_ranker self) as [ranker|].
    + destruct (Ranker_rerank env ranker query _); eexists _, _;
        (split; [reflexivity|]); (split; [|discriminate]); intros Hpos.
      * rewrite length_map. by apply Hlen.
      * by apply Hlen.
    + destruct (Ranker_new env (model_name self)) as [ranker|e].
      * destruct (Ranker_rerank env ranker query _); eexists _, _;
          (split; [reflexivity|]); (split; [|discriminate]); intros Hpos.
        -- rewrite length_map. by apply Hlen.
        -- by apply Hlen.
      * eexists _, _. split; [reflexivity|]. split; [|discriminate].
        intros Hpos. by apply Hlen.
Qed.

Lemma rerank_never_raises_witness :
  let env := Demo.env Demo.corpus Demo.chat_ok Demo.ranker_ok in
  exists rs self',
    rerank env "q" [Demo.sr "c1" 1; Demo.sr "c2" (1 # 2)] (Some 1%Z) (__init__ env)
    = (Ok rs, self') /\
    (Z.of_nat (length rs) <= 1)%Z.
Proof.
  intros env.
  destruct (rerank_never_raises env (__init__ env) "q"
              [Demo.sr "c1" 1; Demo.sr "c2" (1 # 2)] (Some 1%Z))
    as (rs & self' & Hrun & Hlen & _).
  exists rs, self'. split; [exact Hrun|]. apply Hlen. reflexivity.
Defined.

(** X7. The relevance model is loaded at most once: [rerank] leaves an
    object that already holds a model unchanged; on a non-empty candidate
    list an object without a model gets the newly loaded model when loading
    succeeds and stays without one when loading raises; the model name and
    the default [top_n] never change. *)
Theorem rerank_loads_model_once (env : Env) (self : t) (query : string)
    (results : list SearchResult) (top_n_arg : option Z) :
  let self' := (rerank env query results top_n_arg self).2 in
  model_name self' = model_name self /\
  top_n self' = top_n self /\
  (forall ranker, _ranker self = Some ranker -> self' = self) /\
  (_ranker self = None -> results <> [] ->
   _ranker self' =
   match Ranker_new env (model_name self) with
   | Ok ranker => Some ranker
   | Raise _ => None
   end).
Proof.
  unfold_rerank. destruct results as [|r0 results]; simpl.
  - split; [done|]. split; [done|]. split; [done|]. intros _ H. by destruct H.
  - destruct (_ranker self) as [ranker|] eqn:Hr.
    + destruct (Ranker_rerank env ranker query _); simpl;
        (split; [done|]); (split; [done|]); (split; [done|]); discriminate.
    + destruct (Ranker_new env (model_name self)) as [ranker|e]; simpl.
      * destruct (Ranker_rerank env ranker query _); simpl;
          (split; [done|]); (split; [done|]); (split; [discriminate|]); done.
      * split; [done|]. split; [done|]. split; [discriminate|]. by rewrite Hr.
Qed.

Lemma rerank_loads_model_once_witness :
  let env := Demo.env Demo.corpus Demo.chat_ok Demo.ranker_ok in
  let self' := (rerank env "q" [Demo.sr "c1" 1] None (__init__ env)).2 in
  _ranker self' = Some (mkRanker "rank-T5-flan") /\
  (rerank env "q" [Demo.sr "c2" 1] None self').2 = self'.
Proof.
  intros env self'. split.
  - refine (proj2 (proj2 (proj2 (rerank_loads_model_once env (__init__ env) "q"
                                   [Demo.sr "c1" 1] None))) _ _).
    + reflexivity.
    + discriminate.
  - refine (proj1 (proj2 (proj2 (rerank_loads_model_once env self' "q"
                                   [Demo.sr "c2" 1] None))) _ _).
    reflexivity.
Defined.

End RerankMoreProps.

(** ** More on query expansion *)

Module ExpandMoreProps.
Import QueryExpander.

Lemma slice_to_length_le {A} (l : list A) (n : nat) :
  length (slice_to l (Z.of_nat n)) <= n.
Proof.
  pose proof (slice_to_length l (Z.of_nat n)). lia.
Qed.

Lemma multi_query_at_most_three env self query qs :
  multi_query env self query = Ok qs -> length qs <= 3.
Proof.
  unfold multi_query. intros H. apply result_bind_Ok in H as (response & _ & H).
  injection H as <-. apply (slice_to_length_le _ 3).
Qed.

(** X8. When [expand] returns, it returns the original query, then the
    hypothetical passage if HyDE is enabled, then the variants (at most
    three) if multi-query is enabled: between one and five queries in
    all. *)
Theorem expand_size (env : Env) (self : t) (query : string)
    (use_hyde use_multi : bool) (qs : list string) :
  expand env self query use_hyde use_multi = Ok qs ->
  exists passage variants,
    qs = query :: passage ++ variants /\
    (if use_hyde then exists h, passage = [h] /\ hyde env self query = Ok h
     else passage = []) /\
    (if use_multi then multi_query env self query = Ok variants /\ length variants <= 3
     else variants = []) /\
    1 <= length qs <= 5.
Proof.
  unfold expand. intros H.
  apply result_bind_Ok in H as (qs1 & H1 & H).
  apply result_bind_Ok in H as (qs2 & H2 & H). injection H as <-.
  assert (Hp : exists passage, qs1 = query :: passage /\
    (if use_hyde then exists h, passage = [h] /\ hyde env self query = Ok h
     else passage = [])).
  { destruct use_hyde.
    - apply result_bind_Ok in H1 as (h & Hh & H1). injection H1 as <-.
      exists [h]. split; [done|]. by exists h.
    - injection H1 as <-. by exists []. }
  destruct Hp as (passage & -> & Hp).
  assert (Hv : exists variants, qs2 = query :: passage ++ variants /\
    (if use_multi then multi_query env self query = Ok variants /\ length variants <= 3
     else variants = [])).
  { destruct use_multi.
    - apply result_bind_Ok in H2 as (vs & Hvs & H2). injection H2 as <-.
      exists vs. split; [done|]. split; [exact Hvs|].
      eapply multi_query_at_most_three, Hvs.
    - injection H2 as <-. exists []. by rewrite app_nil_r. }
  destruct Hv as (variants & -> & Hv).
  exists passage, variants. split; [done|]. split; [exact Hp|]. split; [exact Hv|].
  simpl. rewrite length_app.
  assert (length passage <= 1).
  { destruct use_hyde; [destruct Hp as (h & -> & _) | subst]; simpl; lia. }
  assert (length variants <= 3).
  { destruct use_multi; [destruct Hv as [_ Hv]; exact Hv | subst; simpl; lia]. }
  lia.
Qed.

Lemma expand_size_witness :
  let env := Demo.env Demo.corpus Demo.chat_ok Demo.ranker_ok in
  exists passage variants,
    ["notice period"; "English"; "English"] = "notice period" :: passage ++ variants /\
    (exists h, passage = [h] /\ hyde env (__init__ env) "notice period" = Ok h) /\
    (multi_query env (__init__ env) "notice period" = Ok variants /\
     length variants <= 3) /\
    1 <= length ["notice period"; "English"; "English"] <= 5.
Proof.
  intros env.
  apply (expand_size env (__init__ env) "notice period" true true
           ["notice period"; "English"; "English"]).
  vm_compute. reflexivity.
Defined.

Lemma lstrip_chars_head s chars c rest :
  lstrip_chars s chars = String c rest -> mem_char c chars = false.
Proof.
  induction s as [|c0 s IH]; simpl; [discriminate|].
  destruct (mem_char c0 chars) eqn:E; [exact IH|]. by intros [= <- _].
Qed.

(** X9. No variant returned by [multi_query] begins with a digit, a dot, a
    hyphen, a closing parenthesis or a space: leading enumeration markup is
    removed (a variant can be empty). *)
Theorem multi_query_strips_enumeration (env : Env) (self : t) (query : string)
    (qs : list string) (q : string) (c : Ascii.ascii) (rest : string) :
  multi_query env self query = Ok qs ->
  q ∈ qs ->
  q = String c rest ->
  mem_char c "0123456789.-) " = false.
Proof.
  unfold multi_query. intros H Hq ->. apply result_bind_Ok in H as (response & _ & H).
  injection H as <-. apply slice_to_subseteq in Hq.
  apply list_elem_of_fmap in Hq as (line & Hq & _).
  eapply lstrip_chars_head. symmetry. exact Hq.
Qed.

Lemma multi_query_strips_enumeration_witness :
  let env := Demo.env Demo.corpus Demo.chat_ok Demo.ranker_ok in
  mem_char (Ascii.ascii_of_nat 69) "0123456789.-) " = false.
Proof.
  intros env.
  apply (multi_query_strips_enumeration env (__init__ env) "notice period"
           ["English"] "English" (Ascii.ascii_of_nat 69) "nglish").
  - vm_compute. reflexivity.
  - left.
  - reflexivity.
Defined.

End ExpandMoreProps.

(** ** More on the retriever *)

Module RetrieverMoreProps.
Import Retriever.

(** The parent ids collected by the first loop of [_get_parent_context]. *)
Lemma parent_ids_spec (results : list SearchResult) (pid : value) :
  forall acc : gset value,
  pid ∈ fold_left
          (fun (acc : gset value) r =>
             match sr_metadata r !! "parent_id" with
             | Some pid => if truthy pid then acc ∪ {[ pid ]} else acc
             | None => acc
             end)
          results acc <->
  pid ∈ acc \/ referenced results pid.
Proof.
  unfold referenced. induction results as [|r results IH]; intros acc; simpl.
  - split; [by left|]. intros [H|(r & Hr & _)]; [done | inversion Hr].
  - rewrite IH. split.
    + intros [H|(r' & Hr' & Hm)]; [|right; exists r'; split; [by right | done]].
      destruct (sr_metadata r !! "parent_id") as [p|] eqn:Hp; [|by left].
      destruct (truthy p) eqn:Ht; [|by left].
      apply elem_of_union in H as [H|H]; [by left|].
      apply elem_of_singleton in H as ->. right. exists r. split; [left | done].
    + intros [H|(r' & Hr' & Hm & Ht)].
      * left. destruct (sr_metadata r !! "parent_id") as [p|]; [|done].
        destruct (truthy p); [|done]. apply elem_of_union. by left.
      * apply elem_of_cons in Hr' as [->|Hr'].
        -- left. rewrite Hm, Ht. apply elem_of_union. right. by apply elem_of_singleton.
        -- right. by exists r'.
Qed.

(** The map built by the second loop of [_get_parent_context]. *)
Lemma parent_fetch_spec (env : Env) (pids : list value) (pid : value) :
  forall acc : gmap value string,
  fold_left
    (fun (parent_context : gmap value string) pid =>
       match parents_get env pid with
       | Ok (doc :: _) => <[ pid := doc ]> parent_context
       | Ok [] => parent_context
       | Raise _ => parent_context
       end)
    pids acc !! pid =
  if decide (pid ∈ pids) then
    match stored_parent env pid with
    | Some doc => Some doc
    | None => acc !! pid
    end
  else acc !! pid.
Proof.
  unfold stored_parent. induction pids as [|p pids IH]; intros acc; cbn [fold_left].
  - case_decide as H; [by apply elem_of_nil in H | done].
  - rewrite IH. destruct (decide (pid = p)) as [->|Hne].
    + rewrite (decide_True (P := p ∈ p :: pids)) by left.
      destruct (parents_get env p) as [[|doc docs]|e];
        destruct (decide (p ∈ pids)); try done; by rewrite lookup_insert_eq.
    + assert (Hacc :
        match parents_get env p with
        | Ok (doc :: _) => <[ p := doc ]> acc
        | Ok [] => acc
        | Raise _ => acc
        end !! pid = acc !! pid).
      { destruct (parents_get env p) as [[|doc docs]|e]; try done.
        by rewrite lookup_insert_ne. }
      rewrite Hacc. destruct (decide (pid ∈ pids)) as [Hin|Hin].
      * rewrite decide_True by (by right). done.
      * rewrite decide_False; [done|]. rewrite not_elem_of_cons. done.
Qed.

Lemma parent_context_lookup (env : Env) (results : list SearchResult)
    (pid : value) :
  _get_parent_context env results !! pid =
  if decide (referenced results pid) then stored_parent env pid else None.
Proof.
  unfold _get_parent_context.
  set (parent_ids := fold_left _ results ∅).
  assert (Hids : forall p, p ∈ parent_ids <-> referenced results p).
  { intros p. unfold parent_ids. rewrite parent_ids_spec.
    split; [intros [H|H]; [by apply elem_of_empty in H | done] | by right]. }
  destruct (decide (parent_ids = ∅)) as [Hempty|Hne].
  - rewrite lookup_empty. case_decide as Href; [|done].
    apply Hids in Href. rewrite Hempty in Href. by apply elem_of_empty in Href.
  - rewrite parent_fetch_spec, lookup_empty.
    destruct (decide (pid ∈ elements parent_ids)) as [Hin|Hin].
    + rewrite decide_True by (by apply Hids, elem_of_elements).
      by destruct (stored_parent env pid).
    + rewrite decide_False; [done|]. by rewrite <- Hids, <- elem_of_elements.
Qed.

(** X10. The parent context maps a parent id to a text exactly when some
    result carries that id as a truthy [parent_id] in its metadata and the
    parent store returns a document for it, the text being the first
    document returned; ids that the store does not know or fails on are left
    out, and results without a [parent_id] contribute nothing. *)
Theorem parent_context_entries (env : Env) (results : list SearchResult)
    (pid : value) (doc : string) :
  _get_parent_context env results !! pid = Some doc <->
  referenced results pid /\ stored_parent env pid = Some doc.
Proof.
  rewrite parent_context_lookup. case_decide as Href.
  - split; [by split | by intros [_ H]].
  - split; [discriminate | by intros [H _]].
Qed.

Lemma parent_context_entries_witness :
  let results := [mkSearchResult "c1" "a" 1 {[ "parent_id" := VStr "P1" ]};
                  mkSearchResult "c2" "b" 1 {[ "parent_id" := VStr "P1" ]};
                  mkSearchResult "c3" "c" 1 ∅] in
  _get_parent_context scenario_env results !! VStr "P1"
  = Some "Termination. Either party may terminate with 30 days notice.".
Proof.
  intros results.
  apply (parent_context_entries scenario_env results (VStr "P1")). split.
  - exists (mkSearchResult "c1" "a" 1 {[ "parent_id" := VStr "P1" ]}).
    split; [left|]. split; reflexivity.
  - reflexivity.
Defined.

Lemma count_chars_none p cs :
  Forall (fun c => p c = false) cs -> count_chars p cs = 0.
Proof.
  unfold count_chars. induction 1 as [|c cs Hc _ IH]; [reflexivity|].
  rewrite filter_cons_False; [exact IH|]. rewrite Hc. discriminate.
Qed.

(** X11. A query without Cyrillic characters (code points U+0400 to U+04FF)
    is never translated: step 0 of [retrieve] yields the query itself, and
    consults neither the store nor the chat model. *)
Theorem non_cyrillic_query_is_not_translated (env : Env) (self : t) (query : string) :
  Forall (fun c => (c < 1024)%N \/ (1279 < c)%N) (str_chars env query) ->
  _detect_query_language env query = None /\
  translate_step env self query = Ok query.
Proof.
  intros Hchars.
  assert (Hlang : _detect_query_language env query = None).
  { unfold _detect_query_language.
    rewrite (count_chars_none (fun c => (1024 <=? c)%N && (c <=? 1279)%N)).
    - change (?n <? 0) with false. cbn iota. by destruct (0 <? _).
    - eapply Forall_impl; [exact Hchars|]. intros c Hc. simpl in Hc.
      apply andb_false_iff. destruct Hc as [Hc|Hc]; [left | right].
      + apply N.leb_gt, Hc.
      + apply N.leb_gt, Hc. }
  split; [exact Hlang|]. unfold translate_step. rewrite Hlang.
  by destruct (use_query_translation self), (query_expander self).
Qed.

Lemma non_cyrillic_query_is_not_translated_witness :
  let env := Demo.env Demo.corpus Demo.chat_down Demo.ranker_ok in
  translate_step env (__init__ env true false true) "notice period" = Ok "notice period".
Proof.
  intros env.
  refine (proj2 (non_cyrillic_query_is_not_translated env (__init__ env true false true)
                   "notice period" _)).
  repeat constructor.
Defined.

Lemma retrieve_inv env query k use_hyde use_multi_query self r self' :
  retrieve env query k use_hyde use_multi_query self = (Ok r, self') ->
  exists search_query merged hs',
    translate_step env self query = Ok search_query /\
    expand_step env self search_query use_hyde use_multi_query
      = Ok (expanded_queries r) /\
    search_all env (expanded_queries r) (int_or k (RETRIEVAL_TOP_K env)) []
      (hybrid_search self) = (Ok merged, hs') /\
    rerank_step env query (sort_by_score_desc (map snd merged))
      (int_or k (RETRIEVAL_TOP_K env)) (set_hybrid_search hs' self)
      = (Ok (results r), self') /\
    total_candidates r = length merged /\
    parent_context r = _get_parent_context env (results r).
Proof.
  rewrite TranslationProps.retrieve_unfold.
  destruct (translate_step env self query) as [search_query|e]; [|discriminate].
  unfold retrieve_from, mbind, M_bind, get, lift, zoom, mret, M_ret.
  destruct (expand_step env self search_query use_hyde use_multi_query)
    as [queries|e] eqn:Hexp; [|discriminate].
  destruct (search_all env queries _ [] (hybrid_search self))
    as [[merged|e] hs'] eqn:Hsearch; [|discriminate].
  destruct (rerank_step env query _ _ (set_hybrid_search hs' self))
    as [[rs|e] self2] eqn:Hstep; [|discriminate].
  intros [= <- <-]. exists search_query, merged, hs'. simpl.
  rewrite (Permutation_length (sort_by_score_desc_Permutation _)), length_map. done.
Qed.

(** The keys of [all_results] are distinct, and each one is the chunk id of
    its result. *)
Lemma merge_result_keys m x :
  NoDup m.*1 -> Forall (fun kv => chunk_id kv.2 = kv.1) m ->
  NoDup (merge_result m x).*1 /\
  Forall (fun kv => chunk_id kv.2 = kv.1) (merge_result m x).
Proof.
  intros ND Hk.
  assert (Hset : NoDup (dict_set m (chunk_id x) x).*1 /\
                 Forall (fun kv => chunk_id kv.2 = kv.1) (dict_set m (chunk_id x) x)).
  { split; [by apply dict_set_NoDup|]. clear ND.
    induction m as [|[k0 v0] m IH]; simpl; [by repeat constructor|].
    apply Forall_cons in Hk as [Hk0 Hk]. simpl in Hk0.
    destruct (String.eqb (chunk_id x) k0) eqn:E.
    - apply String.eqb_eq in E. by constructor.
    - constructor; [exact Hk0 | by apply IH]. }
  unfold merge_result. destruct (dict_get m (chunk_id x)); [|exact Hset].
  destruct (negb _); [exact Hset | by split].
Qed.

Lemma merge_loop_keys rs : forall m,
  NoDup m.*1 -> Forall (fun kv => chunk_id kv.2 = kv.1) m ->
  NoDup (fold_left merge_result rs m).*1 /\
  Forall (fun kv => chunk_id kv.2 = kv.1) (fold_left merge_result rs m).
Proof.
  induction rs as [|x rs IH]; intros m ND Hk; [by split|].
  simpl. destruct (merge_result_keys m x ND Hk). by apply IH.
Qed.

Lemma merged_candidates_distinct rs :
  NoDup (chunk_id <$> (fold_left merge_result rs []).*2) /\
  (forall cid, cid ∈ chunk_id <$> (fold_left merge_result rs []).*2 <->
               cid ∈ chunk_id <$> rs).
Proof.
  destruct (merge_loop_keys rs [] (NoDup_nil_2) (Forall_nil_2 _)) as [ND Hk].
  destruct (MergeProps.merge_loop_ok rs) as [Hmax Hdom].
  assert (Hids : chunk_id <$> (fold_left merge_result rs []).*2
                 = (fold_left merge_result rs []).*1).
  { rewrite <- list_fmap_compose. apply list_fmap_ext.
    intros i kv Hkv. rewrite Forall_forall in Hk. apply Hk.
    eapply list_elem_of_lookup_2, Hkv. }
  rewrite Hids. split; [exact ND|]. intros cid. split.
  - intros Hin. apply dict_get_is_Some in Hin as [r Hr].
    destruct (Hmax _ _ Hr) as (<- & Hin & _). apply list_elem_of_fmap. eauto.
  - intros Hin. apply list_elem_of_fmap in Hin as (r & -> & Hr).
    apply dict_get_is_Some, Hdom, Hr.
Qed.

(** X12. The candidates merged by [retrieve] are counted once per chunk id:
    [total_candidates] is the number of distinct chunk ids among all the
    results that [search] returned for the queries in
    [expanded_queries]. *)
Theorem total_candidates_counts_distinct_ids (env : Env) (self self' : t)
    (query : string) (k : option Z) (use_hyde use_multi_query : bool)
    (r : RetrievalResult) :
  retrieve env query k use_hyde use_multi_query self = (Ok r, self') ->
  exists rss hs',
    variant_results env (expanded_queries r) (int_or k (RETRIEVAL_TOP_K env))
      (hybrid_search self) rss hs' /\
    total_candidates r = size (list_to_set (C := gset string) (chunk_id <$> concat rss)).
Proof.
  intros H. apply retrieve_inv in H
    as (search_query & merged & hs' & _ & _ & Hsearch & _ & Htotal & _).
  apply MergeProps.search_all_inv in Hsearch as (rss & Hv & ->).
  exists rss, hs'. split; [exact Hv|]. rewrite Htotal.
  destruct (merged_candidates_distinct (concat rss)) as [ND Hids].
  rewrite <- (length_fmap snd), <- (length_fmap chunk_id).
  rewrite <- (size_list_to_set (C := gset string)) by exact ND.
  f_equal. apply set_eq. intros cid. rewrite !elem_of_list_to_set. apply Hids.
Qed.

(** X13. Without a reranker, the results of [retrieve] are in descending
    order of score, have pairwise distinct chunk ids, are no more than the
    candidates and, for a positive [k], no more than [k]. *)
Theorem retrieve_without_reranker (env : Env) (self self' : t)
    (query : string) (k : option Z) (use_hyde use_multi_query : bool)
    (r : RetrievalResult) :
  retrieve env query k use_hyde use_multi_query self = (Ok r, self') ->
  reranker self = None ->
  StronglySorted score_desc (results r) /\
  NoDup (chunk_id <$> results r) /\
  length (results r) <= total_candidates r /\
  ((0 < int_or k (RETRIEVAL_TOP_K env))%Z ->
   (Z.of_nat (length (results r)) <= int_or k (RETRIEVAL_TOP_K env))%Z).
Proof.
  intros H Hnone. apply retrieve_inv in H
    as (search_query & merged & hs' & _ & _ & Hsearch & Hstep & Htotal & _).
  apply MergeProps.search_all_inv in Hsearch as (rss & _ & ->).
  unfold rerank_step, mbind, M_bind, get in Hstep.
  change (reranker (set_hybrid_search hs' self)) with (reranker self) in Hstep.
  rewrite Hnone in Hstep. apply mret_Ok in Hstep as [-> _].
  destruct (merged_candidates_distinct (concat rss)) as [ND _].
  split; [apply SearchMoreProps.StronglySorted_slice_to, sort_by_score_desc_sorted|].
  split.
  { apply SearchMoreProps.NoDup_ids_slice_to.
    by rewrite sort_by_score_desc_Permutation. }
  split.
  { rewrite Htotal. etrans; [apply sublist_length|].
    - unfold slice_to. destruct (0 <=? _)%Z; apply sublist_take.
    - by rewrite (Permutation_length (sort_by_score_desc_Permutation _)), length_map. }
  intros Hk. apply slice_to_length. lia.
Qed.

Lemma retrieve_without_reranker_witness :
  let self := __init__ scenario_env false false false in
  let out := retrieve scenario_env "termination notice" (Some 1%Z) false false self in
  let r := returned (mkRetrievalResult [] [] 0 0 ∅) out in
  length (results r) = 1 /\ total_candidates r = 2 /\
  StronglySorted score_desc (results r) /\
  NoDup (chunk_id <$> results r).
Proof.
  intros self out r. split; [vm_compute; reflexivity|]. split; [vm_compute; reflexivity|].
  destruct (retrieve_without_reranker scenario_env self out.2 "termination notice"
              (Some 1%Z) false false r) as (Hs & Hd & _).
  - vm_compute. reflexivity.
  - reflexivity.
  - by split.
Defined.

Lemma total_candidates_counts_distinct_ids_witness :
  let self := __init__ scenario_env true false false in
  let out := retrieve scenario_env "termination notice" (Some 1%Z) false false self in
  let r := returned (mkRetrievalResult [] [] 0 0 ∅) out in
  exists rss hs',
    variant_results scenario_env (expanded_queries r) 1 (hybrid_search self) rss hs' /\
    total_candidates r = size (list_to_set (C := gset string) (chunk_id <$> concat rss)).
Proof.
  intros self out r.
  apply (total_candidates_counts_distinct_ids scenario_env self out.2
           "termination notice" (Some 1%Z) false false r).
  vm_compute. reflexivity.
Defined.

End RetrieverMoreProps.

(** ** More on chunking *)

Module ChunkingMoreProps.
Import Chunking.

Lemma child_from_mono env document parents parents' c :
  parents ⊆ parents' -> child_from env document parents c ->
  child_from env document parents' c.
Proof.
  intros Hsub (page & p & Hpage & Hp & H). exists page, p.
  split; [exact Hpage|]. split; [by apply Hsub | exact H].
Qed.

(** The inner loop, for the parent [p] just appended and the child texts
    [todo] still to come after [seen]. *)
Lemma add_children_ok env document page p seen : forall todo a texts,
  page ∈ pages document ->
  c_text p ∈ parent_texts_of env page ->
  In p (acc_parents a) ->
  child_texts_of env (c_text p) = seen ++ todo ->
  Forall (parent_from env document) (acc_parents a) ->
  Forall (child_from env document (acc_parents a)) (acc_children a) ->
  c_text <$> acc_parents a = texts ++ [c_text p] ->
  c_text <$> acc_children a = concat (child_texts_of env <$> texts) ++ seen ->
  acc_uuids a = length (acc_parents a) + length (acc_children a) ->
  (c_chunk_id <$> acc_parents a) ++ (c_chunk_id <$> acc_children a)
    ≡ₚ uuid4 env <$> seq 0 (acc_uuids a) ->
  chunks_ok env document (texts ++ [c_text p])
    (fold_left (add_child env document page (c_chunk_id p)) todo a).
Proof.
  revert seen. intros seen todo. revert seen.
  induction todo as [|t todo IH]; intros seen a texts Hpage Hptext Hp Hsplit
    Hparents Hchildren Hpt Hct Hn Hids.
  - simpl. rewrite app_nil_r in Hsplit.
    split; [exact Hparents|]. split; [exact Hchildren|]. split; [exact Hpt|].
    split; [|by split].
    rewrite Hct, fmap_app, concat_app. simpl. by rewrite app_nil_r, Hsplit.
  - cbn [fold_left]. apply (IH (seen ++ [t]));
      cbn [add_child acc_parents acc_children acc_uuids]; try done.
    + by rewrite <- app_assoc.
    + apply Forall_app. split; [exact Hchildren|]. apply Forall_singleton.
      exists page, p. split; [exact Hpage|]. split; [by apply list_elem_of_In|].
      split; [exact Hptext|]. split; [|done].
      cbn [c_text]. rewrite Hsplit. apply elem_of_app. right. left.
    + by rewrite fmap_app, Hct, <- app_assoc.
    + rewrite length_app. cbn [length]. lia.
    + rewrite fmap_app, seq_S, fmap_app, app_assoc, Hids. done.
Qed.

Lemma add_parent_ok env document page texts a t :
  page ∈ pages document ->
  t ∈ parent_texts_of env page ->
  chunks_ok env document texts a ->
  chunks_ok env document (texts ++ [t]) (add_parent env document page a t).
Proof.
  intros Hpage Ht (Hparents & Hchildren & Hpt & Hct & Hn & Hids).
  unfold add_parent.
  set (p := mkChunk (uuid4 env (acc_uuids a)) t
              (<[ "filename" := VStr (filename document) ]>
                 (<[ "chunk_type" := VStr "parent" ]> (page_metadata page))) None).
  change t with (c_text p) at 2. change (uuid4 env (acc_uuids a)) with (c_chunk_id p).
  apply (add_children_ok env document page p []);
    cbn [acc_parents acc_children acc_uuids]; try done.
  - apply in_or_app. right. by left.
  - apply Forall_app. split; [exact Hparents|]. apply Forall_singleton.
    by exists page.
  - eapply Forall_impl; [exact Hchildren|]. intros c. apply child_from_mono.
    intros x Hx. apply elem_of_app. by left.
  - by rewrite fmap_app, Hpt.
  - by rewrite Hct, app_nil_r.
  - rewrite length_app. cbn [length]. lia.
  - rewrite fmap_app, seq_S, fmap_app, <- Hids. cbn [fmap list_fmap c_chunk_id p].
    rewrite <- !app_assoc. apply Permutation_app_head, Permutation_app_comm.
Qed.

Lemma add_parents_ok env document page todo : forall texts a,
  page ∈ pages document ->
  todo ⊆ parent_texts_of env page ->
  chunks_ok env document texts a ->
  chunks_ok env document (texts ++ todo)
    (fold_left (add_parent env document page) todo a).
Proof.
  induction todo as [|t todo IH]; intros texts a Hpage Hsub Hok.
  - by rewrite app_nil_r.
  - simpl. rewrite (assoc_L (++) texts [t] todo : texts ++ t :: todo = (texts ++ [t]) ++ todo).
    apply IH; [exact Hpage | |].
    + intros x Hx. apply Hsub. by right.
    + apply add_parent_ok; [exact Hpage | apply Hsub; left | exact Hok].
Qed.

Lemma add_pages_ok env document todo : forall texts a,
  todo ⊆ pages document ->
  chunks_ok env document texts a ->
  chunks_ok env document (texts ++ concat (parent_texts_of env <$> todo))
    (fold_left (add_page env document) todo a).
Proof.
  induction todo as [|page todo IH]; intros texts a Hsub Hok.
  - simpl. by rewrite app_nil_r.
  - simpl. rewrite app_assoc. apply IH.
    + intros x Hx. apply Hsub. by right.
    + apply add_parents_ok; [apply Hsub; left | done | exact Hok].
Qed.

Lemma chunk_document_ok env document :
  chunks_ok env document (concat (parent_texts_of env <$> pages document))
    (fold_left (add_page env document) (pages document) (mkAcc [] [] 0)).
Proof.
  apply (add_pages_ok env document (pages document) []); [done|].
  repeat split; simpl; constructor.
Qed.

(** X14. Chunking drops and reorders nothing: the texts of the parent chunks
    are the spans of the pages, page after page, and the texts of the child
    chunks are the spans of the parent texts, parent after parent; the file
    name is kept. *)
Theorem chunk_document_texts (env : Env) (document : LoadedDocument) :
  let chunked := chunk_document env document in
  c_text <$> parent_chunks chunked
    = concat (parent_texts_of env <$> pages document) /\
  c_text <$> child_chunks chunked
    = concat (child_texts_of env <$> (c_text <$> parent_chunks chunked)) /\
  cd_filename chunked = filename document.
Proof.
  destruct (chunk_document_ok env document) as (_ & _ & Hpt & Hct & _).
  simpl. rewrite Hpt. done.
Qed.

(** X15. The chunk ids of a chunked document are the values of the first
    [n] calls of [uuid4], [n] being the number of chunks, each used once;
    so all chunk ids, of parents and children alike, are pairwise distinct
    whenever these [n] values are. *)
Theorem chunk_document_ids (env : Env) (document : LoadedDocument) :
  let chunked := chunk_document env document in
  let ids := (c_chunk_id <$> parent_chunks chunked)
             ++ (c_chunk_id <$> child_chunks chunked) in
  let n := length (parent_chunks chunked) + length (child_chunks chunked) in
  ids ≡ₚ uuid4 env <$> seq 0 n /\
  (NoDup (uuid4 env <$> seq 0 n) -> NoDup ids).
Proof.
  destruct (chunk_document_ok env document) as (_ & _ & _ & _ & Hn & Hids).
  simpl. rewrite <- Hn. split; [exact Hids|]. intros ND. by rewrite Hids.
Qed.

Lemma chunk_document_ids_witness :
  let env := Demo.env Demo.corpus Demo.chat_ok Demo.ranker_ok in
  let document :=
    mkLoadedDocument [mkDocumentPage "Either party may terminate." 1 ∅] "test.pdf" "pdf" 1 in
  let chunked := chunk_document env document in
  NoDup ((c_chunk_id <$> parent_chunks chunked) ++ (c_chunk_id <$> child_chunks chunked)).
Proof.
  intros env document chunked.
  apply (proj2 (chunk_document_ids env document)).
  apply (bool_decide_unpack _). vm_compute. exact I.
Defined.

(** X16. Every child chunk comes from one page and one parent chunk of the
    document: the parent's text is a span of that page, the child's text is
    a span of the parent's text, the child's [parent_id] field and its
    [parent_id] metadata both hold the parent's chunk id, its [chunk_type]
    is [child], its [filename] is the document's, and its other metadata
    are the page's. *)
Theorem chunk_document_child_origin (env : Env) (document : LoadedDocument)
    (c : Chunk) :
  let chunked := chunk_document env document in
  c ∈ child_chunks chunked ->
  exists page p,
    page ∈ pages document /\
    p ∈ parent_chunks chunked /\
    c_text p ∈ parent_texts_of env page /\
    c_text c ∈ child_texts_of env (c_text p) /\
    parent_id c = Some (c_chunk_id p) /\
    c_metadata c !! "parent_id" = Some (VStr (c_chunk_id p)) /\
    c_metadata c !! "chunk_type" = Some (VStr "child") /\
    c_metadata c !! "filename" = Some (VStr (filename document)) /\
    (forall key, key <> "parent_id" -> key <> "chunk_type" -> key <> "filename" ->
       c_metadata c !! key = page_metadata page !! key).
Proof.
  intros chunked Hc.
  destruct (chunk_document_ok env document) as (_ & Hchildren & _).
  rewrite Forall_forall in Hchildren.
  destruct (Hchildren c Hc) as (page & p & Hpage & Hp & Hpt & Hct & Hid & Hmeta).
  exists page, p. rewrite Hmeta.
  split; [exact Hpage|]. split; [exact Hp|]. split; [exact Hpt|].
  split; [exact Hct|]. split; [exact Hid|].
  split; [by rewrite lookup_insert_ne, lookup_insert_eq by discriminate|].
  split; [by rewrite !lookup_insert_ne, lookup_insert_eq by discriminate|].
  split; [by rewrite lookup_insert_eq|].
  intros key H1 H2 H3. by rewrite !lookup_insert_ne by congruence.
Qed.

Lemma chunk_document_child_origin_witness :
  let env := Demo.env Demo.corpus Demo.chat_ok Demo.ranker_ok in
  let document :=
    mkLoadedDocument
      [mkDocumentPage "Either party may terminate." 1 {[ "page" := VInt 1 ]}]
      "test.pdf" "pdf" 1 in
  let chunked := chunk_document env document in
  exists c, head (child_chunks chunked) = Some c /\
    parent_id c = Some "uuid-0" /\
    c_metadata c !! "parent_id" = Some (VStr "uuid-0") /\
    c_metadata c !! "page" = Some (VInt 1).
Proof.
  intros env document chunked.
  destruct (child_chunks chunked) as [|c cs] eqn:Hcs; [discriminate Hcs|].
  exists c. split; [reflexivity|].
  destruct (chunk_document_child_origin env document c)
    as (page & p & Hpage & Hp & _ & _ & Hid & Hmeta & _ & _ & Hother).
  { fold chunked. rewrite Hcs. left. }
  apply list_elem_of_singleton in Hpage as ->.
  apply list_elem_of_singleton in Hp as ->.
  split; [exact Hid|]. split; [exact Hmeta|].
  rewrite Hother by discriminate. reflexivity.
Defined.

(** X17. Every parent chunk comes from one page of the document: its text is
    a span of that page, its [chunk_type] is [parent], its [filename] is
    the document's, and its other metadata are the page's. *)
Theorem chunk_document_parent_origin (env : Env) (document : LoadedDocument)
    (p : Chunk) :
  let chunked := chunk_document env document in
  p ∈ parent_chunks chunked ->
  exists page,
    page ∈ pages document /\
    c_text p ∈ parent_texts_of env page /\
    c_metadata p !! "chunk_type" = Some (VStr "parent") /\
    c_metadata p !! "filename" = Some (VStr (filename document)) /\
    (forall key, key <> "chunk_type" -> key <> "filename" ->
       c_metadata p !! key = page_metadata page !! key).
Proof.
  intros chunked Hp.
  destruct (chunk_document_ok env document) as (Hparents & _).
  rewrite Forall_forall in Hparents.
  destruct (Hparents p Hp) as (page & Hpage & Hpt & _ & Hmeta).
  exists page. rewrite Hmeta.
  split; [exact Hpage|]. split; [exact Hpt|].
  split; [by rewrite lookup_insert_ne, lookup_insert_eq by discriminate|].
  split; [by rewrite lookup_insert_eq|].
  intros key H1 H2. by rewrite !lookup_insert_ne by congruence.
Qed.

Lemma chunk_document_parent_origin_witness :
  let env := Demo.env Demo.corpus Demo.chat_ok Demo.ranker_ok in
  let document :=
    mkLoadedDocument
      [mkDocumentPage "Either party may terminate." 1 {[ "page" := VInt 1 ]}]
      "test.pdf" "pdf" 1 in
  let chunked := chunk_document env document in
  exists p, head (parent_chunks chunked) = Some p /\
    c_text p = "Either party may terminate." /\
    c_metadata p !! "chunk_type" = Some (VStr "parent").
Proof.
  intros env document chunked.
  destruct (parent_chunks chunked) as [|p ps] eqn:Hps; [discriminate Hps|].
  exists p. split; [reflexivity|].
  destruct (chunk_document_parent_origin env document p)
    as (page & Hpage & Hpt & Htype & _).
  { fold chunked. rewrite Hps. left. }
  split; [|exact Htype].
  apply list_elem_of_singleton in Hpage as ->.
  apply list_elem_of_singleton in Hpt. exact Hpt.
Defined.

End ChunkingMoreProps.

(** ** Storing the chunks *)

Module EmbeddingsProps.
Import Chunking Embeddings.

Lemma concat_batches {A} (l : list A) : forall m,
  length l <= m * batch_size ->
  concat ((fun i => take batch_size (drop i l)) <$> ((fun j => j * batch_size) <$> seq 0 m))
  = l.
Proof.
  intros m. revert l. induction m as [|m IH]; intros l Hlen.
  - destruct l; [reflexivity | simpl in Hlen; lia].
  - rewrite <- cons_seq, <- fmap_S_seq, !fmap_cons, <- !list_fmap_compose.
    cbn [concat]. rewrite drop_0.
    transitivity (take batch_size l ++ drop batch_size l); [|apply take_drop].
    f_equal. rewrite <- (IH (drop batch_size l)) by (rewrite length_drop; lia).
    rewrite <- !list_fmap_compose.
    f_equal. apply list_fmap_ext. intros _ j _. unfold compose.
    rewrite drop_drop. reflexivity.
Qed.

Lemma range_step_covers n : n <= (n + batch_size - 1) / batch_size * batch_size.
Proof.
  unfold batch_size.
  pose proof (Nat.div_mod_eq (n + 100 - 1) 100) as Hdiv.
  pose proof (Nat.mod_upper_bound (n + 100 - 1) 100) as Hmod. lia.
Qed.

Lemma range_step_lt n i : i ∈ range_step n batch_size -> i < n.
Proof.
  unfold range_step. intros H. apply list_elem_of_fmap in H as (j & -> & Hj).
  apply elem_of_seq in Hj. unfold batch_size in *.
  pose proof (Nat.div_mod_eq (n + 100 - 1) 100) as Hdiv.
  pose proof (Nat.mod_upper_bound (n + 100 - 1) 100) as Hmod. lia.
Qed.

Lemma add_outcome senv call written :
  add senv call written =
  match collection_add senv call with
  | Ok _ => (Ok tt, written ++ [call])
  | Raise e => (Raise e, written)
  end.
Proof.
  unfold add, mbind, M_bind, lift, get, put.
  destruct (collection_add senv call) as [[]|e]; reflexivity.
Qed.

Lemma store_batch_outcome senv texts ids metadatas total i written :
  store_batch senv texts ids metadatas total i written =
  match embed_documents senv (take batch_size (drop i texts)) with
  | Raise e => (Raise e, written)
  | Ok embeddings =>
      let call := mkAddCall (CHROMA_COLLECTION_NAME senv) (take batch_size (drop i ids))
                    (Some embeddings) (take batch_size (drop i texts))
                    (take batch_size (drop i metadatas)) in
      match collection_add senv call with
      | Ok _ => (Ok (total + length (take batch_size (drop i texts))), written ++ [call])
      | Raise e => (Raise e, written)
      end
  end.
Proof.
  unfold store_batch, mbind, M_bind, lift.
  destruct (embed_documents senv _) as [embeddings|e]; [|reflexivity].
  cbn zeta. rewrite add_outcome. destruct (collection_add senv _); reflexivity.
Qed.

(** The batch loop: the calls written are batches for a prefix of the
    starting rows, for all of them when the loop returns. *)
Lemma store_batches_spec senv texts ids metadatas :
  length texts = length ids -> length metadatas = length ids ->
  forall starts total written,
  (forall i, i ∈ starts -> i < length ids) ->
  exists done batches,
    (store_batches senv texts ids metadatas starts total written).2
      = written ++ batches /\
    done `prefix_of` starts /\
    Forall (child_batch senv) batches /\
    add_ids <$> batches = (fun i => take batch_size (drop i ids)) <$> done /\
    add_documents <$> batches = (fun i => take batch_size (drop i texts)) <$> done /\
    add_metadatas <$> batches = (fun i => take batch_size (drop i metadatas)) <$> done /\
    (forall n, (store_batches senv texts ids metadatas starts total written).1 = Ok n ->
       done = starts /\
       n = total + length (concat ((fun i => take batch_size (drop i texts)) <$> starts))).
Proof.
  intros Htexts Hmetas. induction starts as [|i starts IH]; intros total written Hlt.
  - exists [], []. cbn. rewrite app_nil_r.
    split; [done|]. split; [done|]. split; [constructor|].
    split; [done|]. split; [done|]. split; [done|].
    intros n [= <-]. split; [done | lia].
  - cbn [store_batches]. unfold mbind, M_bind. rewrite store_batch_outcome.
    destruct (embed_documents senv _) as [embeddings|e] eqn:Hembed.
    2:{ exists [], []. cbn. rewrite app_nil_r.
        split; [done|]. split; [apply prefix_nil|]. split; [constructor|].
        split; [done|]. split; [done|]. split; [done|]. discriminate. }
    cbn zeta. destruct (collection_add senv _) as [[]|e].
    2:{ exists [], []. cbn. rewrite app_nil_r.
        split; [done|]. split; [apply prefix_nil|]. split; [constructor|].
        split; [done|]. split; [done|]. split; [done|]. discriminate. }
    destruct (IH (total + length (take batch_size (drop i texts)))
                 (written ++ [mkAddCall (CHROMA_COLLECTION_NAME senv)
                                (take batch_size (drop i ids)) (Some embeddings)
                                (take batch_size (drop i texts))
                                (take batch_size (drop i metadatas))]))
      as (done & batches & Hlog & Hpre & Hb & Hids & Hdocs & Hmeta & Hok).
    { intros j Hj. apply Hlt. by right. }
    eexists (i :: done), (_ :: batches).
    split; [rewrite Hlog, <- app_assoc; reflexivity|].
    split; [by apply prefix_cons|].
    split.
    { constructor; [|exact Hb]. assert (i < length ids) by (apply Hlt; left).
      split; [reflexivity|]. cbn [add_ids add_documents add_metadatas add_embeddings].
      rewrite !length_take, !length_drop. unfold batch_size.
      split; [lia|]. split; [lia|]. split; [lia|]. by exists embeddings. }
    split; [by rewrite !fmap_cons, Hids|].
    split; [by rewrite !fmap_cons, Hdocs|].
    split; [by rewrite !fmap_cons, Hmeta|].
    intros n Hn. destruct (Hok n Hn) as [-> ->]. split; [done|].
    rewrite fmap_cons. cbn [concat]. rewrite length_app. lia.
Qed.

Lemma embed_and_store_skip senv chunked_doc written existing :
  collection_get_where_filename senv (cd_filename chunked_doc) = Ok existing ->
  existing <> [] \/ child_chunks chunked_doc = [] ->
  embed_and_store senv chunked_doc written = (Ok 0, written).
Proof.
  intros Hget Hskip. unfold embed_and_store, mbind, M_bind, lift. rewrite Hget.
  destruct existing as [|id ids]; [|reflexivity].
  destruct Hskip as [H|H]; [done|]. by rewrite H.
Qed.

(** X18. [embed_and_store] writes nothing and returns [0] when the store
    already holds chunks of a file of that name, and when the document has
    no child chunk (its parent chunks are then not stored either); in both
    cases the embedding model is not called. *)
Theorem embed_and_store_skips (senv : StoreEnv) (chunked_doc : ChunkedDocument)
    (written : list AddCall) (existing : list string) :
  collection_get_where_filename senv (cd_filename chunked_doc) = Ok existing ->
  existing <> [] \/ child_chunks chunked_doc = [] ->
  embed_and_store senv chunked_doc written = (Ok 0, written).
Proof.
  intros Hget Hskip. unfold embed_and_store, mbind, M_bind, lift. rewrite Hget.
  destruct existing as [|id ids]; [|reflexivity].
  destruct Hskip as [H|H]; [done|]. by rewrite H.
Qed.

Lemma embed_and_store_skips_witness :
  embed_and_store (DemoStore.senv DemoStore.embed_ok) (DemoStore.chunked 0) []
  = (Ok 0, []).
Proof.
  apply (embed_and_store_skips (DemoStore.senv DemoStore.embed_ok)
           (DemoStore.chunked 0) [] []).
  - reflexivity.
  - right. reflexivity.
Defined.

(** The outcome of [embed_and_store] on a document that is not in the store
    and has a child chunk. *)
Lemma embed_and_store_run senv chunked_doc written :
  collection_get_where_filename senv (cd_filename chunked_doc) = Ok [] ->
  child_chunks chunked_doc <> [] ->
  exists batches,
    Forall (child_batch senv) batches /\
    concat (add_ids <$> batches)
      `prefix_of` (c_chunk_id <$> child_chunks chunked_doc) /\
    match embed_and_store senv chunked_doc written with
    | (Ok n, written') =>
        n = length (child_chunks chunked_doc) /\
        written' = written ++ batches ++ parent_calls (parent_chunks chunked_doc) /\
        concat (add_ids <$> batches) = c_chunk_id <$> child_chunks chunked_doc /\
        concat (add_documents <$> batches) = c_text <$> child_chunks chunked_doc /\
        concat (add_metadatas <$> batches) = c_metadata <$> child_chunks chunked_doc
    | (Raise _, written') => written' = written ++ batches
    end.
Proof.
  intros Hget Hne. unfold embed_and_store, mbind, M_bind, lift. rewrite Hget.
  destruct (child_chunks chunked_doc) as [|c0 cs] eqn:Hcs; [done|]. rewrite <- Hcs.
  set (children := child_chunks chunked_doc).
  destruct (store_batches_spec senv (map c_text children) (map c_chunk_id children)
              (map c_metadata children)
              ltac:(by rewrite !length_map) ltac:(by rewrite !length_map)
              (range_step (length (map c_text children)) batch_size) 0 written)
    as (done & batches & Hlog & Hpre & Hb & Hids & Hdocs & Hmeta & Hok).
  { intros i Hi. apply range_step_lt in Hi. by rewrite !length_map in *. }
  exists batches. split; [exact Hb|].
  assert (Hall : forall A (l : list A), length l = length children ->
    concat ((fun i => take batch_size (drop i l))
              <$> range_step (length (map c_text children)) batch_size) = l).
  { intros A l Hl. unfold range_step. apply concat_batches.
    rewrite length_map, Hl. apply range_step_covers. }
  split.
  { rewrite Hids. destruct Hpre as [rest Hrest].
    exists (concat ((fun i => take batch_size (drop i (map c_chunk_id children))) <$> rest)).
    rewrite <- concat_app, <- fmap_app, <- Hrest. symmetry. apply Hall, length_map. }
  destruct (store_batches senv _ _ _ _ 0 written) as [[total|e] written1];
    simpl in Hlog, Hok; subst written1; [|done].
  destruct (Hok total eq_refl) as [-> ->].
  rewrite Hall in * by apply length_map.
  assert (Hfinal : forall written2,
    written2 = written ++ batches ++ parent_calls (parent_chunks chunked_doc) ->
    length (map c_text children) = length children /\
    written2 = written ++ batches ++ parent_calls (parent_chunks chunked_doc) /\
    concat (add_ids <$> batches) = c_chunk_id <$> children /\
    concat (add_documents <$> batches) = c_text <$> children /\
    concat (add_metadatas <$> batches) = c_metadata <$> children).
  { intros written2 ->. rewrite Hids, Hdocs, Hmeta, !Hall by apply length_map.
    by rewrite length_map. }
  destruct (parent_chunks chunked_doc) as [|p0 ps] eqn:Hps.
  - cbn. apply Hfinal. cbn. by rewrite app_nil_r.
  - rewrite add_outcome. destruct (collection_add senv _) as [[]|e]; [|done].
    cbn. apply Hfinal. cbn. by rewrite <- app_assoc.
Qed.

(** X19. When [embed_and_store] returns for a document that is not yet in
    the store and has child chunks, it returns the number of child chunks,
    and what it wrote is: batches of at most 100 rows to the child
    collection, each with the embeddings of its own texts, which together
    hold the ids, texts and metadata of all child chunks in order; then one
    [add] of all parent chunks to the parent collection, none if there is no
    parent. *)
Theorem embed_and_store_stores_all (senv : StoreEnv) (chunked_doc : ChunkedDocument)
    (written written' : list AddCall) (n : nat) :
  collection_get_where_filename senv (cd_filename chunked_doc) = Ok [] ->
  child_chunks chunked_doc <> [] ->
  embed_and_store senv chunked_doc written = (Ok n, written') ->
  n = length (child_chunks chunked_doc) /\
  exists batches,
    written' = written ++ batches ++ parent_calls (parent_chunks chunked_doc) /\
    Forall (child_batch senv) batches /\
    concat (add_ids <$> batches) = c_chunk_id <$> child_chunks chunked_doc /\
    concat (add_documents <$> batches) = c_text <$> child_chunks chunked_doc /\
    concat (add_metadatas <$> batches) = c_metadata <$> child_chunks chunked_doc.
Proof.
  intros Hget Hne Hrun.
  destruct (embed_and_store_run senv chunked_doc written Hget Hne)
    as (batches & Hb & _ & Hout).
  rewrite Hrun in Hout. destruct Hout as (-> & -> & Hids & Hdocs & Hmeta).
  split; [done|]. by exists batches.
Qed.

Lemma concat_batches_take {A} (l : list A) : forall m,
  concat ((fun i => take batch_size (drop i l)) <$> ((fun j => j * batch_size) <$> seq 0 m))
  = take (m * batch_size) l.
Proof.
  intros m. revert l. induction m as [|m IH]; intros l.
  - reflexivity.
  - rewrite <- cons_seq, <- fmap_S_seq, !fmap_cons, <- !list_fmap_compose.
    cbn [concat]. rewrite drop_0.
    change (S m * batch_size) with (batch_size + m * batch_size).
    rewrite <- take_take_drop. f_equal.
    rewrite <- (IH (drop batch_size l)), <- !list_fmap_compose.
    f_equal. apply list_fmap_ext. intros _ j _. unfold compose.
    rewrite drop_drop. reflexivity.
Qed.

(** The batch loop writes the batches of a prefix [done] of the starting
    rows, each embedded and accepted; it returns when that is all of them,
    and raises the error of the first batch that fails. *)
Lemma store_batches_log senv children starts : forall total written,
  exists done batches,
    (store_batches senv (map c_text children) (map c_chunk_id children)
       (map c_metadata children) starts total written).2 = written ++ batches /\
    Forall2 (batch_stored senv children) done batches /\
    match (store_batches senv (map c_text children) (map c_chunk_id children)
             (map c_metadata children) starts total written).1 with
    | Ok _ => done = starts
    | Raise e => exists i rest, starts = done ++ i :: rest /\ batch_fails senv children i e
    end.
Proof.
  induction starts as [|i starts IH]; intros total written.
  - exists [], []. cbn. rewrite app_nil_r. split; [done|]. split; [constructor | done].
  - cbn [store_batches]. unfold mbind, M_bind. rewrite store_batch_outcome.
    destruct (embed_documents senv (take batch_size (drop i (map c_text children))))
      as [embeddings|e] eqn:Hembed.
    2:{ exists [], []. cbn. rewrite app_nil_r. split; [done|]. split; [constructor|].
        exists i, starts. split; [done|]. unfold batch_fails.
        by rewrite Hembed. }
    cbn zeta.
    destruct (collection_add senv _) as [[]|e] eqn:Hadd.
    2:{ exists [], []. cbn. rewrite app_nil_r. split; [done|]. split; [constructor|].
        exists i, starts. split; [done|]. unfold batch_fails.
        rewrite Hembed. exact Hadd. }
    destruct (IH (total + length (take batch_size (drop i (map c_text children))))
                 (written ++ [batch_at senv children i embeddings]))
      as (done & batches & Hlog & Hdone & Hout).
    unfold batch_at in Hlog, Hout.
    exists (i :: done), (batch_at senv children i embeddings :: batches).
    split; [rewrite Hlog, <- app_assoc; reflexivity|].
    split.
    { constructor; [|exact Hdone]. exists embeddings. split; [exact Hembed|].
      split; [reflexivity | exact Hadd]. }
    destruct (store_batches senv _ _ _ starts _ _).1 as [n|e].
    + by rewrite Hout.
    + destruct Hout as (j & rest & -> & Hfail). by exists j, rest.
Qed.

Lemma batch_stored_columns senv children done batches :
  Forall2 (batch_stored senv children) done batches ->
  Forall (fun call => collection_add senv call = Ok tt) batches /\
  add_ids <$> batches
    = (fun i => take batch_size (drop i (c_chunk_id <$> children))) <$> done /\
  add_documents <$> batches
    = (fun i => take batch_size (drop i (c_text <$> children))) <$> done /\
  add_metadatas <$> batches
    = (fun i => take batch_size (drop i (c_metadata <$> children))) <$> done.
Proof.
  induction 1 as [|i call done batches (embeddings & Hembed & -> & Hadd) _ IH].
  - split; [constructor | done].
  - destruct IH as (Hacc & Hids & Hdocs & Hmeta). split; [by constructor|].
    rewrite !fmap_cons, Hids, Hdocs, Hmeta. done.
Qed.

Lemma batch_stored_child_batch senv children done batches :
  (forall i, i ∈ done -> i < length children) ->
  Forall2 (batch_stored senv children) done batches ->
  Forall (child_batch senv) batches.
Proof.
  intros Hlt H.
  induction H as [|i call done batches (embeddings & Hembed & -> & Hadd) _ IH].
  - constructor.
  - constructor; [|apply IH; intros j Hj; apply Hlt; by right].
    assert (i < length children) by (apply Hlt; left).
    split; [reflexivity|]. cbn [batch_at add_ids add_documents add_metadatas add_embeddings].
    rewrite !length_take, !length_drop, !length_fmap. unfold batch_size.
    split; [lia|]. split; [lia|]. split; [lia|]. by exists embeddings.
Qed.

Lemma range_step_prefix n done i rest :
  range_step n batch_size = done ++ i :: rest ->
  done = (fun j => j * batch_size) <$> seq 0 (length done) /\
  i = length done * batch_size.
Proof.
  unfold range_step. intros H.
  set (m := (n + batch_size - 1) / batch_size) in *.
  assert (Hlen : length done < m).
  { apply (f_equal length) in H. rewrite length_fmap, length_seq, length_app in H.
    simpl in H. lia. }
  split.
  - apply (f_equal (take (length done))) in H.
    rewrite take_app_length, <- fmap_take, take_seq, Nat.min_l in H by lia.
    symmetry. exact H.
  - apply (f_equal (fun l => l !! length done)) in H.
    rewrite list_lookup_fmap, lookup_seq_lt in H by exact Hlen.
    rewrite list_lookup_middle in H by reflexivity.
    simpl in H. by injection H as <-.
Qed.

(** X20. When [embed_and_store] raises, nothing is rolled back and the
    parents are not stored: what it wrote is the batches that the store
    accepted before the failing step, which hold exactly the first
    [100 * m] child chunks, [m] being their number.  The failing step is
    the look-up of the file name ([m = 0]), the embedding or the [add] of
    the batch that starts at row [100 * m], or, after the batches of all
    child chunks, the [add] of the parent chunks. *)
Theorem embed_and_store_failure_keeps_batches (senv : StoreEnv)
    (chunked_doc : ChunkedDocument) (written written' : list AddCall) (e : exn) :
  embed_and_store senv chunked_doc written = (Raise e, written') ->
  let children := child_chunks chunked_doc in
  exists batches,
    let rows := length batches * batch_size in
    written' = written ++ batches /\
    Forall (child_batch senv) batches /\
    Forall (fun call => collection_add senv call = Ok tt) batches /\
    concat (add_ids <$> batches) = take rows (c_chunk_id <$> children) /\
    concat (add_documents <$> batches) = take rows (c_text <$> children) /\
    concat (add_metadatas <$> batches) = take rows (c_metadata <$> children) /\
    (collection_get_where_filename senv (cd_filename chunked_doc) = Raise e /\
     batches = [] \/
     rows < length children /\ batch_fails senv children rows e \/
     length children <= rows /\
     exists call, parent_calls (parent_chunks chunked_doc) = [call] /\
                  collection_add senv call = Raise e).
Proof.
  intros Hrun children.
  unfold embed_and_store, mbind, M_bind, lift in Hrun.
  destruct (collection_get_where_filename senv (cd_filename chunked_doc))
    as [existing|e'] eqn:Hget.
  2:{ injection Hrun as <- <-. exists []. cbn. rewrite app_nil_r.
      split; [done|]. split; [constructor|]. split; [constructor|].
      split; [done|]. split; [done|]. split; [done|]. by left. }
  destruct existing as [|id ids]; [|discriminate].
  fold children in Hrun.
  destruct children as [|c0 cs] eqn:Hcs; [discriminate|]. rewrite <- Hcs in *.
  clear c0 cs Hcs.
  destruct (store_batches_log senv children
              (range_step (length (map c_text children)) batch_size) 0 written)
    as (done & batches & Hlog & Hdone & Hout).
  destruct (batch_stored_columns senv children done batches Hdone)
    as (Hacc & Hids & Hdocs & Hmeta).
  assert (Hlen : length batches = length done)
    by (symmetry; eapply Forall2_length, Hdone).
  destruct (store_batches senv _ _ _ _ 0 written) as [[total|e1] written1];
    simpl in Hlog, Hout; subst written1.
  - (* every batch was stored: the parents' [add] raised *)
    subst done.
    destruct (parent_chunks chunked_doc) as [|p0 ps] eqn:Hps; [discriminate|].
    rewrite add_outcome in Hrun.
    destruct (collection_add senv _) as [[]|e2] eqn:Hadd; [discriminate|].
    injection Hrun as <- <-. exists batches. cbn zeta.
    assert (Hrows : length children <= length batches * batch_size).
    { rewrite Hlen. unfold range_step. rewrite length_fmap, length_seq, length_map.
      apply range_step_covers. }
    split; [done|]. split.
    { eapply batch_stored_child_batch; [|exact Hdone].
      intros i Hi. apply range_step_lt in Hi. by rewrite length_map in Hi. }
    split; [exact Hacc|].
    rewrite Hids, Hdocs, Hmeta. unfold range_step.
    rewrite !concat_batches_take, length_map.
    pose proof (range_step_covers (length children)) as Hcover.
    rewrite !take_ge
      by (rewrite ?length_fmap, ?length_map; first [exact Hcover | exact Hrows]).
    split; [done|]. split; [done|]. split; [done|].
    right. right. split; [exact Hrows|]. eexists. split; [reflexivity | exact Hadd].
  - (* the batch at row [i] failed *)
    injection Hrun as <- <-. destruct Hout as (i & rest & Hstarts & Hfail).
    destruct (range_step_prefix _ _ _ _ Hstarts) as [Hdone_eq Hi].
    assert (Hi_lt : i < length children).
    { rewrite <- (length_map c_text). apply range_step_lt. rewrite Hstarts.
      apply elem_of_app. right. left. }
    exists batches. cbn zeta. rewrite Hlen.
    split; [done|]. split.
    { eapply batch_stored_child_batch; [|exact Hdone].
      intros j Hj. rewrite <- (length_map c_text). apply range_step_lt.
      rewrite Hstarts. apply elem_of_app. by left. }
    split; [exact Hacc|].
    rewrite Hids, Hdocs, Hmeta, Hdone_eq, !concat_batches_take, length_fmap, length_seq.
    split; [done|]. split; [done|]. split; [done|].
    right. left. rewrite <- Hi. by split.
Qed.

Lemma embed_and_store_stores_all_witness :
  let senv := DemoStore.senv DemoStore.embed_ok in
  let out := embed_and_store senv (DemoStore.chunked 150) [] in
  out.1 = Ok 150 /\
  exists batches,
    out.2 = [] ++ batches ++ parent_calls (parent_chunks (DemoStore.chunked 150)) /\
    Forall (child_batch senv) batches /\
    concat (add_ids <$> batches) = c_chunk_id <$> child_chunks (DemoStore.chunked 150).
Proof.
  intros senv out.
  destruct (embed_and_store_stores_all senv (DemoStore.chunked 150) [] out.2 150)
    as (_ & batches & Hlog & Hb & Hids & _).
  - reflexivity.
  - discriminate.
  - vm_compute. reflexivity.
  - split; [vm_compute; reflexivity|]. by exists batches.
Defined.

Lemma embed_and_store_failure_keeps_batches_witness :
  let senv := DemoStore.senv DemoStore.embed_first_batch_only in
  let children := child_chunks (DemoStore.chunked 150) in
  let out := embed_and_store senv (DemoStore.chunked 150) [] in
  length out.2 = 1 /\
  exists batches,
    let rows := length batches * batch_size in
    out.2 = [] ++ batches /\
    Forall (child_batch senv) batches /\
    Forall (fun call => collection_add senv call = Ok tt) batches /\
    concat (add_ids <$> batches) = take rows (c_chunk_id <$> children) /\
    concat (add_documents <$> batches) = take rows (c_text <$> children) /\
    concat (add_metadatas <$> batches) = take rows (c_metadata <$> children) /\
    (collection_get_where_filename senv (cd_filename (DemoStore.chunked 150))
       = Raise (Exception "RateLimitError") /\
     batches = [] \/
     rows < length children /\
     batch_fails senv children rows (Exception "RateLimitError") \/
     length children <= rows /\
     exists call, parent_calls (parent_chunks (DemoStore.chunked 150)) = [call] /\
                  collection_add senv call = Raise (Exception "RateLimitError")).
Proof.
  intros senv children out. split; [vm_compute; reflexivity|].
  apply (embed_and_store_failure_keeps_batches senv (DemoStore.chunked 150) [] out.2
           (Exception "RateLimitError")).
  vm_compute. reflexivity.
Defined.

Lemma embed_and_store_count senv chunked_doc written n written' :
  embed_and_store senv chunked_doc written = (Ok n, written') ->
  n = 0 /\ written' = written \/ n = length (child_chunks chunked_doc).
Proof.
  intros Hrun.
  destruct (collection_get_where_filename senv (cd_filename chunked_doc))
    as [existing|e'] eqn:Hget.
  - destruct existing as [|id ids].
    + destruct (child_chunks chunked_doc) as [|c0 cs] eqn:Hcs.
      * rewrite (embed_and_store_skip _ _ _ [] Hget) in Hrun by (by right).
        injection Hrun as <- <-. by left.
      * destruct (embed_and_store_run senv chunked_doc written Hget)
          as (batches & _ & _ & Hout); [by rewrite Hcs|].
        rewrite Hrun in Hout. destruct Hout as [-> _]. right. by rewrite Hcs.
    + rewrite (embed_and_store_skip _ _ _ (id :: ids) Hget) in Hrun by (by left).
      injection Hrun as <- <-. by left.
  - unfold embed_and_store, mbind, M_bind, lift in Hrun. rewrite Hget in Hrun.
    discriminate.
Qed.

(** X21. When [process_document] returns, it returns the loaded document,
    its chunking, and the number of chunks stored, which is either [0] with
    nothing written (the file was already ingested, or has no child chunk)
    or the number of child spans of all the parent spans of all the
    pages. *)
Theorem process_document_stores_children (env : Env) (senv : StoreEnv)
    (loaded : result LoadedDocument) (written written' : list AddCall)
    (doc : LoadedDocument) (chunked : ChunkedDocument) (stored : nat) :
  process_document env senv loaded written = (Ok (doc, chunked, stored), written') ->
  loaded = Ok doc /\
  chunked = chunk_document env doc /\
  (stored = 0 /\ written' = written \/
   stored = length (child_chunks chunked) /\
   stored = length (concat (child_texts_of env
                              <$> concat (parent_texts_of env <$> pages doc)))).
Proof.
  unfold process_document, mbind, M_bind, lift.
  destruct loaded as [doc'|e]; [|discriminate].
  destruct (embed_and_store senv (chunk_document env doc') written)
    as [[n|e] written1] eqn:Hrun; [|discriminate].
  intros [= <- <- <- <-]. split; [done|]. split; [done|].
  destruct (embed_and_store_count _ _ _ _ _ Hrun) as [H|H]; [by left|].
  right. split; [exact H|].
  destruct (ChunkingMoreProps.chunk_document_ok env doc') as (_ & _ & _ & Hct & _).
  rewrite H. change (child_chunks (chunk_document env doc'))
    with (acc_children (fold_left (add_page env doc') (pages doc') (mkAcc [] [] 0))).
  by rewrite <- (length_fmap c_text), Hct.
Qed.

Lemma process_document_stores_children_witness :
  let env := Demo.env Demo.corpus Demo.chat_ok Demo.ranker_ok in
  let senv := DemoStore.senv DemoStore.embed_ok in
  let doc :=
    mkLoadedDocument [mkDocumentPage "Either party may terminate." 1 ∅] "test.pdf" "pdf" 1 in
  let out := process_document env senv (Ok doc) [] in
  out.1 = Ok (doc, chunk_document env doc, 2) /\
  (2 = 0 /\ out.2 = [] \/
   2 = length (child_chunks (chunk_document env doc)) /\
   2 = length (concat (child_texts_of env
                         <$> concat (parent_texts_of env <$> pages doc)))).
Proof.
  intros env senv doc out. split; [vm_compute; reflexivity|].
  refine (proj2 (proj2 (process_document_stores_children env senv (Ok doc) [] out.2
                          doc (chunk_document env doc) 2 _))).
  vm_compute. reflexivity.
Defined.

End EmbeddingsProps.

(** ** The size of the result of [retrieve] *)

Module RetrieveSizeProps.
Import Retriever.

(** X22. For a positive [k], [retrieve] returns at most [k] results, with or
    without a reranker and whatever the relevance model returns. *)
Theorem retrieve_at_most_k (env : Env) (self self' : t) (query : string)
    (k : option Z) (use_hyde use_multi_query : bool) (r : RetrievalResult) :
  retrieve env query k use_hyde use_multi_query self = (Ok r, self') ->
  (0 < int_or k (RETRIEVAL_TOP_K env))%Z ->
  (Z.of_nat (length (results r)) <= int_or k (RETRIEVAL_TOP_K env))%Z.
Proof.
  intros H Hk. apply RetrieverMoreProps.retrieve_inv in H
    as (search_query & merged & hs' & _ & _ & _ & Hstep & _).
  unfold rerank_step, mbind, M_bind, get in Hstep.
  change (reranker (set_hybrid_search hs' self)) with (reranker self) in Hstep.
  destruct (reranker self) as [rr|].
  - destruct (sort_by_score_desc (map snd merged)) as [|c cs] eqn:Hcands.
    + apply mret_Ok in Hstep as [-> _]. rewrite slice_to_nil. simpl. lia.
    + unfold zoom in Hstep.
      destruct (ReRanker.rerank env query (c :: cs) _ rr) as [[rs|e] rr'] eqn:Hrr;
        [|discriminate].
      injection Hstep as <- _. eapply PipelineProps.rerank_length; [exact Hk | exact Hrr].
  - assert (Hrs : results r = slice_to (sort_by_score_desc (map snd merged))
                                (int_or k (RETRIEVAL_TOP_K env))).
    { destruct (sort_by_score_desc (map snd merged));
        apply mret_Ok in Hstep as [-> _]; reflexivity. }
    rewrite Hrs. apply slice_to_length. lia.
Qed.

Lemma retrieve_at_most_k_witness :
  let self := __init__ scenario_env true false true in
  let out := retrieve scenario_env "termination notice" (Some 1%Z) false false self in
  (Z.of_nat (length (results (returned (mkRetrievalResult [] [] 0 0 ∅) out))) <= 1)%Z.
Proof.
  intros self out.
  apply (retrieve_at_most_k scenario_env self out.2 "termination notice" (Some 1%Z)
           false false (returned (mkRetrievalResult [] [] 0 0 ∅) out)).
  - vm_compute. reflexivity.
  - reflexivity.
Defined.

End RetrieveSizeProps.

(** ** The orchestrator's use of retrieval *)

Module OrchestratorProps.
Import Orchestrator.

Lemma is_task_spec t : is_task t = true <-> t ∈ ["risk"; "qa"; "summary"].
Proof.
  unfold is_task. rewrite !orb_true_iff, !String.eqb_eq, !elem_of_cons, elem_of_nil.
  tauto.
Qed.

Lemma route_of_task t :
  t ∈ ["risk"; "qa"; "summary"] ->
  forall state, task_type state = Some t -> route_to_agent state = t +:+ "_agent".
Proof.
  intros Ht state Hstate. unfold route_to_agent. rewrite Hstate. simpl.
  rewrite !elem_of_cons, elem_of_nil in Ht.
  destruct Ht as [->|[->|[->|[]]]]; reflexivity.
Qed.

(** X23. When [classify_task] returns, the task type of the state is one of
    [risk], [qa] and [summary], so that [route_to_agent] then picks the agent
    of that name and never its fallback; no other key of the state has
    changed, and a state that came with one of the three task types is
    returned as it is, without asking the chat model. *)
Theorem classify_task_yields_known_task (env : Env) (state state' : AgentState) :
  classify_task env state = Ok state' ->
  (exists t,
     task_type state' = Some t /\
     t ∈ ["risk"; "qa"; "summary"] /\
     route_to_agent state' = t +:+ "_agent") /\
  (question state' = question state /\ document_id state' = document_id state /\
   context state' = context state /\ page_numbers state' = page_numbers state /\
   agent_result state' = agent_result state /\ agent state' = agent state /\
   error state' = error state) /\
  (forall t, task_type state = Some t -> t ∈ ["risk"; "qa"; "summary"] -> state' = state).
Proof.
  unfold classify_task. intros H.
  destruct (is_task (default "" (task_type state))) eqn:Htask.
  - injection H as <-. apply is_task_spec in Htask.
    destruct (task_type state) as [t|] eqn:Ht; simpl in Htask.
    + split; [|by repeat split]. exists t. split; [done|]. split; [done|].
      by apply route_of_task.
    + rewrite !elem_of_cons, elem_of_nil in Htask.
      destruct Htask as [H|[H|[H|[]]]]; discriminate H.
  - apply result_bind_Ok in H as (response & _ & H). injection H as <-.
    set (classified := str_lower env (str_strip env (str_or response "qa"))).
    assert (Hin : (if is_task classified then classified else "qa")
                  ∈ ["risk"; "qa"; "summary"]).
    { destruct (is_task classified) eqn:Hc; [by apply is_task_spec|]. right. left. }
    split; [|split].
    + eexists. split; [reflexivity|]. split; [exact Hin|]. by apply route_of_task.
    + by repeat split.
    + intros t Ht Hin'. rewrite Ht in Htask. simpl in Htask.
      apply is_task_spec in Hin'. congruence.
Qed.

Lemma classify_task_yields_known_task_witness :
  let env := Demo.env Demo.corpus Demo.chat_ok Demo.ranker_ok in
  let state := mkAgentState None (Some "Is there a penalty?") None None None None None None in
  exists t,
    task_type (set_task_type "qa" state) = Some t /\
    t ∈ ["risk"; "qa"; "summary"] /\
    route_to_agent (set_task_type "qa" state) = t +:+ "_agent".
Proof.
  intros env state.
  refine (proj1 (classify_task_yields_known_task env state (set_task_type "qa" state) _)).
  vm_compute. reflexivity.
Defined.

Lemma add_page_numbers_spec results : forall pages,
  NoDup pages ->
  NoDup (fold_left add_page_number results pages) /\
  (forall p, p ∈ fold_left add_page_number results pages <->
             p ∈ pages \/ page_of results p).
Proof.
  unfold page_of. induction results as [|r results IH]; intros pages ND.
  - split; [exact ND|]. intros p. split; [by left|].
    intros [H|(r & Hr & _)]; [done | inversion Hr].
  - cbn [fold_left].
    assert (Hstep : NoDup (add_page_number pages r) /\
      forall p, p ∈ add_page_number pages r <->
        p ∈ pages \/ (sr_metadata r !! "page" = Some p /\ truthy p = true)).
    { unfold add_page_number.
      destruct (sr_metadata r !! "page") as [page|] eqn:Hpage;
        [|split; [done|]; intros p; split; [by left | intros [H|[H _]]; done]].
      destruct (truthy page) eqn:Ht; simpl.
      - destruct (bool_decide (page ∈ pages)) eqn:Hin; simpl.
        + apply bool_decide_eq_true in Hin. split; [done|]. intros p.
          split; [by left|]. intros [H|[[= <-] _]]; done.
        + apply bool_decide_eq_false in Hin. split.
          * apply NoDup_app. split; [done|]. split; [|apply NoDup_singleton].
            intros x Hx Hx'. apply list_elem_of_singleton in Hx' as ->. done.
          * intros p. rewrite elem_of_app, list_elem_of_singleton. split.
            -- intros [H| ->]; [by left | by right].
            -- intros [H|[[= <-] _]]; [by left | by right].
      - split; [done|]. intros p. split; [by left|].
        intros [H|[[= <-] H]]; [done | congruence]. }
    destruct Hstep as [ND' Hmem]. destruct (IH _ ND') as [ND'' Hmem'].
    split; [exact ND''|]. intros p. rewrite Hmem', Hmem. split.
    + intros [[H|[Hp Ht]]|(r' & Hr' & H)]; [by left | |].
      * right. exists r. split; [left | done].
      * right. exists r'. split; [by right | done].
    + intros [H|(r' & Hr' & Hp & Ht)]; [by left; left|].
      apply elem_of_cons in Hr' as [->|Hr'].
      * left. by right.
      * right. by exists r'.
Qed.

Lemma context_part_resolved env results r :
  r ∈ results ->
  context_part
    {| Retriever.results := results; Retriever.expanded_queries := [];
       Retriever.latency_ms := 0; Retriever.total_candidates := 0;
       Retriever.parent_context := Retriever._get_parent_context env results |} r =
  match sr_metadata r !! "parent_id" with
  | Some parent_id =>
      if truthy parent_id then default (text r) (stored_parent env parent_id)
      else text r
  | None => text r
  end.
Proof.
  intros Hr. unfold context_part. cbn [Retriever.parent_context].
  destruct (sr_metadata r !! "parent_id") as [pid|] eqn:Hpid; [|done].
  destruct (truthy pid) eqn:Ht; [|done].
  rewrite RetrieverMoreProps.parent_context_lookup.
  rewrite decide_True by (by exists r). by destruct (stored_parent env pid).
Qed.

(** X24. When [retrieve_context] returns, a state that came with a non-empty
    context is returned as it is (nothing is retrieved); otherwise the state
    gets the page numbers of the retrieved results, each truthy [page] once,
    and a context made of one part per result in rank order, the part being
    the text that the parent store holds for the result's [parent_id] when
    there is one and the result's own text otherwise; no other key
    changes. *)
Theorem retrieve_context_builds_context (env : Env) (state state' : AgentState) :
  retrieve_context env state = Ok state' ->
  match context state with
  | Some c => c <> "" -> state' = state
  | None => True
  end /\
  (default "" (context state) = "" ->
   exists query result self' pages,
     (Retriever.retrieve env query (Some (RETRIEVAL_TOP_K env)) false false
        (Retriever.__init__ env true false true)) = (Ok result, self') /\
     state' = set_context
                (str_join context_separator
                   (map (fun r =>
                           match sr_metadata r !! "parent_id" with
                           | Some parent_id =>
                               if truthy parent_id
                               then default (text r) (stored_parent env parent_id)
                               else text r
                           | None => text r
                           end)
                        (Retriever.results result)))
                pages state /\
     NoDup pages /\
     (forall p, p ∈ pages <-> page_of (Retriever.results result) p)).
Proof.
  unfold retrieve_context. intros H. split.
  - destruct (context state) as [c|]; [|done]. intros Hc. simpl in H.
    apply String.eqb_neq in Hc. rewrite Hc in H. by injection H as <-.
  - intros Hc. rewrite Hc in H. simpl in H.
    match type of H with
    | (Retriever.retrieve env ?q _ _ _ _).1 ≫= _ = _ => set (query := q) in *
    end.
    destruct (Retriever.retrieve env query (Some (RETRIEVAL_TOP_K env)) false false
                (Retriever.__init__ env true false true))
      as [[result|e] self'] eqn:Hrun; [|discriminate].
    simpl in H. injection H as <-.
    destruct (add_page_numbers_spec (Retriever.results result) [] (NoDup_nil_2))
      as [ND Hmem].
    exists query, result, self', (fold_left add_page_number (Retriever.results result) []).
    split; [done|]. split; [|split; [exact ND|]].
    + f_equal. f_equal. apply list_fmap_ext. intros i r Hr.
      apply RetrieverMoreProps.retrieve_inv in Hrun
        as (_ & _ & _ & _ & _ & _ & _ & _ & Hctx).
      rewrite <- (context_part_resolved env (Retriever.results result) r)
        by (eapply list_elem_of_lookup_2, Hr).
      unfold context_part. cbn [Retriever.parent_context]. by rewrite Hctx.
    + intros p. rewrite Hmem. split; [intros [H|H]; [inversion H | done] | by right].
Qed.

Lemma retrieve_context_builds_context_witness :
  let state := mkAgentState (Some "qa") (Some "termination notice") None None
                 None None None None in
  let state' := match retrieve_context scenario_env state with
                | Ok s => s
                | Raise _ => state
                end in
  retrieve_context scenario_env state = Ok state' /\
  exists pages, page_numbers state' = Some pages /\ NoDup pages.
Proof.
  intros state state'.
  assert (Hrun : retrieve_context scenario_env state = Ok state')
    by (vm_compute; reflexivity).
  split; [exact Hrun|].
  destruct (proj2 (retrieve_context_builds_context scenario_env state state' Hrun))
    as (query & result & self' & pages & _ & Hstate & ND & _); [reflexivity|].
  exists pages. split; [by rewrite Hstate | exact ND].
Defined.

End OrchestratorProps.

(** ** Retrieval metrics *)

Module MetricsProps.
Import Metrics.
Local Open Scope Q_scope.

Lemma reciprocal_rank_bounds env truth retrieved : forall rank,
  (1 <= rank)%nat ->
  0 <= reciprocal_rank env truth retrieved rank /\
  reciprocal_rank env truth retrieved rank
    <= (if existsb (matches env truth) retrieved then 1 else 0).
Proof.
  induction retrieved as [|chunk retrieved IH]; intros rank Hrank; simpl.
  - split; apply Qle_refl.
  - destruct (matches env truth chunk); simpl.
    + assert (Hpos : 0 < inject_Z (Z.of_nat rank)).
      { rewrite <- (Zlt_Qlt 0). lia. }
      assert (Hone : 1 <= inject_Z (Z.of_nat rank)).
      { rewrite <- (Zle_Qle 1). lia. }
      split.
      * apply Qle_shift_div_l; [exact Hpos | lra].
      * apply Qle_shift_div_r; [exact Hpos | lra].
    + apply IH. lia.
Qed.

Lemma metric_sums env pairs : forall hits rr_sum,
  0 <= rr_sum -> rr_sum <= inject_Z (Z.of_nat hits) ->
  0 <= fold_left (add_reciprocal_rank env) pairs rr_sum /\
  fold_left (add_reciprocal_rank env) pairs rr_sum
    <= inject_Z (Z.of_nat (fold_left (count_hit env) pairs hits)) /\
  (fold_left (count_hit env) pairs hits <= hits + length pairs)%nat.
Proof.
  induction pairs as [|[retrieved truth] pairs IH]; intros hits rr_sum H0 Hle.
  - simpl. split; [exact H0|]. split; [exact Hle | lia].
  - cbn [fold_left add_reciprocal_rank count_hit].
    destruct (reciprocal_rank_bounds env truth retrieved 1 ltac:(lia)) as [Hr0 Hr1].
    destruct (IH (if existsb (matches env truth) retrieved then (hits + 1)%nat else hits)
                 (rr_sum + reciprocal_rank env truth retrieved 1)) as (H1 & H2 & H3).
    + lra.
    + destruct (existsb (matches env truth) retrieved).
      * rewrite Nat2Z.inj_add, inject_Z_plus.
        change (inject_Z (Z.of_nat 1)) with 1. lra.
      * lra.
    + split; [exact H1|]. split; [exact H2|].
      cbn [length]. destruct (existsb (matches env truth) retrieved); lia.
Qed.

(** X25. Both retrieval metrics lie between 0 and 1, and the mean reciprocal
    rank never exceeds the hit rate; both are 0 when there is no query. *)
Theorem metrics_bounds (env : Env) (retrieved_contexts : list (list string))
    (ground_truth_contexts : list string) :
  0 <= mean_reciprocal_rank env retrieved_contexts ground_truth_contexts /\
  mean_reciprocal_rank env retrieved_contexts ground_truth_contexts
    <= retrieval_hit_rate env retrieved_contexts ground_truth_contexts /\
  retrieval_hit_rate env retrieved_contexts ground_truth_contexts <= 1 /\
  mean_reciprocal_rank env [] ground_truth_contexts = 0 /\
  retrieval_hit_rate env [] ground_truth_contexts = 0.
Proof.
  assert (Hmain :
    0 <= mean_reciprocal_rank env retrieved_contexts ground_truth_contexts /\
    mean_reciprocal_rank env retrieved_contexts ground_truth_contexts
      <= retrieval_hit_rate env retrieved_contexts ground_truth_contexts /\
    retrieval_hit_rate env retrieved_contexts ground_truth_contexts <= 1).
  { unfold mean_reciprocal_rank, retrieval_hit_rate.
    destruct retrieved_contexts as [|rc rcs].
    { split; [apply Qle_refl|]. split; [apply Qle_refl | discriminate]. }
    set (pairs := zip (rc :: rcs) ground_truth_contexts).
    destruct (metric_sums env pairs 0 0 (Qle_refl 0) (Qle_refl 0)) as (H0 & Hle & Hhits).
    assert (Hlen : (length pairs <= length (rc :: rcs))%nat).
    { unfold pairs. rewrite length_zip_with. lia. }
    assert (Hpos : 0 < inject_Z (Z.of_nat (length (rc :: rcs)))).
    { rewrite <- (Zlt_Qlt 0). simpl length. lia. }
    split; [|split].
    - apply Qle_shift_div_l; [exact Hpos | lra].
    - apply Qle_shift_div_l; [exact Hpos|].
      unfold Qdiv. rewrite <- Qmult_assoc, (Qmult_comm (/ _)), Qmult_inv_r by lra. lra.
    - apply Qle_shift_div_r; [exact Hpos|]. rewrite Qmult_1_l, <- Zle_Qle. lia. }
  destruct Hmain as (H1 & H2 & H3). by repeat split.
Qed.

End MetricsProps.
